(** * Consensus fetch engine of the wallet: tally, vote and fan-out

    Shallow embedding of [tryEthereumFetch] as written in
    [src/mods/background/service_worker/entities/wallets/data.ts] (the
    two-level concurrent consensus fetch) and in
    [src/mods/background/content_script/index.ts] (the sequential
    [tryLoop] variant with exclusion sets).

    Promises are modelled by what they settle to, together with the
    list of observable steps taken while they ran.  A JavaScript [Map]
    is an insertion-ordered association list, a [Set] of objects is a
    [gset] of object addresses. *)

From stdpp Require Import base list strings gmap.
From Stdlib Require Import ZArith Sorted Permutation.

Local Set Warnings "-register-all".

(** ** Values thrown and promise outcomes *)

(** What the code can throw.  [Error m] is [new Error(m)];
    [AggregateError] is what [Promise.any] rejects with;
    [TooManyRetriesError] is what [tryLoop] gives up with; [Catched] is
    the wrapper [Result.runAndDoubleWrap] puts around a caught value. *)
Inductive Exn : Type :=
| Error (message : string)
| TypeError
| Panic
| NoneError
| AggregateError (errors : list Exn)
| TooManyRetriesError (errors : list Exn)
| Catched (cause : Exn).

(** [Result<T, E>] of @hazae41/result. *)
Inductive Result (T E : Type) : Type :=
| Ok (inner : T)
| Err (inner : E).
Arguments Ok {T E} inner.
Arguments Err {T E} inner.

(** One element of the array returned by [Promise.allSettled]. *)
Inductive Settled (A : Type) : Type :=
| Fulfilled (value : A)
| Rejected (reason : Exn).
Arguments Fulfilled {A} value.
Arguments Rejected {A} reason.

(** [Fetched<T, Error>] of @hazae41/glacier: [Data] or [Fail], both
    exposing the wrapped value as [.inner]. *)
Inductive Fetched (Json : Type) : Type :=
| Data (inner : Json)
| Fail (inner : Json).
Arguments Data {Json} inner.
Arguments Fail {Json} inner.

Definition Fetched_inner {Json} (f : Fetched Json) : Json :=
  match f with Data x => x | Fail x => x end.

(** A JSON-RPC response: [RpcOk] carries a result, [RpcErr] an error. *)
Inductive RpcResponse (Json : Type) : Type :=
| RpcOk (result : Json)
| RpcErr (error : Json).
Arguments RpcOk {Json} result.
Arguments RpcErr {Json} error.

(** [Fetched.rewrap]: an ok response becomes [Data], an error response
    becomes [Fail]. *)
Definition Fetched_rewrap {Json} (r : RpcResponse Json) : Fetched Json :=
  match r with RpcOk x => Data x | RpcErr e => Fail e end.

(** [JSON.stringify], on the values that responses carry. *)
Class Stringify (Json : Type) : Type := JSON_stringify : Json → string.

(** ** JavaScript [Map] with string keys: insertion-ordered *)

Module JsMap.

Definition t (V : Type) : Type := list (string * V).

Definition empty {V} : t V := [].

Fixpoint get {V} (m : t V) (k : string) : option V :=
  match m with
  | [] => None
  | (k', v) :: m' => if decide (k = k') then Some v else get m' k
  end.

(** [set] keeps the position of a key that is already present and
    appends a new key at the end. *)
Fixpoint set {V} (m : t V) (k : string) (v : V) : t V :=
  match m with
  | [] => [(k, v)]
  | (k', v') :: m' =>
      if decide (k = k') then (k, v) :: m' else (k', v') :: set m' k v
  end.

Definition size {V} (m : t V) : nat := length m.

End JsMap.

(** An element of [Maps.entries(counters)]. *)
Record Entry : Type := { key : string; value : nat }.

(** Modelled from the spec: [Maps.entries] of [@/libs/maps/maps] is not
    among the sources; it is used as the iterator over the entries of a
    [Map], each given as an object with fields [key] and [value], in
    the map's own (insertion) order. *)
Definition Maps_entries (m : JsMap.t nat) : list Entry :=
  map (λ kv, {| key := kv.1; value := kv.2 |}) m.

(** ** [Array.prototype.sort] with a comparator

    The sort is stable, so with a consistent comparator its result is
    the one of a stable insertion sort: [a] stays before [b] when
    [cmp a b <= 0]. *)
Fixpoint sort_insert {A} (cmp : A → A → Z) (x : A) (l : list A) : list A :=
  match l with
  | [] => [x]
  | y :: l' =>
      if decide (cmp x y ≤ 0)%Z then x :: y :: l' else y :: sort_insert cmp x l'
  end.

Definition Array_sort {A} (cmp : A → A → Z) (l : list A) : list A :=
  foldr (sort_insert cmp) [] l.

(** The comparator [(a, b) => b.value - a.value]. *)
Definition by_occurence (a b : Entry) : Z :=
  (Z.of_nat (value b) - Z.of_nat (value a))%Z.

(** ** [Promise.any] over promises that have all settled

    The first fulfilled promise of the array gives the value; when
    none is fulfilled (also for an empty array) the result is rejected
    with an [AggregateError] of the reasons. *)
Fixpoint reasons {A} (results : list (Settled A)) : list Exn :=
  match results with
  | [] => []
  | Fulfilled _ :: rest => reasons rest
  | Rejected e :: rest => e :: reasons rest
  end.

Fixpoint first_fulfilled {A} (results : list (Settled A)) : option A :=
  match results with
  | [] => None
  | Fulfilled v :: _ => Some v
  | Rejected _ :: rest => first_fulfilled rest
  end.

Definition Promise_any {A} (results : list (Settled A)) : Settled A :=
  match first_fulfilled results with
  | Some v => Fulfilled v
  | None => Rejected (AggregateError (reasons results))
  end.

(** ** The tally-and-vote block

    Lines 242-276 (over the connections of one circuit) and 282-316
    (over the circuits) of data.ts are the same text; [consensus] is
    that text, applied to the array [results] of settled promises. *)
Section Consensus.

Context {Json : Type} `{Stringify Json}.

(** State of the [for (const result of results)] loop. *)
Record Tally : Type := {
  fetcheds : JsMap.t (Fetched Json);
  counters : JsMap.t nat
}.

Definition Tally_empty : Tally :=
  {| fetcheds := JsMap.empty; counters := JsMap.empty |}.

(** [raw] of a fulfilled result. *)
Definition raw_of (f : Fetched Json) : string :=
  JSON_stringify (Fetched_inner f).

(** One iteration of the loop body. *)
Definition tally_step (st : Tally) (result : Settled (Fetched Json)) : Tally :=
  match result with
  | Rejected _ => st
  | Fulfilled value =>
      let raw := raw_of value in
      let previous := default 0 (JsMap.get (counters st) raw) in
      {| fetcheds := JsMap.set (fetcheds st) raw value;
         counters := JsMap.set (counters st) raw (previous + 1) |}
  end.

Definition tally (results : list (Settled (Fetched Json))) : Tally :=
  foldl tally_step Tally_empty results.

(** The message of the error thrown on a tie. *)
Definition could_not_choose_truth : Exn := Error "Could not choose truth"%string.

(** The vote.  [sorteds[1]] of a shorter array is [undefined], whose
    [.value] raises a [TypeError]; [fetcheds.get(..)!] of a missing
    key is [undefined], which is no [Fetched]: both are shown
    unreachable below ([consensus_no_TypeError]). *)
Definition consensus (results : list (Settled (Fetched Json)))
  : Settled (Fetched Json) :=
  let st := tally results in
  if decide (JsMap.size (counters st) < 2) then Promise_any results
  else
    let sorteds := Array_sort by_occurence (Maps_entries (counters st)) in
    match sorteds !! 0, sorteds !! 1 with
    | Some s0, Some s1 =>
        if decide (value s0 = value s1) then Rejected could_not_choose_truth
        else
          match JsMap.get (fetcheds st) (key s0) with
          | Some f => Fulfilled f
          | None => Rejected TypeError
          end
    | _, _ => Rejected TypeError
    end.

(** Number of fulfilled results whose serialisation is [k]. *)
Fixpoint votes (k : string) (results : list (Settled (Fetched Json))) : nat :=
  match results with
  | [] => 0
  | Fulfilled v :: rest =>
      (if decide (raw_of v = k) then 1 else 0) + votes k rest
  | Rejected _ :: rest => votes k rest
  end.

(** The fulfilled values, in array order. *)
Fixpoint fulfilleds {A} (results : list (Settled A)) : list A :=
  match results with
  | [] => []
  | Fulfilled v :: rest => v :: fulfilleds rest
  | Rejected _ :: rest => fulfilleds rest
  end.

(** The outcome of a round as the caller can tell it apart: the
    serialisation of the accepted value, or the kind of failure. *)
Inductive Verdict : Type :=
| Accepted (raw : string)
| NoResponses
| AmbiguousConsensus
| OtherFailure.

Definition verdict (r : Settled (Fetched Json)) : Verdict :=
  match r with
  | Fulfilled f => Accepted (raw_of f)
  | Rejected (AggregateError _) => NoResponses
  | Rejected (Error m) =>
      if decide (m = "Could not choose truth"%string) then AmbiguousConsensus
      else OtherFailure
  | Rejected _ => OtherFailure
  end.

End Consensus.

(** ** Promises with a record of what they did

    An [async] computation is modelled by the steps it took and what
    its promise settled to.  The steps are only recorded: no decision
    of the code reads them. *)

(** [GetPool i]: [runWithPoolOrThrow(i)] was started and asked the
    directory for slot [i]; [GetConn i j]: [runWithConnOrThrow(j)] was
    started in circuit [i] and asked its pool for slot [j];
    [Send i j]: a request was handed to [TorRpc] on that connection. *)
Inductive Event : Type :=
| GetPool (index : nat)
| GetConn (pool_index index : nat)
| Send (pool_index index : nat).

Definition Async (A : Type) : Type := (list Event * Settled A)%type.

Definition Async_return {A} (a : A) : Async A := ([], Fulfilled a).

Definition Async_throw {A} (e : Exn) : Async A := ([], Rejected e).

Definition Async_bind {A B} (m : Async A) (f : A → Async B) : Async B :=
  match m with
  | (t, Fulfilled a) => let '(t', r) := f a in (t ++ t', r)
  | (t, Rejected e) => (t, Rejected e)
  end.

Definition emit (ev : Event) : Async unit := ([ev], Fulfilled tt).

(** A promise that is already settled, awaited again. *)
Definition settle {A} (s : Settled A) : Async A := ([], s).

Notation "'await' x <- m ; k" := (Async_bind m (fun x => k))
  (at level 10, x name, m at level 100, k at level 200).

(** [r.unwrap()]: the inner value of an [Ok], a throw on an [Err]. *)
Definition unwrap {T} (r : Result T Exn) : Async T :=
  match r with
  | Ok x => Async_return x
  | Err e => Async_throw e
  end.

(** [Option.wrap(x).ok()]: [undefined] becomes an [Err]. *)
Definition Option_ok {T} (o : option T) : Result T Exn :=
  match o with
  | Some x => Ok x
  | None => Err NoneError
  end.

(** [Promise.allSettled]: every promise of the array runs to its end,
    whatever the others do; the outcomes are listed in array order and
    the promise of the list is always fulfilled.  The steps of the
    promises are recorded one promise after the other. *)
Definition Promise_allSettled {A} (promises : list (Async A))
  : Async (list (Settled A)) :=
  (concat (map fst promises), Fulfilled (map snd promises)).

(** [Array.from({ length }, (_, i) => f(i))]. *)
Definition Array_from {A} (length : nat) (f : nat → A) : list A :=
  map f (seq 0 length).

(** [Result.runAndDoubleWrap] of @hazae41/result: the callback is
    awaited inside a [try]; what it returns is wrapped in [Ok], what it
    throws is wrapped in [Err(Catched.from(e))]. *)
Definition Result_runAndDoubleWrap {A} (callback : Async A)
  : Async (Result A Exn) :=
  match callback with
  | (t, Fulfilled a) => (t, Fulfilled (Ok a))
  | (t, Rejected e) => (t, Fulfilled (Err (Catched e)))
  end.

(** ** Pools, connections and the transport *)

(** [Pool<T>] of @hazae41/piscine, as far as the code reads it: a
    fixed [capacity]; [tryGet(index)], whose result is unwrapped twice
    (the slot may be missing, and its creation may have failed); and
    [tryGetCryptoRandom()], given here as a function of the word that
    [crypto.getRandomValues] produced for the call. *)
Record Pool (A : Type) : Type := {
  capacity : nat;
  tryGet : nat → Result (Result A Exn) Exn;
  tryGetCryptoRandom : nat → Result A Exn
}.
Arguments capacity {A} p.
Arguments tryGet {A} p index.
Arguments tryGetCryptoRandom {A} p word.

Record Circuit : Type := { circuit_id : string }.

Record WebSocket : Type := { socket_url : string }.

(** The two kinds of connection ([isURL()] and [isWebSocket()]).  No
    third kind exists, so the trailing [throw new Panic()] of
    [runWithConnOrThrow] has no counterpart. *)
Inductive Connection : Type :=
| URLConnection (url : string) (circuit : Circuit)
| WebSocketConnection (socket : WebSocket) (circuit : Circuit).

(** [RpcConnection]: a connection and the counter that numbers its
    requests ([counter] in data.ts, [client] in index.ts). *)
Record RpcConnection : Type := {
  counter : nat;
  connection : Connection
}.

Record RpcRequestPreinit (Json : Type) : Type := {
  method : string;
  params : list Json
}.
Arguments method {Json} r.
Arguments params {Json} r.

Record RpcRequest (Json : Type) : Type := {
  request_id : nat;
  request_init : RpcRequestPreinit Json
}.
Arguments request_id {Json} r.
Arguments request_init {Json} r.

(** [counter.prepare(init)]: the request numbered by the counter. *)
Definition prepare {Json} (counter : nat) (init : RpcRequestPreinit Json)
  : RpcRequest Json :=
  {| request_id := counter; request_init := init |}.

(** [TorRpc] of [@/libs/rpc/rpc] is not among the sources: the two
    calls are taken as given.  Each returns a [Result]: a response of
    the node, or the error of the exchange (a timeout or an abort
    through the signal is such an error). *)
Record TorRpc (Json : Type) : Type := {
  tryFetchWithCircuit :
    string → Circuit → RpcRequest Json → Result (RpcResponse Json) Exn;
  tryFetchWithSocket :
    WebSocket → RpcRequest Json → Result (RpcResponse Json) Exn
}.
Arguments tryFetchWithCircuit {Json} t url circuit request.
Arguments tryFetchWithSocket {Json} t socket request.

Record EthereumChain : Type := { chainId : nat }.

(** ** The two-level consensus fetch (service_worker/entities/wallets/data.ts) *)

Module ServiceWorker.

Section Fetch.

Context {Json : Type} `{Stringify Json}.

(** [EthBrume]: for a chain id, the pool of the circuits' pools. *)
Record EthereumContext : Type := {
  chain : EthereumChain;
  brume : gmap nat (Pool (Pool RpcConnection))
}.

Variable rpc : TorRpc Json.
Variable init : RpcRequestPreinit Json.

(** What the exchange on a connection gives: the call that
    [runWithConnOrThrow] makes for this kind of connection.  Used to
    state properties only. *)
Definition exchange (conn : RpcConnection) : Result (RpcResponse Json) Exn :=
  let request := prepare (counter conn) init in
  match connection conn with
  | URLConnection url circuit => tryFetchWithCircuit rpc url circuit request
  | WebSocketConnection socket circuit => tryFetchWithSocket rpc socket request
  end.

(** [runWithConnOrThrow(index)] inside [runWithPoolOrThrow(pool_index)]. *)
Definition runWithConnOrThrow (pool : Pool RpcConnection)
    (pool_index index : nat) : Async (Fetched Json) :=
  await _ <- emit (GetConn pool_index index) ;
  await slot <- unwrap (tryGet pool index) ;
  await conn <- unwrap slot ;
  let request := prepare (counter conn) init in
  match connection conn with
  | URLConnection url circuit =>
      await _ <- emit (Send pool_index index) ;
      let result := tryFetchWithCircuit rpc url circuit request in
      await response <- unwrap result ;
      Async_return (Fetched_rewrap response)
  | WebSocketConnection socket circuit =>
      await _ <- emit (Send pool_index index) ;
      let result := tryFetchWithSocket rpc socket request in
      await response <- unwrap result ;
      Async_return (Fetched_rewrap response)
  end.

(** [runWithPoolOrThrow(index)]: fan out over the connections of one
    circuit, then vote. *)
Definition runWithPoolOrThrow (pools : Pool (Pool RpcConnection))
    (index : nat) : Async (Fetched Json) :=
  await _ <- emit (GetPool index) ;
  await slot <- unwrap (tryGet pools index) ;
  await pool <- unwrap slot ;
  let promises := Array_from (capacity pool) (runWithConnOrThrow pool index) in
  await results <- Promise_allSettled promises ;
  settle (consensus results).

(** The callback given to [Result.runAndDoubleWrap]. *)
Definition fetchOrThrow (ethereum : EthereumContext) : Async (Fetched Json) :=
  await pools <- unwrap (Option_ok (brume ethereum !! chainId (chain ethereum))) ;
  let promises := Array_from (capacity pools) (runWithPoolOrThrow pools) in
  await results <- Promise_allSettled promises ;
  settle (consensus results).

(** [tryEthereumFetch] of data.ts. *)
Definition tryEthereumFetch (ethereum : EthereumContext)
  : Async (Result (Fetched Json) Exn) :=
  Result_runAndDoubleWrap (fetchOrThrow ethereum).

End Fetch.

End ServiceWorker.

(** ** The retry loop with exclusion sets (content_script/index.ts) *)

Module ContentScript.

(** An object together with its identity: [Set.has] and [Set.add]
    compare objects by reference, so a [Set] of objects is the set of
    their addresses. *)
Record Ref (A : Type) : Type := { addr : positive; deref : A }.
Arguments addr {A} r.
Arguments deref {A} r.

(** [Looped<E>] of @hazae41/piscine. *)
Inductive Looped (E : Type) : Type :=
| Cancel (inner : E)
| Retry (inner : E)
| Skip (inner : E).
Arguments Cancel {E} inner.
Arguments Retry {E} inner.
Arguments Skip {E} inner.

(** The two sets of the function. *)
Inductive SetName : Type := AllTriedPools | AllTriedConns.

#[global] Instance SetName_eq_dec : EqDecision SetName.
Proof. solve_decision. Defined.

(** What is recorded of a run: [NewSet s] for [s = new Set()],
    [Add s tried a] for [s.add(a)] on a set whose content was [tried],
    [Fetch a] for a request handed to [TorRpc] on the connection at
    address [a]. *)
Inductive Step : Type :=
| NewSet (which : SetName)
| Add (which : SetName) (tried : gset positive) (a : positive)
| Fetch (a : positive).

(** The mutable state of one call: the words that
    [crypto.getRandomValues] will produce, the two sets, and the record
    of the steps taken. *)
Record Heap : Type := {
  random : list nat;
  allTriedPools : gset positive;
  allTriedConns : gset positive;
  steps : list Step
}.

Definition tried (which : SetName) (h : Heap) : gset positive :=
  match which with
  | AllTriedPools => allTriedPools h
  | AllTriedConns => allTriedConns h
  end.

Definition with_random (words : list nat) (h : Heap) : Heap :=
  {| random := words; allTriedPools := allTriedPools h;
     allTriedConns := allTriedConns h; steps := steps h |}.

Definition record (s : Step) (h : Heap) : Heap :=
  {| random := random h; allTriedPools := allTriedPools h;
     allTriedConns := allTriedConns h; steps := steps h ++ [s] |}.

(** [s = new Set()]. *)
Definition new_set (which : SetName) (h : Heap) : Heap :=
  record (NewSet which)
    match which with
    | AllTriedPools =>
        {| random := random h; allTriedPools := ∅;
           allTriedConns := allTriedConns h; steps := steps h |}
    | AllTriedConns =>
        {| random := random h; allTriedPools := allTriedPools h;
           allTriedConns := ∅; steps := steps h |}
    end.

(** [s.add(a)]. *)
Definition add (which : SetName) (a : positive) (h : Heap) : Heap :=
  record (Add which (tried which h) a)
    match which with
    | AllTriedPools =>
        {| random := random h; allTriedPools := {[a]} ∪ allTriedPools h;
           allTriedConns := allTriedConns h; steps := steps h |}
    | AllTriedConns =>
        {| random := random h; allTriedPools := allTriedPools h;
           allTriedConns := {[a]} ∪ allTriedConns h; steps := steps h |}
    end.

(** A computation on the heap.  [None] stands for a [while (true)]
    that has not left its loop when the random words ran out. *)
Definition Loop (A : Type) : Type := Heap → option A * Heap.

Definition Loop_return {A} (a : A) : Loop A := λ h, (Some a, h).

Definition Loop_bind {A B} (m : Loop A) (f : A → Loop B) : Loop B :=
  λ h, match m h with
       | (Some a, h') => f a h'
       | (None, h') => (None, h')
       end.

Definition Loop_do (f : Heap → Heap) : Loop unit := λ h, (Some tt, f h).

Notation "'step' x <- m ; k" := (Loop_bind m (fun x => k))
  (at level 10, x name, m at level 100, k at level 200).

(** [result.mapErrSync(f)] and [result.mapSync(f)]. *)
Definition mapErrSync {T E E'} (f : E → E') (r : Result T E) : Result T E' :=
  match r with Ok x => Ok x | Err e => Err (f e) end.

Definition mapSync {T T' E} (f : T → T') (r : Result T E) : Result T' E :=
  match r with Ok x => Ok (f x) | Err e => Err e end.

(** Modelled from the spec: [tryLoop] of @hazae41/piscine is not among
    the sources.  It calls the looper with [i = 0, 1, ..] at most [max]
    times: an [Ok] ends the loop with that value, a [Cancel] ends it
    with the cancelled error, a [Retry] or [Skip] is kept and the next
    iteration follows; after [max] failed iterations the loop fails
    with the errors of all the attempts.  The waiting time between two
    attempts is not modelled. *)
Fixpoint tryLoop_from {T} (looper : nat → Loop (Result T (Looped Exn)))
    (remaining i : nat) (errors : list Exn) : Loop (Result T Exn) :=
  match remaining with
  | 0 => Loop_return (Err (TooManyRetriesError errors))
  | S remaining' =>
      step result <- looper i ;
      match result with
      | Ok x => Loop_return (Ok x)
      | Err (Cancel e) => Loop_return (Err e)
      | Err (Retry e) => tryLoop_from looper remaining' (S i) (errors ++ [e])
      | Err (Skip e) => tryLoop_from looper remaining' (S i) (errors ++ [e])
      end
  end.

Definition tryLoop {T} (looper : nat → Loop (Result T (Looped Exn)))
    (max : nat) : Loop (Result T Exn) :=
  tryLoop_from looper max 0 [].

(** The [while (true)] block, the same text for pools (lines 436-443)
    and for connections (lines 452-459): draw a candidate at random,
    start over when the set has it, else add it to the set and leave.
    A failed draw is thrown as a [Cancel] through the enclosing
    [Result.unthrow], which returns it as the result of the looper. *)
Fixpoint while_true {A} (which : SetName) (pool : Pool (Ref A))
    (words : list nat) (h : Heap) : option (Result (Ref A) (Looped Exn)) * Heap :=
  match words with
  | [] => (None, with_random [] h)
  | word :: words' =>
      let h := with_random words' h in
      match tryGetCryptoRandom pool word with
      | Err e => (Some (Err (Cancel e)), h)
      | Ok candidate =>
          if decide (addr candidate ∈ tried which h)
          then while_true which pool words' h
          else (Some (Ok candidate), add which (addr candidate) h)
      end
  end.

Definition draw_untried {A} (which : SetName) (pool : Pool (Ref A))
  : Loop (Result (Ref A) (Looped Exn)) :=
  λ h, while_true which pool (random h) h.

Section Fetch.

Context {Json : Type}.

(** [EthBrume] of the content script: pools and connections are
    objects with an identity. *)
Record EthereumContext : Type := {
  chain : EthereumChain;
  brume : gmap nat (Pool (Ref (Pool (Ref RpcConnection))))
}.

Variable rpc : TorRpc Json.
Variable init : RpcRequestPreinit Json.

(** The looper of the inner [tryLoop] (lines 448-489). *)
Definition tryWithConn (conns : Pool (Ref RpcConnection)) (i : nat)
  : Loop (Result (Fetched Json) (Looped Exn)) :=
  step drawn <- draw_untried AllTriedConns conns ;
  match drawn with
  | Err e => Loop_return (Err e)
  | Ok conn =>
      let request := prepare (counter (deref conn)) init in
      match connection (deref conn) with
      | URLConnection url circuit =>
          step _ <- Loop_do (record (Fetch (addr conn))) ;
          let result := tryFetchWithCircuit rpc url circuit request in
          Loop_return (mapErrSync Retry (mapSync Fetched_rewrap result))
      | WebSocketConnection socket circuit =>
          step _ <- Loop_do (record (Fetch (addr conn))) ;
          let result := tryFetchWithSocket rpc socket request in
          Loop_return (mapErrSync Retry (mapSync Fetched_rewrap result))
      end
  end.

(** The looper of the outer [tryLoop] (lines 432-491). *)
Definition tryWithPool (pools : Pool (Ref (Pool (Ref RpcConnection))))
    (i : nat) : Loop (Result (Fetched Json) (Looped Exn)) :=
  step drawn <- draw_untried AllTriedPools pools ;
  match drawn with
  | Err e => Loop_return (Err e)
  | Ok pool =>
      let conns := deref pool in
      step _ <- Loop_do (new_set AllTriedConns) ;
      step r <- tryLoop (tryWithConn conns) (capacity conns) ;
      Loop_return (mapErrSync Retry r)
  end.

(** [tryEthereumFetch] of index.ts.  A missing directory entry is
    thrown through [Result.unthrow] and comes back as its [Err]. *)
Definition tryEthereumFetch (ethereum : EthereumContext)
  : Loop (Result (Fetched Json) Exn) :=
  match Option_ok (brume ethereum !! chainId (chain ethereum)) with
  | Err e => Loop_return (Err e)
  | Ok pools =>
      step _ <- Loop_do (new_set AllTriedPools) ;
      tryLoop (tryWithPool pools) (capacity pools)
  end.

End Fetch.

(** The heap a call starts from. *)
Definition Heap_init (words : list nat) : Heap :=
  {| random := words; allTriedPools := ∅; allTriedConns := ∅; steps := [] |}.

(** The addresses added to set [which], one list for each lifetime of
    the set (from one [new Set()] to the next). *)
Fixpoint lifetimes (which : SetName) (current : list positive)
    (tr : list Step) : list (list positive) :=
  match tr with
  | [] => [current]
  | NewSet s :: tr' =>
      if decide (s = which) then current :: lifetimes which [] tr'
      else lifetimes which current tr'
  | Add s _ a :: tr' =>
      if decide (s = which) then lifetimes which (current ++ [a]) tr'
      else lifetimes which current tr'
  | Fetch _ :: tr' => lifetimes which current tr'
  end.

(** What a reader of the record of steps keeps track of: the content
    of the two sets and the connection added by the latest step, if
    that step was an [add] to [allTriedConns]. *)
Record Track : Type := {
  pools_now : gset positive;
  conns_now : gset positive;
  added_last : option positive
}.

Definition now (which : SetName) (t : Track) : gset positive :=
  match which with
  | AllTriedPools => pools_now t
  | AllTriedConns => conns_now t
  end.

(** [follows t tr t']: read from [t], the record [tr] is one that sets
    can produce, and it leads to [t'].  Every [add] is recorded with
    the content the set really had, adds an address the set did not
    hold and leaves the set with that address more; nothing else
    changes a set but [new Set()]; every request goes to the connection
    that the step before it added. *)
Fixpoint follows (t : Track) (tr : list Step) (t' : Track) : Prop :=
  match tr with
  | [] => t' = t
  | NewSet AllTriedPools :: tr' =>
      follows {| pools_now := ∅; conns_now := conns_now t;
                 added_last := None |} tr' t'
  | NewSet AllTriedConns :: tr' =>
      follows {| pools_now := pools_now t; conns_now := ∅;
                 added_last := None |} tr' t'
  | Add AllTriedPools before a :: tr' =>
      (before = pools_now t) ∧ (a ∉ before) ∧
      follows {| pools_now := {[a]} ∪ pools_now t; conns_now := conns_now t;
                 added_last := None |} tr' t'
  | Add AllTriedConns before a :: tr' =>
      (before = conns_now t) ∧ (a ∉ before) ∧
      follows {| pools_now := pools_now t; conns_now := {[a]} ∪ conns_now t;
                 added_last := Some a |} tr' t'
  | Fetch a :: tr' =>
      (added_last t = Some a) ∧
      follows {| pools_now := pools_now t; conns_now := conns_now t;
                 added_last := None |} tr' t'
  end.

Definition Track_init : Track :=
  {| pools_now := ∅; conns_now := ∅; added_last := None |}.

Definition Track_of (h : Heap) (last : option positive) : Track :=
  {| pools_now := allTriedPools h; conns_now := allTriedConns h;
     added_last := last |}.

End ContentScript.

(** ** The hash that picks a colour and an emoji (libs/modhash) *)

Module Modhash.

(** A JavaScript number as this code meets it: an integer or [NaN].
    The integers stay far below 2^53 for any [length] up to
    2^53 - 2^16 in absolute value, so the arithmetic is exact. *)
Inductive JsNumber : Type :=
| Num (n : Z)
| NaN.

(** [a + b]. *)
Definition js_add (a b : JsNumber) : JsNumber :=
  match a, b with
  | Num x, Num y => Num (x + y)
  | _, _ => NaN
  end.

(** [a % b] on integers: the remainder takes the sign of the dividend,
    and a zero divisor gives [NaN]. *)
Definition js_rem (a b : JsNumber) : JsNumber :=
  match a, b with
  | Num x, Num y => if decide (y = 0%Z) then NaN else Num (Z.rem x y)
  | _, _ => NaN
  end.

(** The body of the [for] loop, over the code units that
    [seed.charCodeAt(i)] returns for [i = 0, 1, ..]. *)
Fixpoint loop (units : list nat) (length : Z) (index : JsNumber) : JsNumber :=
  match units with
  | [] => index
  | unit :: rest =>
      loop rest length (js_rem (js_add index (Num (Z.of_nat unit))) (Num length))
  end.

(** [Modhash.from(seed, length)], the seed given by its code units. *)
Definition from (seed : list nat) (length : Z) : JsNumber :=
  loop seed length (Num 0).

(** [Modhash.from(seed)], with the default [length = 256]. *)
Definition from_default (seed : list nat) : JsNumber := from seed 256%Z.

End Modhash.

(** ** Requests to a Ledger device (libs/ledger) *)

Module Ledger.

(** A command sent to the device.  Bytes are integers from 0 to 255. *)
Record Apdu : Type := {
  cla : Z;
  ins : Z;
  p1 : Z;
  p2 : Z;
  fragment : list Z
}.

(** The signature returned to the caller. *)
Record SignatureInit : Type := {
  sig_v : Z;
  sig_r : list Z;
  sig_s : list Z
}.

(** [GetAddressResult]. *)
Record GetAddressResult : Type := {
  uncompressedPublicKey : list Z;
  address : string;
  chaincode : list Z
}.

(** [Cursor] of @hazae41/cursor: a byte array and a position in it. *)
Record Cursor : Type := {
  bytes : list Z;
  offset : nat
}.

Definition Cursor_new (b : list Z) : Cursor := {| bytes := b; offset := 0 |}.

(** [cursor.remaining]. *)
Definition remaining (c : Cursor) : nat := length (bytes c) - offset c.

(** [cursor.readUint8OrThrow()]. *)
Definition readUint8OrThrow (c : Cursor) : Result (Z * Cursor) Exn :=
  match bytes c !! offset c with
  | Some b => Ok (b, {| bytes := bytes c; offset := offset c + 1 |})
  | None => Err (Error "CursorReadLengthOverflowError")
  end.

(** [cursor.readOrThrow(length)] and [cursor.readAndCopyOrThrow(length)]:
    the next [length] bytes, or a throw when fewer remain.  The code
    passes a negative length only when the path takes more than 150
    bytes; what the cursor does then is not modelled, the model throws. *)
Definition readOrThrow (c : Cursor) (length : Z) : Result (list Z * Cursor) Exn :=
  if decide (length < 0)%Z then Err (Error "negative length")
  else if decide (Z.of_nat (remaining c) < length)%Z
  then Err (Error "CursorReadLengthOverflowError")
  else Ok (take (Z.to_nat length) (drop (offset c) (bytes c)),
           {| bytes := bytes c; offset := offset c + Z.to_nat length |}).

(** [cursor.writeOrThrow(data)]: the bytes are copied at the position,
    or a throw when they do not fit. *)
Definition writeOrThrow (c : Cursor) (data : list Z) : Result Cursor Exn :=
  if decide (remaining c < length data)
  then Err (Error "CursorWriteLengthOverflowError")
  else Ok {| bytes := take (offset c) (bytes c) ++ data
                      ++ drop (offset c + length data) (bytes c);
             offset := offset c + length data |}.

(** The four bytes that [DataView.setUint32] stores, most significant
    first; the value is taken modulo 2^32. *)
Definition uint32_bytes (x : Z) : list Z :=
  [ (x / 16777216) `mod` 256; (x / 65536) `mod` 256;
    (x / 256) `mod` 256; x `mod` 256 ]%Z.

(** [cursor.writeUint32OrThrow(x)]. *)
Definition writeUint32OrThrow (c : Cursor) (x : Z) : Result Cursor Exn :=
  writeOrThrow c (uint32_bytes x).

(** A decoded RLP item, as [Rlp.toPrimitive] gives it: bytes or an
    array of items. *)
Inductive RlpPrimitive : Type :=
| RlpBytes (b : list Z)
| RlpArray (items : list RlpPrimitive).

(** A computation that talks to the device: from the commands sent so
    far to an outcome and the commands sent by then.  [None] stands
    for a [while] loop that has not ended within its fuel. *)
Definition Usb (A : Type) : Type := list Apdu → option (Settled A) * list Apdu.

Definition Usb_return {A} (a : A) : Usb A := λ sent, (Some (Fulfilled a), sent).

Definition Usb_unfinished {A} : Usb A := λ sent, (None, sent).

Definition Usb_bind {A B} (m : Usb A) (f : A → Usb B) : Usb B :=
  λ sent,
    match m sent with
    | (Some (Fulfilled a), sent') => f a sent'
    | (Some (Rejected e), sent') => (Some (Rejected e), sent')
    | (None, sent') => (None, sent')
    end.

(** A call that returns or throws. *)
Definition orThrow {A} (r : Result A Exn) : Usb A :=
  λ sent,
    match r with
    | Ok a => (Some (Fulfilled a), sent)
    | Err e => (Some (Rejected e), sent)
    end.

Notation "'usb' x <- m ; k" := (Usb_bind m (fun x => k))
  (at level 10, x name, m at level 100, k at level 200).
Notation "'usb' ' p <- m ; k" := (Usb_bind m (fun p => k))
  (at level 10, p pattern, m at level 100, k at level 200).

Section Device.

(** The device: its answer to a command, given the commands it got
    before.  An [Err] is a rejected request or an error status, which
    [r.unwrap()] throws. *)
Variable device : list Apdu → Apdu → Result (list Z) Exn.

(** [Paths] of [../common/binary/paths] is not among the sources:
    [Paths.from(path)] is taken as the bytes that the parsed path
    writes, or a throw; [sizeOrThrow()] is their number. *)
Variable Paths_from : string → Result (list Z) Exn.

(** [Bytes.toAscii] of @hazae41/bytes. *)
Variable Bytes_toAscii : list Z → string.

(** [Rlp] of @hazae41/cubane: reading an item from bytes, and writing
    one. *)
Variable Rlp_read : list Z → Result RlpPrimitive Exn.
Variable Rlp_write : RlpPrimitive → list Z.

(** [device.requestOrThrow(request).then(r => r.unwrap().bytes)]. *)
Definition requestOrThrow (request : Apdu) : Usb (list Z) :=
  λ sent,
    (Some match device sent request with
          | Ok response => Fulfilled response
          | Err e => Rejected e
          end,
     sent ++ [request]).

(** [getAddressOrThrow]. *)
Definition getAddressOrThrow (path : string) : Usb GetAddressResult :=
  usb paths <- orThrow (Paths_from path) ;
  let request :=
    {| cla := 0xe0; ins := 0x02; p1 := 0x00; p2 := 0x01; fragment := paths |} in
  usb response <- requestOrThrow request ;
  let cursor := Cursor_new response in
  usb ' (uncompressedPublicKeyLength, cursor) <- orThrow (readUint8OrThrow cursor) ;
  usb ' (uncompressedPublicKey, cursor) <-
    orThrow (readOrThrow cursor uncompressedPublicKeyLength) ;
  usb ' (addressLength, cursor) <- orThrow (readUint8OrThrow cursor) ;
  usb ' (addressBytes, cursor) <- orThrow (readOrThrow cursor addressLength) ;
  usb ' (chaincode, cursor) <- orThrow (readOrThrow cursor 32) ;
  Usb_return {| uncompressedPublicKey := uncompressedPublicKey;
                address := "0x" +:+ Bytes_toAscii addressBytes;
                chaincode := chaincode |}.

(** [verifyAndGetAddressOrThrow]: the same with [p1 = 0x01]. *)
Definition verifyAndGetAddressOrThrow (path : string) : Usb GetAddressResult :=
  usb paths <- orThrow (Paths_from path) ;
  let request :=
    {| cla := 0xe0; ins := 0x02; p1 := 0x01; p2 := 0x01; fragment := paths |} in
  usb response <- requestOrThrow request ;
  let cursor := Cursor_new response in
  usb ' (uncompressedPublicKeyLength, cursor) <- orThrow (readUint8OrThrow cursor) ;
  usb ' (uncompressedPublicKey, cursor) <-
    orThrow (readOrThrow cursor uncompressedPublicKeyLength) ;
  usb ' (addressLength, cursor) <- orThrow (readUint8OrThrow cursor) ;
  usb ' (addressBytes, cursor) <- orThrow (readOrThrow cursor addressLength) ;
  usb ' (chaincode, cursor) <- orThrow (readOrThrow cursor 32) ;
  Usb_return {| uncompressedPublicKey := uncompressedPublicKey;
                address := "0x" +:+ Bytes_toAscii addressBytes;
                chaincode := chaincode |}.

(** The [while (reader.remaining)] loop of [signPersonalMessageOrThrow]. *)
Fixpoint signPersonalMessage_while (fuel : nat) (reader : Cursor)
    (response : list Z) : Usb (list Z) :=
  if decide (remaining reader = 0) then Usb_return response
  else
    match fuel with
    | 0 => Usb_unfinished
    | S fuel =>
        let body := Z.min 150 (Z.of_nat (remaining reader)) in
        usb ' (chunk, reader) <- orThrow (readOrThrow reader body) ;
        let request :=
          {| cla := 0xe0; ins := 0x08; p1 := 0x80; p2 := 0x00;
             fragment := chunk |} in
        usb response <- requestOrThrow request ;
        signPersonalMessage_while fuel reader response
    end.

(** [signPersonalMessageOrThrow].  The loop is given one unit of fuel
    for each byte of the message. *)
Definition signPersonalMessageOrThrow (path : string) (message : list Z)
  : Usb SignatureInit :=
  usb paths <- orThrow (Paths_from path) ;
  let reader := Cursor_new message in
  let head := (Z.of_nat (length paths) + 4)%Z in
  let body := Z.min (150 - head) (Z.of_nat (remaining reader)) in
  usb ' (chunk, reader) <- orThrow (readOrThrow reader body) ;
  let writer := Cursor_new (replicate (Z.to_nat (head + body)) 0%Z) in
  usb writer <- orThrow (writeOrThrow writer paths) ;
  usb writer <- orThrow (writeUint32OrThrow writer (Z.of_nat (length message))) ;
  usb writer <- orThrow (writeOrThrow writer chunk) ;
  let request :=
    {| cla := 0xe0; ins := 0x08; p1 := 0x00; p2 := 0x00;
       fragment := bytes writer |} in
  usb response <- requestOrThrow request ;
  usb response <- signPersonalMessage_while (length message) reader response ;
  let cursor := Cursor_new response in
  usb ' (v, cursor) <- orThrow (readUint8OrThrow cursor) ;
  usb ' (r, cursor) <- orThrow (readOrThrow cursor 32) ;
  usb ' (s, cursor) <- orThrow (readOrThrow cursor 32) ;
  Usb_return {| sig_v := v - 27; sig_r := r; sig_s := s |}.

(** [readLegacyUnprotectedOrThrow].  [bytes[0]] of an empty array is
    [undefined], which is not below [0x80]. *)
Definition readLegacyUnprotectedOrThrow (bytes : list Z)
  : Result (option (list Z)) Exn :=
  let typed :=
    match bytes !! 0 with
    | Some b => bool_decide (b < 0x80)%Z
    | None => false
    end in
  if typed then Ok None
  else
    match Rlp_read bytes with
    | Err e => Err e
    | Ok (RlpBytes _) => Err (Error "Wrong RLP type for transaction")
    | Ok (RlpArray rlp) =>
        if decide (length rlp ≠ 9) then Ok None
        else Ok (Some (Rlp_write (RlpArray (take 6 rlp))))
    end.

(** The adjustment of [body] that both chunks of [signTransactionOrThrow]
    make: when the chunk would reach the end of the unprotected part,
    it takes all that remains. *)
Definition protect (unprotected : option (list Z)) (reader : Cursor)
    (body : Z) : Z :=
  match unprotected with
  | Some u =>
      if decide (Z.of_nat (length u) ≤ Z.of_nat (offset reader) + body)%Z
      then Z.of_nat (remaining reader)
      else body
  | None => body
  end.

(** The [while (reader.remaining)] loop of [signTransactionOrThrow]. *)
Fixpoint signTransaction_while (fuel : nat) (unprotected : option (list Z))
    (reader : Cursor) (response : list Z) : Usb (list Z) :=
  if decide (remaining reader = 0) then Usb_return response
  else
    match fuel with
    | 0 => Usb_unfinished
    | S fuel =>
        let body := Z.min 150 (Z.of_nat (remaining reader)) in
        let body := protect unprotected reader body in
        usb ' (chunk, reader) <- orThrow (readOrThrow reader body) ;
        let request :=
          {| cla := 0xe0; ins := 0x04; p1 := 0x80; p2 := 0x00;
             fragment := chunk |} in
        usb response <- requestOrThrow request ;
        signTransaction_while fuel unprotected reader response
    end.

(** [signTransactionOrThrow], from the bytes of
    [transaction.unsignedSerialized] (their decoding from hexadecimal
    is not modelled). *)
Definition signTransactionOrThrow (path : string) (slice : list Z)
  : Usb SignatureInit :=
  usb paths <- orThrow (Paths_from path) ;
  let reader := Cursor_new slice in
  usb unprotected <- orThrow (readLegacyUnprotectedOrThrow slice) ;
  let head := Z.of_nat (length paths) in
  let body := Z.min (150 - head) (Z.of_nat (remaining reader)) in
  let body := protect unprotected reader body in
  usb ' (chunk, reader) <- orThrow (readOrThrow reader body) ;
  let writer := Cursor_new (replicate (Z.to_nat (head + body)) 0%Z) in
  usb writer <- orThrow (writeOrThrow writer paths) ;
  usb writer <- orThrow (writeOrThrow writer chunk) ;
  let request :=
    {| cla := 0xe0; ins := 0x04; p1 := 0x00; p2 := 0x00;
       fragment := bytes writer |} in
  usb response <- requestOrThrow request ;
  usb response <-
    signTransaction_while (length slice) unprotected reader response ;
  let cursor := Cursor_new response in
  usb ' (v, cursor) <- orThrow (readUint8OrThrow cursor) ;
  usb ' (r, cursor) <- orThrow (readOrThrow cursor 32) ;
  usb ' (s, cursor) <- orThrow (readOrThrow cursor 32) ;
  Usb_return {| sig_v := v; sig_r := r; sig_s := s |}.

(** [signEIP712HashedMessageOrThrow]. *)
Definition signEIP712HashedMessageOrThrow (path : string)
    (domain message : list Z) : Usb SignatureInit :=
  usb paths <- orThrow (Paths_from path) ;
  let writer := Cursor_new (replicate (length paths + 32 + 32) 0%Z) in
  usb writer <- orThrow (writeOrThrow writer paths) ;
  usb writer <- orThrow (writeOrThrow writer domain) ;
  usb writer <- orThrow (writeOrThrow writer message) ;
  let request :=
    {| cla := 0xe0; ins := 0x0c; p1 := 0x00; p2 := 0x00;
       fragment := bytes writer |} in
  usb response <- requestOrThrow request ;
  let reader := Cursor_new response in
  usb ' (v, reader) <- orThrow (readUint8OrThrow reader) ;
  usb ' (r, reader) <- orThrow (readOrThrow reader 32) ;
  usb ' (s, reader) <- orThrow (readOrThrow reader 32) ;
  Usb_return {| sig_v := v - 27; sig_r := r; sig_s := s |}.

End Device.

(** The bytes that follow the head of the first command, then the
    fragments of the commands after it: what the device is given of
    the message. *)
Definition payload (head : nat) (sent : list Apdu) : list Z :=
  match sent with
  | [] => []
  | first :: rest => drop head (fragment first) ++ concat (fragment <$> rest)
  end.

End Ledger.

(** ** Counting the steps of the retry loop *)

Module RetrySteps.

(** The connections that were sent a request, in order. *)
Fixpoint fetched (tr : list ContentScript.Step) : list positive :=
  match tr with
  | [] => []
  | ContentScript.Fetch a :: tr' => a :: fetched tr'
  | _ :: tr' => fetched tr'
  end.

(** The pools that were drawn and kept, in order. *)
Fixpoint pools_tried (tr : list ContentScript.Step) : list positive :=
  match tr with
  | [] => []
  | ContentScript.Add ContentScript.AllTriedPools _ a :: tr' =>
      a :: pools_tried tr'
  | _ :: tr' => pools_tried tr'
  end.

(** The connections added to [allTriedConns] since it was last
    created, in order, from the ones in [current]. *)
Fixpoint conns_kept (current : list positive) (tr : list ContentScript.Step)
  : list positive :=
  match tr with
  | [] => current
  | ContentScript.NewSet ContentScript.AllTriedConns :: tr' =>
      conns_kept [] tr'
  | ContentScript.Add ContentScript.AllTriedConns _ a :: tr' =>
      conns_kept (current ++ [a]) tr'
  | _ :: tr' => conns_kept current tr'
  end.

(** One iteration of the outer loop that got past its [while (true)]:
    the pool it kept and the connections that its inner loop kept, in
    order. *)
Record Attempt : Type := {
  attempt_pool : ContentScript.Ref (Pool (ContentScript.Ref RpcConnection));
  attempt_conns : list (ContentScript.Ref RpcConnection)
}.

Definition pool_addresses (attempts : list Attempt) : list positive :=
  (λ a, ContentScript.addr (attempt_pool a)) <$> attempts.

Definition conn_addresses (a : Attempt) : list positive :=
  ContentScript.addr <$> attempt_conns a.

(** The steps of the inner loop on the connections at [conns], from
    the ones at [before] already in [allTriedConns]: each is added to
    the set that holds exactly the ones before it, then sent the
    request. *)
Fixpoint conn_steps (before conns : list positive)
  : list ContentScript.Step :=
  match conns with
  | [] => []
  | c :: rest =>
      ContentScript.Add ContentScript.AllTriedConns (list_to_set before) c
      :: ContentScript.Fetch c :: conn_steps (before ++ [c]) rest
  end.

(** The steps of the outer loop on [attempts], from the pools at
    [before] already in [allTriedPools]: each pool is added to the set
    that holds exactly the ones before it, then [allTriedConns] is
    created, then come the steps of its connections. *)
Fixpoint pool_steps (before : list positive) (attempts : list Attempt)
  : list ContentScript.Step :=
  match attempts with
  | [] => []
  | a :: rest =>
      ContentScript.Add ContentScript.AllTriedPools (list_to_set before)
        (ContentScript.addr (attempt_pool a))
      :: ContentScript.NewSet ContentScript.AllTriedConns
      :: conn_steps [] (conn_addresses a)
      ++ pool_steps (before ++ [ContentScript.addr (attempt_pool a)]) rest
  end.

(** The steps of a call that made [attempts]: [allTriedPools] is
    created once, before anything else. *)
Definition call_steps (attempts : list Attempt) : list ContentScript.Step :=
  ContentScript.NewSet ContentScript.AllTriedPools :: pool_steps [] attempts.

(** [x] is an object that a draw of [pool] can give. *)
Definition drawn {A} (pool : Pool (ContentScript.Ref A))
    (x : ContentScript.Ref A) : Prop :=
  ∃ word, tryGetCryptoRandom pool word = Ok x.

(** The pool of an attempt was drawn from [pools] and its connections
    were drawn from it, at addresses that differ. *)
Definition attempt_drawn
    (pools : Pool (ContentScript.Ref (Pool (ContentScript.Ref RpcConnection))))
    (a : Attempt) : Prop :=
  drawn pools (attempt_pool a)
  ∧ Forall (drawn (ContentScript.deref (attempt_pool a))) (attempt_conns a)
  ∧ NoDup (conn_addresses a).

(** No connection is in two pools of the directory. *)
Definition pools_share_nothing
    (pools : Pool (ContentScript.Ref (Pool (ContentScript.Ref RpcConnection))))
  : Prop :=
  ∀ pool pool' conn conn',
    drawn pools pool → drawn pools pool' →
    drawn (ContentScript.deref pool) conn →
    drawn (ContentScript.deref pool') conn' →
    ContentScript.addr conn = ContentScript.addr conn' →
    ContentScript.addr pool = ContentScript.addr pool'.

Section Outcome.

Context {Json : Type}.
Variable rpc : TorRpc Json.
Variable init : RpcRequestPreinit Json.

(** The record of one call, started on a fresh heap with the random
    words [words]. *)
Definition record_of_call (ethereum : ContentScript.EthereumContext)
    (words : list nat) : list ContentScript.Step :=
  ContentScript.steps
    (ContentScript.tryEthereumFetch rpc init ethereum
       (ContentScript.Heap_init words)).2.

(** The request on the connection failed. *)
Definition failed (conn : ContentScript.Ref RpcConnection) : Prop :=
  ∃ e, ServiceWorker.exchange rpc init (ContentScript.deref conn) = Err e.

(** The record of a call is the one of [attempts], made of pools at
    addresses that differ, each drawn with its connections. *)
Definition made_of
    (pools : Pool (ContentScript.Ref (Pool (ContentScript.Ref RpcConnection))))
    (attempts : list Attempt) (h : ContentScript.Heap) : Prop :=
  ContentScript.steps h = call_steps attempts
  ∧ NoDup (pool_addresses attempts)
  ∧ Forall (attempt_drawn pools) attempts.

(** The heap inside the attempt on pool [p], after the attempts
    [done]: the connections [cs] were kept so far, and all failed. *)
Definition inside (done : list Attempt)
    (p : ContentScript.Ref (Pool (ContentScript.Ref RpcConnection)))
    (cs : list (ContentScript.Ref RpcConnection)) (h : ContentScript.Heap)
  : Prop :=
  ContentScript.steps h
  = call_steps (done ++ [{| attempt_pool := p; attempt_conns := cs |}])
  ∧ ContentScript.allTriedPools h
    = list_to_set (pool_addresses done ++ [ContentScript.addr p])
  ∧ ContentScript.allTriedConns h = list_to_set (ContentScript.addr <$> cs)
  ∧ NoDup (ContentScript.addr <$> cs)
  ∧ Forall (drawn (ContentScript.deref p)) cs
  ∧ Forall failed cs.

(** The heap when a connection of pool [p] has answered with [f]. *)
Definition answered (done : list Attempt)
    (p : ContentScript.Ref (Pool (ContentScript.Ref RpcConnection)))
    (f : Fetched Json) (h : ContentScript.Heap) : Prop :=
  ∃ cs conn response,
    ContentScript.steps h
    = call_steps (done ++ [{| attempt_pool := p;
                              attempt_conns := cs ++ [conn] |}])
    ∧ NoDup (ContentScript.addr <$> cs ++ [conn])
    ∧ Forall (drawn (ContentScript.deref p)) (cs ++ [conn])
    ∧ Forall failed cs
    ∧ ServiceWorker.exchange rpc init (ContentScript.deref conn) = Ok response
    ∧ f = Fetched_rewrap response.

(** The heap between two attempts: the record is the one of attempts
    whose connections all failed. *)
Definition between
    (pools : Pool (ContentScript.Ref (Pool (ContentScript.Ref RpcConnection))))
    (h : ContentScript.Heap) : Prop :=
  ∃ attempts,
    made_of pools attempts h
    ∧ ContentScript.allTriedPools h = list_to_set (pool_addresses attempts)
    ∧ Forall (λ a, Forall failed (attempt_conns a)) attempts.

(** The heap when the call has an answer [f]: the last connection of
    the last attempt gave it, and every connection before it failed. *)
Definition ended
    (pools : Pool (ContentScript.Ref (Pool (ContentScript.Ref RpcConnection))))
    (f : Fetched Json) (h : ContentScript.Heap) : Prop :=
  ∃ done p cs conn response,
    made_of pools
      (done ++ [{| attempt_pool := p; attempt_conns := cs ++ [conn] |}]) h
    ∧ Forall (λ a, Forall failed (attempt_conns a)) done
    ∧ Forall failed cs
    ∧ ServiceWorker.exchange rpc init (ContentScript.deref conn) = Ok response
    ∧ f = Fetched_rewrap response.

End Outcome.

End RetrySteps.

(** ** Name resolution (BgEns of service_worker/entities/wallets/data.ts) *)

Module BgEns.

(** [Fetched<T, Error>] with the two types apart: the data is a decoded
    value, the error comes from the node or is made here. *)
Inductive Failure (Json : Type) : Type :=
| NodeError (inner : Json)
| LocalError (inner : Exn).
Arguments NodeError {Json} inner.
Arguments LocalError {Json} inner.

Inductive FetchedAs (T Json : Type) : Type :=
| DataAs (inner : T)
| FailAs (inner : Failure Json).
Arguments DataAs {T Json} inner.
Arguments FailAs {T Json} inner.

(** [r.throw(t)] inside [Result.unthrow]: an [Err] ends the block and is
    its result. *)
Definition throw_t {A B} (r : Result A Exn) (k : A → Result B Exn)
  : Result B Exn :=
  match r with
  | Ok a => k a
  | Err e => Err e
  end.

Notation "'throwing' x <- r ; k" := (throw_t r (fun x => k))
  (at level 10, x name, r at level 100, k at level 200).

(** [address.slice(2)]. *)
Definition slice2 (s : string) : string :=
  match s with
  | String _ (String _ rest) => rest
  | _ => EmptyString
  end.

(** @hazae41/cubane is not among the sources, and neither are the
    values of JSON: the hash of a name, the parsing of a function
    signature, the encoding of a call with one argument of 32 bytes,
    the decoding of a returned tuple of one address or of one string,
    the object [{ to, data }], a string as a value, and
    [String.prototype.toLowerCase] are taken as given. *)
Class Cubane (Json : Type) : Type := {
  Ens_tryNamehash : string → Result (list Z) Exn;
  FunctionSignature_tryParse : string → Result string Exn;
  Abi_tryEncode : string → list Z → Result string Exn;
  Abi_tryDecode_address : Json → Result string Exn;
  Abi_tryDecode_string : Json → Result string Exn;
  call_object : string → string → Json;
  Json_string : string → Json;
  toLowerCase : string → string
}.

Section Resolution.

Context {Json : Type} `{Cubane Json}.

(** [tryEthereumFetch(ethereum, init)], awaited. *)
Variable fetch : RpcRequestPreinit Json → Result (Fetched Json) Exn.

(** The request [{ method: "eth_call", params: [{ to, data }, "pending"] }]. *)
Definition eth_call (to data : string) : RpcRequestPreinit Json :=
  {| method := "eth_call";
     params := [call_object to data; Json_string "pending"] |}.

Definition registry : string := "0x00000000000C2E074eC69A0dFb2997BA6C7d2e1e".

(** [BgEns.Resolver.tryFetch]. *)
Definition Resolver_tryFetch (namehash : list Z)
  : Result (FetchedAs string Json) Exn :=
  throwing signature <- FunctionSignature_tryParse "resolver(bytes32)" ;
  throwing data <- Abi_tryEncode signature namehash ;
  throwing fetched <- fetch (eth_call registry data) ;
  match fetched with
  | Fail e => Ok (FailAs (NodeError e))
  | Data inner =>
      throwing address <- Abi_tryDecode_address inner ;
      Ok (DataAs address)
  end.

(** [BgEns.Lookup.tryFetch]. *)
Definition Lookup_tryFetch (name : string)
  : Result (FetchedAs string Json) Exn :=
  throwing namehash <- Ens_tryNamehash name ;
  throwing resolver <- Resolver_tryFetch namehash ;
  match resolver with
  | FailAs e => Ok (FailAs e)
  | DataAs resolver_inner =>
      throwing signature <- FunctionSignature_tryParse "addr(bytes32)" ;
      throwing data <- Abi_tryEncode signature namehash ;
      throwing fetched <- fetch (eth_call resolver_inner data) ;
      match fetched with
      | Fail e => Ok (FailAs (NodeError e))
      | Data inner =>
          throwing address <- Abi_tryDecode_address inner ;
          Ok (DataAs address)
      end
  end.

(** [BgEns.Reverse.tryFetchUnchecked]: the name recorded for an
    address, [undefined] when the record is empty. *)
Definition Reverse_tryFetchUnchecked (address : string)
  : Result (FetchedAs (option string) Json) Exn :=
  throwing namehash <- Ens_tryNamehash (slice2 address +:+ ".addr.reverse") ;
  throwing resolver <- Resolver_tryFetch namehash ;
  match resolver with
  | FailAs e => Ok (FailAs e)
  | DataAs resolver_inner =>
      throwing signature <- FunctionSignature_tryParse "name(bytes32)" ;
      throwing data <- Abi_tryEncode signature namehash ;
      throwing fetched <- fetch (eth_call resolver_inner data) ;
      match fetched with
      | Fail e => Ok (FailAs (NodeError e))
      | Data inner =>
          throwing name <- Abi_tryDecode_string inner ;
          if decide (String.length name = 0) then Ok (DataAs None)
          else Ok (DataAs (Some name))
      end
  end.

(** [BgEns.Reverse.tryFetch]: the recorded name, kept only when the
    name resolves back to the address. *)
Definition Reverse_tryFetch (address : string)
  : Result (FetchedAs (option string) Json) Exn :=
  throwing name <- Reverse_tryFetchUnchecked address ;
  match name with
  | FailAs e => Ok (FailAs e)
  | DataAs None => Ok (DataAs None)
  | DataAs (Some name_inner) =>
      throwing address2 <- Lookup_tryFetch name_inner ;
      match address2 with
      | FailAs e => Ok (FailAs e)
      | DataAs address2_inner =>
          if decide (toLowerCase address ≠ toLowerCase address2_inner)
          then Ok (FailAs (LocalError (Error "Invalid address")))
          else Ok (DataAs (Some name_inner))
      end
  end.

End Resolution.

(** [tryEthereumFetch] of data.ts as the [fetch] of the resolution:
    its promise is always fulfilled with a [Result]. *)
Definition fetch_with {Json} `{Stringify Json} (rpc : TorRpc Json)
    (ethereum : ServiceWorker.EthereumContext)
    (init : RpcRequestPreinit Json) : Result (Fetched Json) Exn :=
  match (ServiceWorker.tryEthereumFetch rpc init ethereum).2 with
  | Fulfilled r => r
  | Rejected e => Err e
  end.

End BgEns.

(** ** The fetch over sessions (third part of content_script/index.ts) *)

Module Sessions.

Section Fetch.

Context {Json : Type}.

(** A session's sockets, by chain. *)
Record Brume : Type := { chains : gmap nat WebSocket }.

(** [ethereum.brumes.inner.tryGet(i)], [EthereumSocket.request] and
    [FetchError.from] are not among the sources and are taken as
    given, as is the [max] that [tryLoop] uses when it is given no
    options. *)
Variable brumes_tryGet : nat → Result Brume Exn.
Variable EthereumSocket_request :
  WebSocket → RpcRequestPreinit Json → Result (RpcResponse Json) Exn.
Variable FetchError_from : Exn → Exn.
Variable max : nat.

(** The block given to [Result.unthrow] in the looper: what attempt
    [i] gives. *)
Definition attempt (chainId : nat) (request : RpcRequestPreinit Json) (i : nat)
  : Result (Fetched Json) (ContentScript.Looped Exn) :=
  match ContentScript.mapErrSync ContentScript.Retry (brumes_tryGet i) with
  | Err e => Err e
  | Ok brume =>
      match ContentScript.mapErrSync ContentScript.Cancel
              (Option_ok (chains brume !! chainId)) with
      | Err e => Err e
      | Ok socket =>
          match ContentScript.mapErrSync ContentScript.Retry
                  (EthereumSocket_request socket request) with
          | Err e => Err e
          | Ok response => Ok (Fetched_rewrap response)
          end
      end
  end.

(** [tryFetch]. *)
Definition tryFetch (chainId : nat) (request : RpcRequestPreinit Json)
  : ContentScript.Loop (Result (Fetched Json) Exn) :=
  λ h,
    let '(r, h') :=
      ContentScript.tryLoop
        (λ i, ContentScript.Loop_return (attempt chainId request i)) max h in
    (ContentScript.mapErrSync FetchError_from <$> r, h').

End Fetch.

End Sessions.

(** ** What a page says of itself (getOrigin of content_script/index.ts) *)

Module Origin.

(** The elements of the document that the function reads, in document
    order; the document is taken not to change during the call. *)
Record HTMLMetaElement : Type := { meta_name : string; meta_content : string }.

Record HTMLLinkElement : Type := { rel : string; href : string }.

(** A title is the text of the document or of a [meta], or whatever
    value a manifest holds. *)
Inductive Title (Json : Type) : Type :=
| Text (text : string)
| Value (value : Json).
Arguments Text {Json} text.
Arguments Value {Json} value.

Record PreOriginData (Json : Type) : Type := {
  origin : string;
  title : Title Json;
  icon : option string;
  description : option Json
}.
Arguments origin {Json} p.
Arguments title {Json} p.
Arguments icon {Json} p.
Arguments description {Json} p.

(** What is asked of the network. *)
Inductive Request : Type :=
| AsBlob (href : string)
| AsJson (href : string).

Definition with_title {Json} (t : Title Json) (o : PreOriginData Json)
  : PreOriginData Json :=
  {| origin := origin o; title := t; icon := icon o;
     description := description o |}.

Definition with_icon {Json} (data : string) (o : PreOriginData Json)
  : PreOriginData Json :=
  {| origin := origin o; title := title o; icon := Some data;
     description := description o |}.

Definition with_description {Json} (d : Json) (o : PreOriginData Json)
  : PreOriginData Json :=
  {| origin := origin o; title := title o; icon := icon o;
     description := Some d |}.

(** [["icon", "shortcut icon", "icon shortcut"].includes(link.rel)]. *)
Definition is_icon (link : HTMLLinkElement) : bool :=
  bool_decide (rel link ∈ ["icon"; "shortcut icon"; "icon shortcut"]).

(** [!origin.icon]: no icon, or an empty one. *)
Definition no_icon {Json} (o : PreOriginData Json) : bool :=
  match icon o with
  | None => true
  | Some data => bool_decide (data = "")
  end.

Section GetOrigin.

Context {Json Blob : Type}.

(** [tryFetchAsBlob] and [tryFetchAsJson] of [@/libs/fetch/fetch] are
    not among the sources, and [Blobs.tryReadAsDataUrl] waits for a
    [FileReader]: the three are taken as given.  So are the values of
    a manifest: [property manifest name] is [manifest[name]], [None]
    when the manifest is [null] or [undefined] and the access throws a
    [TypeError]; [truthy] is the test that [if] makes. *)
Variable tryFetchAsBlob : string → Result Blob Exn.
Variable tryFetchAsJson : string → Result Json Exn.
Variable Blobs_tryReadAsDataUrl : Blob → Result string Exn.
Variable property : Json → string → option Json.
Variable truthy : Json → bool.

(** The first loop (lines 59-64). *)
Fixpoint metas_loop (metas : list HTMLMetaElement) (o : PreOriginData Json)
  : PreOriginData Json :=
  match metas with
  | [] => o
  | meta :: rest =>
      if decide (meta_name meta = "application-name")
      then metas_loop rest (with_title (Text (meta_content meta)) o)
      else metas_loop rest o
  end.

(** The three tests on a manifest (lines 88-93). *)
Definition read_manifest (manifest : Json) (o : PreOriginData Json)
  : Settled (PreOriginData Json) :=
  match property manifest "name" with
  | None => Rejected TypeError
  | Some name =>
      let o := if truthy name then with_title (Value name) o else o in
      match property manifest "short_name" with
      | None => Rejected TypeError
      | Some short_name =>
          let o :=
            if truthy short_name then with_title (Value short_name) o else o in
          match property manifest "description" with
          | None => Rejected TypeError
          | Some description =>
              Fulfilled (if truthy description
                         then with_description description o else o)
          end
      end
  end.

(** The second loop (lines 66-96), with the requests it makes. *)
Fixpoint links_loop (links : list HTMLLinkElement) (o : PreOriginData Json)
  : list Request * Settled (PreOriginData Json) :=
  match links with
  | [] => ([], Fulfilled o)
  | link :: rest =>
      if is_icon link then
        match tryFetchAsBlob (href link) with
        | Err _ =>
            let '(requests, r) := links_loop rest o in
            (AsBlob (href link) :: requests, r)
        | Ok blob =>
            match Blobs_tryReadAsDataUrl blob with
            | Err _ =>
                let '(requests, r) := links_loop rest o in
                (AsBlob (href link) :: requests, r)
            | Ok data =>
                let '(requests, r) := links_loop rest (with_icon data o) in
                (AsBlob (href link) :: requests, r)
            end
        end
      else if decide (rel link = "manifest") then
        match tryFetchAsJson (href link) with
        | Err _ =>
            let '(requests, r) := links_loop rest o in
            (AsJson (href link) :: requests, r)
        | Ok manifest =>
            match read_manifest manifest o with
            | Rejected e => ([AsJson (href link)], Rejected e)
            | Fulfilled o =>
                let '(requests, r) := links_loop rest o in
                (AsJson (href link) :: requests, r)
            end
        end
      else links_loop rest o
  end.

(** The block that tries [/favicon.ico] (lines 98-112). *)
Definition favicon (o : PreOriginData Json) : PreOriginData Json :=
  match tryFetchAsBlob "/favicon.ico" with
  | Err _ => o
  | Ok blob =>
      match Blobs_tryReadAsDataUrl blob with
      | Err _ => o
      | Ok data => with_icon data o
      end
  end.

(** [getOrigin], from [location.origin], [document.title] and the
    [meta] and [link] elements of the document. *)
Definition getOrigin (location_origin document_title : string)
    (metas : list HTMLMetaElement) (links : list HTMLLinkElement)
  : list Request * Settled (PreOriginData Json) :=
  let o := {| origin := location_origin; title := Text document_title;
              icon := None; description := None |} in
  let o := metas_loop metas o in
  match links_loop links o with
  | (requests, Rejected e) => (requests, Rejected e)
  | (requests, Fulfilled o) =>
      if no_icon o
      then (requests ++ [AsBlob "/favicon.ico"], Fulfilled (favicon o))
      else (requests, Fulfilled o)
  end.

(** The icon of a link, when its rel is one of an icon and it could be
    fetched and read. *)
Definition loaded_icon (link : HTMLLinkElement) : option string :=
  if is_icon link then
    match tryFetchAsBlob (href link) with
    | Err _ => None
    | Ok blob =>
        match Blobs_tryReadAsDataUrl blob with
        | Err _ => None
        | Ok data => Some data
        end
    end
  else None.

(** The request that a link makes, if any. *)
Definition request_of (link : HTMLLinkElement) : option Request :=
  if is_icon link then Some (AsBlob (href link))
  else if decide (rel link = "manifest") then Some (AsJson (href link))
  else None.

(** The titles that a link proposes: the truthy [name], then the
    truthy [short_name], of a manifest that could be fetched. *)
Definition titles_of (link : HTMLLinkElement) : list (Title Json) :=
  if is_icon link then []
  else if decide (rel link = "manifest") then
    match tryFetchAsJson (href link) with
    | Err _ => []
    | Ok manifest =>
        match property manifest "name", property manifest "short_name" with
        | Some name, Some short_name =>
            (if truthy name then [Value name] else [])
            ++ (if truthy short_name then [Value short_name] else [])
        | _, _ => []
        end
    end
  else [].

(** A link to a manifest that could be fetched and is [null] or
    [undefined]: reading a property of it throws. *)
Definition null_manifest (link : HTMLLinkElement) : Prop :=
  rel link = "manifest"
  ∧ ∃ manifest,
      tryFetchAsJson (href link) = Ok manifest
      ∧ (property manifest "name" = None
         ∨ property manifest "short_name" = None
         ∨ property manifest "description" = None).

(** The titles that the [meta] elements propose. *)
Definition meta_titles (metas : list HTMLMetaElement) : list (Title Json) :=
  (λ meta, Text (meta_content meta))
    <$> filter (λ meta, meta_name meta = "application-name") metas.

End GetOrigin.

End Origin.

(** ** A worked scenario: two circuits of two connections *)

Module Scenario.

(** Values given by their JSON text: the serialisation of a value is
    its text. *)
#[global] Instance Stringify_text : Stringify string := λ text, text.

(** A pool whose slots all hold a created item. *)
Definition Pool_of_list {A} (items : list A) : Pool A :=
  {| capacity := length items;
     tryGet index :=
       match items !! index with
       | Some item => Ok (Ok item)
       | None => Err (Error "empty slot")
       end;
     tryGetCryptoRandom word :=
       match items !! (word `mod` length items) with
       | Some item => Ok item
       | None => Err (Error "empty pool")
       end |}.

Definition P1 : string := "0x1".
Definition P2 : string := "0x2".

Definition conn_at (url : string) : RpcConnection :=
  {| counter := 0;
     connection := URLConnection url {| circuit_id := url |} |}.

(** The nodes behind a0, a1 and b0 answer [P1], the node behind b1
    answers [P2]; any other exchange fails. *)
Definition rpc : TorRpc string :=
  {| tryFetchWithCircuit url circuit request :=
       if decide (url = "b1") then Ok (RpcOk P2)
       else if decide (url ∈ ["a0"; "a1"; "b0"]) then Ok (RpcOk P1)
       else Err (Error "unreachable");
     tryFetchWithSocket socket request := Err (Error "unreachable") |}.

Definition init : RpcRequestPreinit string :=
  {| method := "eth_getBalance"; params := [] |}.

Definition circuit_A : Pool RpcConnection :=
  Pool_of_list [conn_at "a0"; conn_at "a1"].

Definition circuit_B : Pool RpcConnection :=
  Pool_of_list [conn_at "b0"; conn_at "b1"].

Definition ethereum : ServiceWorker.EthereumContext :=
  {| ServiceWorker.chain := {| chainId := 1 |};
     ServiceWorker.brume := {[ 1 := Pool_of_list [circuit_A; circuit_B] ]} |}.

(** The same circuits as objects, for the retry loop. *)
Definition ref_conn (a : positive) (url : string)
  : ContentScript.Ref RpcConnection :=
  {| ContentScript.addr := a; ContentScript.deref := conn_at url |}.

Definition ref_circuit (a : positive)
    (conns : list (ContentScript.Ref RpcConnection))
  : ContentScript.Ref (Pool (ContentScript.Ref RpcConnection)) :=
  {| ContentScript.addr := a; ContentScript.deref := Pool_of_list conns |}.

Definition ethereum_refs : ContentScript.EthereumContext :=
  {| ContentScript.chain := {| chainId := 1 |};
     ContentScript.brume :=
       {[ 1 := Pool_of_list
                 [ref_circuit 10 [ref_conn 11 "x0"; ref_conn 12 "x1"];
                  ref_circuit 20 [ref_conn 21 "a0"; ref_conn 22 "x2"]] ]} |}.

End Scenario.

(** ** Worked examples for the other modules *)

Module Examples.

(** *** A Ledger device *)

(** The bytes of the path 44'/60'/0'/0/0: the number of its elements,
    then four bytes for each. *)
Definition path_bytes : list Z :=
  (5 :: [128; 0; 0; 44] ++ [128; 0; 0; 60] ++ [128; 0; 0; 0]
     ++ [0; 0; 0; 0] ++ [0; 0; 0; 0])%Z.

Definition Paths_from (path : string) : Result (list Z) Exn := Ok path_bytes.

Definition Bytes_toAscii (bytes : list Z) : string :=
  String.string_of_list_ascii ((λ b, Ascii.ascii_of_nat (Z.to_nat b)) <$> bytes).

(** The device answers a key of two bytes, an address of three and a
    chain code to the address request, and a signature to any other. *)
Definition public_key : list Z := [7; 8]%Z.
Definition address_bytes : list Z := [97; 98; 99]%Z.
Definition chain_code : list Z := replicate 32 9%Z.
Definition signature_r : list Z := replicate 32 1%Z.
Definition signature_s : list Z := replicate 32 2%Z.

Definition device (sent : list Ledger.Apdu) (request : Ledger.Apdu)
  : Result (list Z) Exn :=
  if decide (Ledger.ins request = 0x02)%Z
  then Ok ((2 :: public_key) ++ (3 :: address_bytes) ++ chain_code)%Z
  else Ok (28 :: signature_r ++ signature_s)%Z.

(** A message of 200 bytes, sent in two commands. *)
Definition message : list Z := replicate 200 65%Z.

(** A replay-protected transaction of 300 bytes whose unprotected part
    takes 270: the second command would end inside the marker and is
    extended to the end. *)
Definition transaction : list Z := replicate 300 0xf8%Z.

Definition Rlp_read (bytes : list Z) : Result Ledger.RlpPrimitive Exn :=
  Ok (Ledger.RlpArray (replicate 9 (Ledger.RlpBytes []))).

Definition Rlp_write (item : Ledger.RlpPrimitive) : list Z :=
  replicate 270 0xf8%Z.

Definition transaction_first : Ledger.Apdu :=
  {| Ledger.cla := 0xe0; Ledger.ins := 0x04; Ledger.p1 := 0x00;
     Ledger.p2 := 0x00;
     Ledger.fragment := path_bytes ++ replicate 129 0xf8%Z |}.

Definition transaction_second : Ledger.Apdu :=
  {| Ledger.cla := 0xe0; Ledger.ins := 0x04; Ledger.p1 := 0x80;
     Ledger.p2 := 0x00;
     Ledger.fragment := replicate 171 0xf8%Z |}.

(** *** Directories *)

(** Nodes of which two only answer, with the same value. *)
Definition rpc_flaky : TorRpc string :=
  {| tryFetchWithCircuit url circuit request :=
       if decide (url ∈ ["a0"; "b1"]) then Ok (RpcOk Scenario.P1)
       else Err (Error "unreachable");
     tryFetchWithSocket socket request := Err (Error "unreachable") |}.

(** A directory of two circuits whose pools are empty. *)
Definition ethereum_empty : ServiceWorker.EthereumContext :=
  {| ServiceWorker.chain := {| chainId := 1 |};
     ServiceWorker.brume :=
       {[ 1 := Scenario.Pool_of_list
                 [Scenario.Pool_of_list []; Scenario.Pool_of_list []] ]} |}.

(** A circuit of capacity two of which one connection only is
    created: every draw gives that connection, whose node is
    unreachable. *)
Definition lone_conn : ContentScript.Ref RpcConnection :=
  Scenario.ref_conn 31 "x0".

Definition half_open : ContentScript.Ref (Pool (ContentScript.Ref RpcConnection)) :=
  {| ContentScript.addr := 30;
     ContentScript.deref :=
       {| capacity := 2;
          tryGet index :=
            match index with
            | 0 => Ok (Ok lone_conn)
            | _ => Err (Error "empty slot")
            end;
          tryGetCryptoRandom word := Ok lone_conn |} |}.

Definition directory_half_open
  : Pool (ContentScript.Ref (Pool (ContentScript.Ref RpcConnection))) :=
  {| capacity := 1;
     tryGet index :=
       match index with
       | 0 => Ok (Ok half_open)
       | _ => Err (Error "empty slot")
       end;
     tryGetCryptoRandom word := Ok half_open |}.

Definition ethereum_half_open : ContentScript.EthereumContext :=
  {| ContentScript.chain := {| chainId := 1 |};
     ContentScript.brume := {[ 1 := directory_half_open ]} |}.

(** *** Names *)

(** A name service over texts: a hash is the code units of the name, a
    call is the signature and the hashed name, and values decode to
    themselves.  Letter case is that of the 26 letters. *)
Definition lower (c : Ascii.ascii) : Ascii.ascii :=
  let n := Ascii.nat_of_ascii c in
  if bool_decide (65 ≤ n ≤ 90) then Ascii.ascii_of_nat (n + 32) else c.

#[global] Instance Cubane_text : BgEns.Cubane string :=
  {| BgEns.Ens_tryNamehash name :=
       Ok ((λ c, Z.of_nat (Ascii.nat_of_ascii c)) <$> String.list_ascii_of_string name);
     BgEns.FunctionSignature_tryParse text := Ok text;
     BgEns.Abi_tryEncode signature namehash :=
       Ok (signature +:+ "/" +:+ Bytes_toAscii namehash);
     BgEns.Abi_tryDecode_address value := Ok value;
     BgEns.Abi_tryDecode_string value := Ok value;
     BgEns.call_object to data := data +:+ "@" +:+ to;
     BgEns.Json_string text := text;
     BgEns.toLowerCase text :=
       String.string_of_list_ascii (lower <$> String.list_ascii_of_string text) |}.

(** What the nodes hold: a resolver for the name and for the reverse
    name of the address, the address of the name, and the name of the
    address. *)
Definition records : list (string * string) :=
  [ ("resolver(bytes32)/alice.eth@" +:+ BgEns.registry, "0xResolver");
    ("resolver(bytes32)/AbC.addr.reverse@" +:+ BgEns.registry, "0xResolver");
    ("addr(bytes32)/alice.eth@0xResolver", "0xabc");
    ("name(bytes32)/AbC.addr.reverse@0xResolver", "alice.eth") ]%string.

Fixpoint record_of (call : string) (table : list (string * string))
  : option string :=
  match table with
  | [] => None
  | (key, value) :: rest =>
      if decide (key = call) then Some value else record_of call rest
  end.

(** Every node answers a call from the records. *)
Definition rpc_names : TorRpc string :=
  {| tryFetchWithCircuit url circuit request :=
       match params (request_init request) with
       | call :: _ =>
           match record_of call records with
           | Some value => Ok (RpcOk value)
           | None => Ok (RpcErr "execution reverted")
           end
       | [] => Err (Error "unreachable")
       end;
     tryFetchWithSocket socket request := Err (Error "unreachable") |}.

(** *** Sessions *)

(** The first session cannot be got, the second one has a socket for
    chain 1 only, whose node answers. *)
Definition session : Sessions.Brume :=
  {| Sessions.chains := {[ 1 := {| socket_url := "wss://node" |} ]} |}.

Definition brumes_tryGet (index : nat) : Result Sessions.Brume Exn :=
  match index with
  | 0 => Err (Error "no session")
  | _ => Ok session
  end.

Definition EthereumSocket_request (socket : WebSocket)
    (request : RpcRequestPreinit string) : Result (RpcResponse string) Exn :=
  Ok (RpcOk "0x10").

(** No session at all. *)
Definition no_session (index : nat) : Result Sessions.Brume Exn :=
  Err (Error "no session").

Definition FetchError_from (e : Exn) : Exn := e.

(** *** A page *)

(** The values of a manifest: the fields of an object are texts. *)
Inductive Js : Type :=
| JsNull
| JsUndefined
| JsText (text : string)
| JsObject (fields : list (string * string)).

Definition property (value : Js) (name : string) : option Js :=
  match value with
  | JsNull | JsUndefined => None
  | JsText _ => Some JsUndefined
  | JsObject fields =>
      Some match record_of name fields with
           | Some text => JsText text
           | None => JsUndefined
           end
  end.

Definition truthy (value : Js) : bool :=
  match value with
  | JsNull | JsUndefined => false
  | JsText text => bool_decide (text ≠ "")
  | JsObject _ => true
  end.

(** The site serves one icon and two manifests, one of which is the
    text [null]; a blob is read as its content behind a prefix. *)
Definition tryFetchAsBlob (href : string) : Result string Exn :=
  if decide (href = "/icon.png") then Ok "png"%string
  else Err (Error "404").

Definition Blobs_tryReadAsDataUrl (blob : string) : Result string Exn :=
  Ok ("data:" +:+ blob).

Definition tryFetchAsJson (href : string) : Result Js Exn :=
  if decide (href = "/manifest.json")
  then Ok (JsObject [("name", "My Application"); ("short_name", "App")]%string)
  else if decide (href = "/null.json") then Ok JsNull
  else Err (Error "404").

Definition metas : list Origin.HTMLMetaElement :=
  [ {| Origin.meta_name := "viewport"; Origin.meta_content := "width=400" |};
    {| Origin.meta_name := "application-name";
       Origin.meta_content := "Meta" |} ].

Definition links : list Origin.HTMLLinkElement :=
  [ {| Origin.rel := "icon"; Origin.href := "/icon.png" |};
    {| Origin.rel := "stylesheet"; Origin.href := "/style.css" |};
    {| Origin.rel := "manifest"; Origin.href := "/manifest.json" |};
    {| Origin.rel := "shortcut icon"; Origin.href := "/missing.png" |} ].

Definition page_requests : list Origin.Request :=
  [ Origin.AsBlob "/icon.png"; Origin.AsJson "/manifest.json";
    Origin.AsBlob "/missing.png" ].

Definition page_origin : Origin.PreOriginData Js :=
  {| Origin.origin := "https://app.example";
     Origin.title := Origin.Value (JsText "App");
     Origin.icon := Some "data:png"%string;
     Origin.description := None |}.

Definition links_null : list Origin.HTMLLinkElement :=
  [ {| Origin.rel := "manifest"; Origin.href := "/missing.json" |};
    {| Origin.rel := "manifest"; Origin.href := "/null.json" |} ].

End Examples.

(** * Properties *)

(** ** Maps *)

Lemma JsMap_get_set_eq {V} (m : JsMap.t V) k v :
  JsMap.get (JsMap.set m k v) k = Some v.
Proof.
  induction m as [|[k' v'] m IH]; simpl.
  - by rewrite decide_True.
  - destruct (decide (k = k')) as [->|Hne]; simpl.
    + by rewrite decide_True.
    + by rewrite decide_False.
Qed.

Lemma JsMap_get_set_ne {V} (m : JsMap.t V) k k' v :
  k ≠ k' → JsMap.get (JsMap.set m k v) k' = JsMap.get m k'.
Proof.
  intros Hne. induction m as [|[k0 v0] m IH]; simpl.
  - rewrite decide_False; [done | congruence].
  - destruct (decide (k = k0)) as [->|Hne0]; simpl.
    + rewrite !decide_False; [done | congruence | congruence].
    + destruct (decide (k' = k0)); [done | apply IH].
Qed.

Lemma JsMap_keys_set {V} (m : JsMap.t V) k v :
  (JsMap.set m k v).*1 = m.*1 ∨
  ((k ∉ m.*1) ∧ (JsMap.set m k v).*1 = m.*1 ++ [k]).
Proof.
  induction m as [|[k0 v0] m IH]; csimpl.
  - right. split; [apply not_elem_of_nil | done].
  - destruct (decide (k = k0)) as [->|Hne]; csimpl; [by left|].
    destruct IH as [->|[Hnot ->]]; [by left|].
    right. split; [|done]. rewrite elem_of_cons. tauto.
Qed.

Lemma JsMap_NoDup_set {V} (m : JsMap.t V) k v :
  NoDup m.*1 → NoDup (JsMap.set m k v).*1.
Proof.
  intros Hnd. destruct (JsMap_keys_set m k v) as [->|[Hnot ->]]; [done|].
  apply NoDup_app. split_and!; [done | | apply NoDup_singleton].
  intros x Hx Hx'. apply list_elem_of_singleton in Hx'. by subst.
Qed.

Lemma JsMap_elem_of_get {V} (m : JsMap.t V) k v :
  NoDup m.*1 → (k, v) ∈ m ↔ JsMap.get m k = Some v.
Proof.
  induction m as [|[k0 v0] m IH]; csimpl; intros Hnd.
  - split; [by intros ?%elem_of_nil | done].
  - apply NoDup_cons in Hnd as [Hnot Hnd]. rewrite elem_of_cons.
    destruct (decide (k = k0)) as [->|Hne].
    + split.
      * intros [[= ->]|Hin]; [done|].
        exfalso. apply Hnot. apply list_elem_of_fmap. by exists (k0, v).
      * intros [= ->]. by left.
    + rewrite <- IH by done. split; [|by right].
      intros [[= -> _]|Hin]; [done | done].
Qed.

(** ** The tally *)

Section ConsensusFacts.

Context {Json : Type} `{Stringify Json}.

Lemma tally_snoc results r :
  tally (results ++ [r]) = tally_step (tally results) r.
Proof. unfold tally. by rewrite foldl_app. Qed.

Lemma votes_app k rs1 rs2 :
  votes k (rs1 ++ rs2) = votes k rs1 + votes k rs2.
Proof.
  induction rs1 as [|[v|e] rs1 IH]; simpl; [done | | done].
  rewrite IH. lia.
Qed.

Lemma fulfilleds_app {A} (rs1 rs2 : list (Settled A)) :
  fulfilleds (rs1 ++ rs2) = fulfilleds rs1 ++ fulfilleds rs2.
Proof.
  induction rs1 as [|[v|e] rs1 IH]; simpl; [done | | done].
  by rewrite IH.
Qed.

Lemma votes_filter k results :
  votes k results =
  length (filter (λ f, raw_of f = k) (fulfilleds results)).
Proof.
  induction results as [|[v|e] rs IH]; simpl; [done | | done].
  rewrite filter_cons. destruct (decide (raw_of v = k)); simpl; by rewrite IH.
Qed.

Lemma votes_pos k results :
  0 < votes k results ↔ ∃ f, f ∈ fulfilleds results ∧ raw_of f = k.
Proof.
  rewrite votes_filter. split.
  - intros Hlen.
    destruct (filter (λ f, raw_of f = k) (fulfilleds results)) as [|f l] eqn:E;
      [simpl in Hlen; lia|].
    exists f.
    assert (f ∈ filter (λ f, raw_of f = k) (fulfilleds results)) as Hf
      by (rewrite E; by left).
    apply list_elem_of_filter in Hf. tauto.
  - intros (f & Hin & Hraw).
    assert (f ∈ filter (λ f, raw_of f = k) (fulfilleds results)) as Hf
      by (by apply list_elem_of_filter).
    destruct (filter (λ f, raw_of f = k) (fulfilleds results));
      [by apply elem_of_nil in Hf | simpl; lia].
Qed.

(** After the loop, [counters] holds for every serialisation the
    number of fulfilled results that have it, and no entry for the
    others. *)
Lemma tally_counters results k :
  JsMap.get (counters (tally results)) k =
  if decide (votes k results = 0) then None else Some (votes k results).
Proof.
  induction results as [|r results IH] using rev_ind; [done|].
  rewrite tally_snoc, votes_app. destruct r as [v|e]; simpl.
  - destruct (decide (raw_of v = k)) as [<-|Hne].
    + rewrite JsMap_get_set_eq, IH.
      destruct (decide (votes (raw_of v) results = 0)) as [E|E]; simpl;
        rewrite decide_False by lia; f_equal; lia.
    + rewrite JsMap_get_set_ne by done. rewrite IH.
      by rewrite !Nat.add_0_r.
  - rewrite IH. by rewrite Nat.add_0_r.
Qed.

(** [fetcheds] holds for every serialisation the last fulfilled result
    that has it. *)
Lemma tally_fetcheds results k :
  JsMap.get (fetcheds (tally results)) k =
  last (filter (λ f, raw_of f = k) (fulfilleds results)).
Proof.
  induction results as [|r results IH] using rev_ind; [done|].
  rewrite tally_snoc, fulfilleds_app, filter_app. destruct r as [v|e]; simpl.
  - rewrite filter_cons, filter_nil.
    destruct (decide (raw_of v = k)) as [<-|Hne].
    + by rewrite JsMap_get_set_eq, last_snoc.
    + rewrite JsMap_get_set_ne by done. by rewrite app_nil_r.
  - by rewrite filter_nil, app_nil_r.
Qed.

Lemma tally_NoDup results : NoDup (counters (tally results)).*1.
Proof.
  induction results as [|r results IH] using rev_ind; [apply NoDup_nil_2|].
  rewrite tally_snoc. destruct r as [v|e]; simpl; [|done].
  by apply JsMap_NoDup_set.
Qed.

End ConsensusFacts.

(** ** The sort *)

Lemma sort_insert_perm {A} (cmp : A → A → Z) x l :
  sort_insert cmp x l ≡ₚ x :: l.
Proof.
  induction l as [|y l IH]; simpl; [done|].
  destruct (decide (cmp x y ≤ 0)%Z); [done|].
  rewrite IH. apply perm_swap.
Qed.

Lemma Array_sort_perm {A} (cmp : A → A → Z) l : Array_sort cmp l ≡ₚ l.
Proof.
  induction l as [|x l IH]; simpl; [done|].
  rewrite sort_insert_perm. by rewrite IH.
Qed.

Lemma sort_insert_sorted x l :
  StronglySorted (λ a b, value b ≤ value a) l →
  StronglySorted (λ a b, value b ≤ value a) (sort_insert by_occurence x l).
Proof.
  induction 1 as [|y l Hsorted IH Hall]; simpl.
  - repeat constructor.
  - unfold by_occurence at 1.
    destruct (decide (Z.of_nat (value y) - Z.of_nat (value x) ≤ 0)%Z) as [Hle|Hgt].
    + constructor; [by constructor|].
      constructor; [lia|].
      eapply Forall_impl; [exact Hall|]. simpl. intros z Hz. lia.
    + constructor; [done|].
      rewrite sort_insert_perm. constructor; [lia | done].
Qed.

Lemma Array_sort_sorted l :
  StronglySorted (λ a b, value b ≤ value a) (Array_sort by_occurence l).
Proof.
  induction l as [|x l IH]; simpl; [constructor|].
  by apply sort_insert_sorted.
Qed.

Lemma first_fulfilled_head {A} (results : list (Settled A)) :
  first_fulfilled results = head (fulfilleds results).
Proof. induction results as [|[v|e] rs IH]; simpl; done. Qed.

Lemma fulfilleds_elem_of {A} (results : list (Settled A)) v :
  v ∈ fulfilleds results ↔ Fulfilled v ∈ results.
Proof.
  induction results as [|[w|e] rs IH]; simpl.
  - split; intros ?%elem_of_nil; done.
  - rewrite !elem_of_cons, IH. split; intros [?|?]; simplify_eq; auto.
  - rewrite elem_of_cons, IH. split; [auto|]. intros [?|?]; [done|auto].
Qed.

(** ** The vote, by cases *)

Section ConsensusCases.

Context {Json : Type} `{Stringify Json}.

Lemma entries_elem_of (results : list (Settled (Fetched Json))) e :
  e ∈ Maps_entries (counters (tally results)) ↔
  value e = votes (key e) results ∧ 0 < value e.
Proof.
  unfold Maps_entries. rewrite list_elem_of_fmap. split.
  - intros ([k v] & -> & Hin). simpl.
    apply JsMap_elem_of_get in Hin; [|apply tally_NoDup].
    rewrite tally_counters in Hin. case_decide; simplify_eq. lia.
  - intros [Hv Hpos]. exists (key e, value e). split; [by destruct e|].
    apply JsMap_elem_of_get; [apply tally_NoDup|].
    rewrite tally_counters. rewrite decide_False by lia. by rewrite Hv.
Qed.

Lemma entries_keys (results : list (Settled (Fetched Json))) :
  key <$> Maps_entries (counters (tally results)) =
  (counters (tally results)).*1.
Proof.
  unfold Maps_entries. rewrite <- list_fmap_compose. done.
Qed.

Lemma counters_small (results : list (Settled (Fetched Json))) k1 k2 :
  JsMap.size (counters (tally results)) < 2 →
  0 < votes k1 results → 0 < votes k2 results → k1 = k2.
Proof.
  intros Hsize H1 H2.
  assert ({| key := k1; value := votes k1 results |}
            ∈ Maps_entries (counters (tally results))) as Hin1
    by (by apply entries_elem_of).
  assert ({| key := k2; value := votes k2 results |}
            ∈ Maps_entries (counters (tally results))) as Hin2
    by (by apply entries_elem_of).
  unfold JsMap.size, Maps_entries in *.
  destruct (counters (tally results)) as [|kv [|kv' m]]; simpl in *.
  - by apply elem_of_nil in Hin1.
  - apply list_elem_of_singleton in Hin1, Hin2. congruence.
  - lia.
Qed.

(** The three ways a round ends, each with what it says about the
    votes: nothing fulfilled; a value accepted, whose serialisation has
    strictly more votes than any other; or a tie at the top. *)
Lemma consensus_cases (results : list (Settled (Fetched Json))) :
  (fulfilleds results = [] ∧
   consensus results = Rejected (AggregateError (reasons results)))
  ∨ (∃ f, consensus results = Fulfilled f ∧ f ∈ fulfilleds results ∧
          ∀ k, k ≠ raw_of f → votes k results < votes (raw_of f) results)
  ∨ (∃ k1 k2, k1 ≠ k2 ∧ 0 < votes k1 results ∧
              votes k1 results = votes k2 results ∧
              (∀ k, votes k results ≤ votes k1 results) ∧
              consensus results = Rejected could_not_choose_truth).
Proof.
  unfold consensus.
  destruct (decide (JsMap.size (counters (tally results)) < 2)) as [Hsize|Hsize].
  - unfold Promise_any. rewrite first_fulfilled_head.
    destruct (fulfilleds results) as [|f fs] eqn:Hfs; simpl; [by left|].
    right; left. exists f. split_and!; [done | by left |].
    assert (0 < votes (raw_of f) results) as Hpos.
    { apply votes_pos. exists f. rewrite Hfs. split; [by left | done]. }
    intros k Hne. destruct (decide (votes k results = 0)) as [->|Hk]; [done|].
    exfalso. apply Hne.
    apply (counters_small results); [done | lia | done].
  - pose proof (Array_sort_perm by_occurence
                  (Maps_entries (counters (tally results)))) as Hperm.
    pose proof (Array_sort_sorted
                  (Maps_entries (counters (tally results)))) as Hsorted.
    assert (NoDup (key <$> Array_sort by_occurence
                     (Maps_entries (counters (tally results))))) as Hnd.
    { rewrite Hperm, entries_keys. apply tally_NoDup. }
    assert (∀ e, e ∈ Array_sort by_occurence
                   (Maps_entries (counters (tally results))) ↔
                 value e = votes (key e) results ∧ 0 < value e) as Hin.
    { intros e. rewrite Hperm. apply entries_elem_of. }
    apply Permutation_length in Hperm.
    remember (Array_sort by_occurence (Maps_entries (counters (tally results))))
      as sorteds eqn:Hs. clear Hs.
    unfold Maps_entries in Hperm. rewrite length_fmap in Hperm.
    unfold JsMap.size in Hsize.
    destruct sorteds as [|s0 [|s1 rest]]; simpl in Hperm; [lia | lia |].
    simpl.
    apply StronglySorted_inv in Hsorted as [Hsorted Hall0].
    apply StronglySorted_inv in Hsorted as [_ Hall1].
    apply Forall_cons in Hall0 as [H10 Hall0].
    rewrite !fmap_cons in Hnd.
    apply NoDup_cons in Hnd as [Hnot0 Hnd].
    apply not_elem_of_cons in Hnot0 as [Hne01 Hnot0].
    destruct (Hin s0) as [[Hv0 Hpos0] _]; [by left|].
    destruct (Hin s1) as [[Hv1 Hpos1] _]; [right; by left|].
    assert (∀ k, votes k results ≤ value s0) as Hmax.
    { intros k. destruct (decide (votes k results = 0)) as [->|Hk]; [lia|].
      destruct (Hin {| key := k; value := votes k results |}) as [_ Hk'].
      specialize (Hk' ltac:(simpl; lia)).
      apply elem_of_cons in Hk' as [Heq|Hk']; [subst s0; simpl; lia|].
      rewrite Forall_forall in Hall0.
      apply elem_of_cons in Hk' as [Heq|Hk']; [subst s1; simpl in *; lia|].
      apply Hall0 in Hk'. simpl in Hk'. lia. }
    assert (∀ k, k ≠ key s0 → votes k results ≤ value s1) as Hsecond.
    { intros k Hne. destruct (decide (votes k results = 0)) as [->|Hk]; [lia|].
      destruct (Hin {| key := k; value := votes k results |}) as [_ Hk'].
      specialize (Hk' ltac:(simpl; lia)).
      apply elem_of_cons in Hk' as [Heq|Hk']; [by subst s0|].
      apply elem_of_cons in Hk' as [Heq|Hk']; [subst s1; simpl; lia|].
      rewrite Forall_forall in Hall1.
      apply Hall1 in Hk'. simpl in Hk'. lia. }
    destruct (decide (value s0 = value s1)) as [Heq|Hneq].
    + right; right. exists (key s0), (key s1).
      split_and!; [done | lia | lia | | done].
      intros k. rewrite <- Hv0. apply Hmax.
    + right; left. rewrite tally_fetcheds.
      assert (0 < length (filter (λ f, raw_of f = key s0) (fulfilleds results)))
        as Hlen by (rewrite <- votes_filter; lia).
      destruct (last (filter (λ f, raw_of f = key s0) (fulfilleds results)))
        as [f|] eqn:Hlast.
      * apply last_Some_elem_of in Hlast.
        apply list_elem_of_filter in Hlast as [Hraw Hf].
        exists f. split_and!; [done | done |].
        rewrite Hraw. intros k Hne.
        specialize (Hsecond k Hne). lia.
      * apply last_None in Hlast. rewrite Hlast in Hlen. simpl in Hlen. lia.
Qed.

End ConsensusCases.

(** ** What the votes decide *)

Section ConsensusTheorems.

Context {Json : Type} `{Stringify Json}.

Implicit Types results : list (Settled (Fetched Json)).

Lemma votes_perm k results results' :
  results ≡ₚ results' → votes k results = votes k results'.
Proof.
  induction 1 as [|r rs rs' _ IH|r1 r2 rs|rs1 rs2 rs3 _ IH1 _ IH2]; simpl.
  - done.
  - destruct r; by rewrite IH.
  - destruct r1, r2; lia.
  - congruence.
Qed.

Lemma votes_no_fulfilled k results :
  fulfilleds results = [] → votes k results = 0.
Proof.
  intros Hnone. destruct (decide (votes k results = 0)) as [|Hpos]; [done|].
  assert (0 < votes k results) as (f & Hf & _)%votes_pos by lia.
  rewrite Hnone in Hf. by apply elem_of_nil in Hf.
Qed.

Lemma no_votes_no_fulfilled results :
  (∀ k, votes k results = 0) → fulfilleds results = [].
Proof.
  intros Hzero. destruct (fulfilleds results) as [|f fs] eqn:Hfs; [done|].
  assert (0 < votes (raw_of f) results); [|specialize (Hzero (raw_of f)); lia].
  apply votes_pos. exists f. rewrite Hfs. split; [by left | done].
Qed.

(** Nothing fulfilled: [Promise.any] rejects with the reasons. *)
Lemma none_fulfilled_rejects results :
  fulfilleds results = [] →
  consensus results = Rejected (AggregateError (reasons results)).
Proof.
  intros Hnone.
  destruct (consensus_cases results)
    as [[_ ?]|[(f & _ & Hf & _)|(k1 & k2 & _ & Hpos & _)]]; [done | |].
  - rewrite Hnone in Hf. by apply elem_of_nil in Hf.
  - rewrite (votes_no_fulfilled k1) in Hpos by done. lia.
Qed.

(** A serialisation with strictly more votes than any other one is
    the serialisation of the accepted value. *)
Lemma unique_max_accepts results k :
  0 < votes k results →
  (∀ k', k' ≠ k → votes k' results < votes k results) →
  ∃ f, consensus results = Fulfilled f ∧ Fulfilled f ∈ results ∧ raw_of f = k.
Proof.
  intros Hpos Hmax.
  destruct (consensus_cases results)
    as [[Hnone _]|[(f & Hc & Hf & Hfmax)|(k1 & k2 & Hne & Hpos1 & Heq & Htop & _)]].
  - rewrite (votes_no_fulfilled k) in Hpos by done. lia.
  - exists f. split_and!; [done | by apply fulfilleds_elem_of |].
    destruct (decide (raw_of f = k)) as [|Hne]; [done|].
    specialize (Hmax _ Hne). specialize (Hfmax k ltac:(congruence)). lia.
  - exfalso. destruct (decide (k1 = k)) as [->|Hne1].
    + specialize (Hmax k2 ltac:(congruence)). lia.
    + specialize (Hmax k1 Hne1). specialize (Htop k). lia.
Qed.

(** Two serialisations that share the highest number of votes: the
    round throws. *)
Lemma top_tie_rejects results k1 k2 :
  k1 ≠ k2 →
  0 < votes k1 results →
  votes k1 results = votes k2 results →
  (∀ k, votes k results ≤ votes k1 results) →
  consensus results = Rejected could_not_choose_truth.
Proof.
  intros Hne Hpos Heq Htop.
  destruct (consensus_cases results)
    as [[Hnone _]|[(f & _ & _ & Hfmax)|(_ & _ & _ & _ & _ & _ & Hc)]];
    [| |done].
  - rewrite (votes_no_fulfilled k1) in Hpos by done. lia.
  - exfalso. destruct (decide (k1 = raw_of f)) as [E1|E1].
    + specialize (Hfmax k2 ltac:(congruence)). rewrite <- E1 in Hfmax. lia.
    + specialize (Hfmax k1 E1). specialize (Htop (raw_of f)). lia.
Qed.

(** The two branches that stand for [undefined] are never taken. *)
Lemma consensus_no_TypeError results :
  consensus results ≠ Rejected TypeError.
Proof.
  destruct (consensus_cases results)
    as [[_ ->]|[(f & -> & _)|(_ & _ & _ & _ & _ & _ & ->)]]; done.
Qed.

(** C1: when at least two distinct serialisations were returned and one
    of them has strictly more votes than every other one, the round
    accepts a fulfilled value with that serialisation; in particular
    with two serialisations tallied 3 and 2 it accepts the one with 3
    votes. *)
Theorem consensus_strict_majority :
  (∀ results k,
     (∃ k', k' ≠ k ∧ 0 < votes k' results) →
     (∀ k', k' ≠ k → votes k' results < votes k results) →
     ∃ f, consensus results = Fulfilled f ∧ Fulfilled f ∈ results ∧
          raw_of f = k)
  ∧ (∀ results k1 k2,
       k1 ≠ k2 →
       votes k1 results = 3 →
       votes k2 results = 2 →
       (∀ k, k ≠ k1 → k ≠ k2 → votes k results = 0) →
       ∃ f, consensus results = Fulfilled f ∧ Fulfilled f ∈ results ∧
            raw_of f = k1).
Proof.
  split.
  - intros results k (k' & Hne & Hpos) Hmax.
    apply unique_max_accepts; [|done]. specialize (Hmax k' Hne). lia.
  - intros results k1 k2 Hne H3 H2 Hrest.
    apply unique_max_accepts; [lia|].
    intros k Hk. destruct (decide (k = k2)) as [->|Hk2]; [lia|].
    rewrite Hrest by done. lia.
Qed.

(** C2: when two distinct serialisations share the highest number of
    votes (3 and 3, for one), the round throws
    [Error("Could not choose truth")] and accepts nothing. *)
Theorem consensus_tie_is_ambiguous results k1 k2 :
  k1 ≠ k2 →
  0 < votes k1 results →
  votes k1 results = votes k2 results →
  (∀ k, votes k results ≤ votes k1 results) →
  consensus results = Rejected could_not_choose_truth
  ∧ verdict (consensus results) = AmbiguousConsensus
  ∧ ∀ f, consensus results ≠ Fulfilled f.
Proof.
  intros Hne Hpos Heq Htop.
  rewrite (top_tie_rejects results k1 k2) by done. by split_and!.
Qed.

(** C4: when all the fulfilled results, however many (at least one),
    have one and the same serialisation, the round accepts a fulfilled
    value with that serialisation. *)
Theorem consensus_single_payload results k :
  (∃ f, Fulfilled f ∈ results) →
  (∀ f, Fulfilled f ∈ results → raw_of f = k) →
  ∃ f, consensus results = Fulfilled f ∧ Fulfilled f ∈ results ∧ raw_of f = k.
Proof.
  intros [f0 Hf0] Hall. apply unique_max_accepts.
  - apply votes_pos. exists f0. split; [by apply fulfilleds_elem_of | auto].
  - intros k' Hne. destruct (decide (votes k' results = 0)) as [->|Hpos].
    + apply votes_pos. exists f0. split; [by apply fulfilleds_elem_of | auto].
    + assert (0 < votes k' results) as (f & Hf & Hraw)%votes_pos by lia.
      apply fulfilleds_elem_of, Hall in Hf. congruence.
Qed.

(** C5: when every result of the round is a rejection, the round
    rejects with the [AggregateError] of [Promise.any] and accepts
    nothing. *)
Theorem consensus_no_responses results :
  (∀ r, r ∈ results → ∃ e, r = Rejected e) →
  consensus results = Rejected (AggregateError (reasons results))
  ∧ verdict (consensus results) = NoResponses.
Proof.
  intros Hall.
  assert (fulfilleds results = []) as Hnone.
  { destruct (fulfilleds results) as [|f fs] eqn:Hfs; [done|].
    assert (f ∈ fulfilleds results) as Hf by (rewrite Hfs; by left).
    apply fulfilleds_elem_of, Hall in Hf as [e He]. done. }
  by rewrite none_fulfilled_rejects.
Qed.

End ConsensusTheorems.

(** ** Rejections and order *)

Section ConsensusRelational.

Context {Json : Type} `{Stringify Json}.

Implicit Types results : list (Settled (Fetched Json)).

Lemma fulfilleds_Fulfilled {A} (vs : list A) :
  fulfilleds (Fulfilled <$> vs) = vs.
Proof. induction vs as [|v vs IH]; csimpl; [done | by rewrite IH]. Qed.

Lemma foldl_tally_fulfilleds results st :
  foldl tally_step st results =
  foldl tally_step st (Fulfilled <$> fulfilleds results).
Proof.
  revert st. induction results as [|[v|e] rs IH]; intros st; csimpl; auto.
Qed.

Lemma votes_fulfilleds k results :
  votes k results = votes k (Fulfilled <$> fulfilleds results).
Proof. by rewrite !votes_filter, fulfilleds_Fulfilled. Qed.

Lemma fulfilleds_perm {A} (rs rs' : list (Settled A)) :
  rs ≡ₚ rs' → fulfilleds rs ≡ₚ fulfilleds rs'.
Proof.
  induction 1 as [|r rs rs' _ IH|r1 r2 rs|rs1 rs2 rs3 _ IH1 _ IH2]; simpl.
  - done.
  - destruct r; [by constructor | done].
  - destruct r1, r2; try done. apply perm_swap.
  - by etrans.
Qed.

(** The verdict of a round is a function of the votes. *)
Lemma verdict_by_votes results results' :
  (∀ k, votes k results = votes k results') →
  verdict (consensus results) = verdict (consensus results').
Proof.
  intros Hvotes.
  destruct (consensus_cases results)
    as [[Hnone ->]|[(f & -> & Hf & Hmax)|(k1 & k2 & Hne & Hpos & Heq & Htop & ->)]].
  - rewrite (none_fulfilled_rejects results'); [done|].
    apply no_votes_no_fulfilled. intros k.
    rewrite <- Hvotes. by apply votes_no_fulfilled.
  - destruct (unique_max_accepts results' (raw_of f)) as (f' & -> & _ & Hraw).
    + rewrite <- Hvotes. apply votes_pos. by exists f.
    + intros k Hk. rewrite <- !Hvotes. by apply Hmax.
    + simpl. by rewrite Hraw.
  - rewrite (top_tie_rejects results' k1 k2); [done | done | | |].
    + by rewrite <- Hvotes.
    + by rewrite <- !Hvotes.
    + intros k. rewrite <- !Hvotes. apply Htop.
Qed.

(** C3: a rejected result leaves the tally as it is, so the maps, the
    votes and the verdict of a round are those of its fulfilled results
    alone; and what a round accepts is one of its fulfilled results. *)
Theorem consensus_discards_rejections :
  (∀ (st : Tally) e, tally_step st (Rejected e) = st)
  ∧ (∀ results, tally results = tally (Fulfilled <$> fulfilleds results))
  ∧ (∀ results k, votes k results = votes k (Fulfilled <$> fulfilleds results))
  ∧ (∀ results,
       verdict (consensus results) =
       verdict (consensus (Fulfilled <$> fulfilleds results)))
  ∧ (∀ results f,
       consensus results = Fulfilled f ↔
       consensus (Fulfilled <$> fulfilleds results) = Fulfilled f)
  ∧ (∀ results f, consensus results = Fulfilled f → Fulfilled f ∈ results).
Proof.
  split_and!.
  - done.
  - intros results. apply foldl_tally_fulfilleds.
  - intros results k. apply votes_fulfilleds.
  - intros results. apply verdict_by_votes. intros k. apply votes_fulfilleds.
  - intros results f. unfold consensus.
    unfold tally. rewrite <- foldl_tally_fulfilleds.
    destruct (decide _); [|done].
    unfold Promise_any.
    rewrite !first_fulfilled_head, fulfilleds_Fulfilled.
    by destruct (head (fulfilleds results)).
  - intros results f Hc.
    destruct (consensus_cases results)
      as [[_ Hr]|[(f' & Hr & Hf & _)|(_ & _ & _ & _ & _ & _ & Hr)]];
      rewrite Hr in Hc; simplify_eq.
    by apply fulfilleds_elem_of.
Qed.

(** C9: two arrays of results that are permutations of one another
    give the same verdict: both rounds fail in the same way, or both
    accept a value with the same serialisation. *)
Theorem consensus_order_independent results results' :
  results ≡ₚ results' →
  verdict (consensus results) = verdict (consensus results').
Proof.
  intros Hperm. apply verdict_by_votes. intros k. by apply votes_perm.
Qed.

End ConsensusRelational.

(** ** The two-level fetch *)

Section FetchFacts.

Context {Json : Type} `{Stringify Json}.
Variable rpc : TorRpc Json.
Variable init : RpcRequestPreinit Json.

Import ServiceWorker.

(** What [runWithConnOrThrow] records and settles to. *)
Lemma runWithConnOrThrow_run (pool : Pool RpcConnection) i j :
  runWithConnOrThrow rpc init pool i j =
  match tryGet pool j with
  | Ok (Ok conn) =>
      ([GetConn i j; Send i j],
       match exchange rpc init conn with
       | Ok response => Fulfilled (Fetched_rewrap response)
       | Err e => Rejected e
       end)
  | Ok (Err e) => ([GetConn i j], Rejected e)
  | Err e => ([GetConn i j], Rejected e)
  end.
Proof.
  unfold runWithConnOrThrow, exchange.
  destruct (tryGet pool j) as [[conn|e]|e]; simpl; try done.
  destruct (connection conn) as [url circuit|socket circuit]; simpl.
  - by destruct (tryFetchWithCircuit rpc url circuit _).
  - by destruct (tryFetchWithSocket rpc socket _).
Qed.

(** The results that the vote of one circuit receives. *)
Lemma runWithPoolOrThrow_run (pools : Pool (Pool RpcConnection)) i :
  runWithPoolOrThrow rpc init pools i =
  match tryGet pools i with
  | Ok (Ok pool) =>
      let promises :=
        Array_from (capacity pool) (runWithConnOrThrow rpc init pool i) in
      (GetPool i :: concat (fst <$> promises),
       consensus (snd <$> promises))
  | Ok (Err e) => ([GetPool i], Rejected e)
  | Err e => ([GetPool i], Rejected e)
  end.
Proof.
  unfold runWithPoolOrThrow.
  destruct (tryGet pools i) as [[pool|e]|e]; simpl; try done.
  by rewrite app_nil_r.
Qed.

Lemma fetchOrThrow_run (ethereum : EthereumContext) :
  fetchOrThrow rpc init ethereum =
  match brume ethereum !! chainId (chain ethereum) with
  | Some pools =>
      let promises :=
        Array_from (capacity pools) (runWithPoolOrThrow rpc init pools) in
      (concat (fst <$> promises), consensus (snd <$> promises))
  | None => ([], Rejected NoneError)
  end.
Proof.
  unfold fetchOrThrow.
  destruct (brume ethereum !! chainId (chain ethereum)) as [pools|]; simpl;
    [|done].
  by rewrite app_nil_r.
Qed.

Lemma Array_from_elem_of {A} (f : nat → A) n i :
  i < n → f i ∈ Array_from n f.
Proof.
  intros Hi. unfold Array_from. apply (list_elem_of_fmap_2 f).
  apply elem_of_seq. lia.
Qed.

Lemma elem_of_concat_traces {A} (promises : list (Async A)) (p : Async A) ev :
  p ∈ promises → ev ∈ p.1 → ev ∈ concat (fst <$> promises).
Proof.
  intros Hp Hev. apply list_elem_of_In, in_concat. exists p.1.
  split; apply list_elem_of_In; [|done].
  by apply (list_elem_of_fmap_2 fst).
Qed.

End FetchFacts.

Section FetchTheorems.

Context {Json : Type} `{Stringify Json}.
Variable rpc : TorRpc Json.
Variable init : RpcRequestPreinit Json.

Import ServiceWorker.

(** C6: two circuits of two connections; both connections of the
    first answer [P1], those of the second answer [P1] and [P2].  The
    first circuit settles to [P1], the second throws on the tie, and
    the fetch returns [P1]. *)
Theorem two_circuits_scenario (ethereum : EthereumContext)
    (pools : Pool (Pool RpcConnection)) (circuitA circuitB : Pool RpcConnection)
    (a0 a1 b0 b1 : RpcConnection) (P1 P2 : Json) :
  brume ethereum !! chainId (chain ethereum) = Some pools →
  capacity pools = 2 →
  tryGet pools 0 = Ok (Ok circuitA) →
  tryGet pools 1 = Ok (Ok circuitB) →
  capacity circuitA = 2 →
  tryGet circuitA 0 = Ok (Ok a0) →
  tryGet circuitA 1 = Ok (Ok a1) →
  capacity circuitB = 2 →
  tryGet circuitB 0 = Ok (Ok b0) →
  tryGet circuitB 1 = Ok (Ok b1) →
  exchange rpc init a0 = Ok (RpcOk P1) →
  exchange rpc init a1 = Ok (RpcOk P1) →
  exchange rpc init b0 = Ok (RpcOk P1) →
  exchange rpc init b1 = Ok (RpcOk P2) →
  JSON_stringify P1 ≠ JSON_stringify P2 →
  (runWithPoolOrThrow rpc init pools 0).2 = Fulfilled (Data P1)
  ∧ (runWithPoolOrThrow rpc init pools 1).2 = Rejected could_not_choose_truth
  ∧ (tryEthereumFetch rpc init ethereum).2 = Fulfilled (Ok (Data P1)).
Proof.
  intros Hdir Hcap HA HB HcapA Ha0 Ha1 HcapB Hb0 Hb1 Ea0 Ea1 Eb0 Eb1 Hne.
  assert ((runWithPoolOrThrow rpc init pools 0).2 = Fulfilled (Data P1)) as RA.
  { rewrite runWithPoolOrThrow_run, HA. cbn zeta. rewrite HcapA.
    unfold Array_from. csimpl.
    rewrite !runWithConnOrThrow_run, Ha0, Ha1, Ea0, Ea1. simpl.
    destruct (unique_max_accepts
                [Fulfilled (Data P1); Fulfilled (Data P1)]
                (JSON_stringify P1)) as (f & -> & Hf & _).
    - simpl. unfold raw_of. simpl. rewrite decide_True by done. lia.
    - intros k Hk. simpl. unfold raw_of. simpl.
      rewrite decide_False by done. rewrite decide_True by done. lia.
    - apply elem_of_cons in Hf as [Hf|Hf]; [done|].
      apply list_elem_of_singleton in Hf. done. }
  assert ((runWithPoolOrThrow rpc init pools 1).2
          = Rejected could_not_choose_truth) as RB.
  { rewrite runWithPoolOrThrow_run, HB. cbn zeta. rewrite HcapB.
    unfold Array_from. csimpl.
    rewrite !runWithConnOrThrow_run, Hb0, Hb1, Eb0, Eb1. simpl.
    apply (top_tie_rejects _ (JSON_stringify P1) (JSON_stringify P2));
      [done | | |]; simpl; unfold raw_of; simpl.
    - rewrite decide_True by done. lia.
    - rewrite (decide_True (P := JSON_stringify P1 = JSON_stringify P1)) by done.
      rewrite (decide_True (P := JSON_stringify P2 = JSON_stringify P2)) by done.
      rewrite !decide_False by done. done.
    - intros k.
      rewrite (decide_True (P := JSON_stringify P1 = JSON_stringify P1)) by done.
      rewrite (decide_False (P := JSON_stringify P2 = JSON_stringify P1)) by done.
      repeat case_decide; try lia; congruence. }
  split_and!; [done | done |].
  unfold tryEthereumFetch. rewrite fetchOrThrow_run, Hdir. cbn zeta.
  rewrite Hcap. unfold Array_from. csimpl. rewrite RA, RB.
  destruct (unique_max_accepts
              [Fulfilled (Data P1); Rejected could_not_choose_truth]
              (JSON_stringify P1)) as (f & -> & Hf & _).
  - simpl. unfold raw_of. simpl. rewrite decide_True by done. lia.
  - intros k Hk. simpl. unfold raw_of. simpl.
    rewrite decide_False by done. rewrite decide_True by done. lia.
  - apply elem_of_cons in Hf as [Hf|Hf]; [by simplify_eq|].
    apply list_elem_of_singleton in Hf. done.
Qed.

(** C7: without a directory entry for the chain the fetch returns an
    [Err] and has taken no step at all, so no request was sent; with
    an entry, every slot of the directory is asked for, and in every
    circuit obtained every slot of its pool is asked for and every
    connection obtained is sent the request. *)
Theorem fetch_fans_out_over_full_capacity (ethereum : EthereumContext) :
  (brume ethereum !! chainId (chain ethereum) = None →
   tryEthereumFetch rpc init ethereum
   = ([], Fulfilled (Err (Catched NoneError))))
  ∧ (∀ pools,
       brume ethereum !! chainId (chain ethereum) = Some pools →
       (∀ i, i < capacity pools →
             GetPool i ∈ (tryEthereumFetch rpc init ethereum).1)
       ∧ (∀ i pool j,
            i < capacity pools →
            tryGet pools i = Ok (Ok pool) →
            j < capacity pool →
            GetConn i j ∈ (tryEthereumFetch rpc init ethereum).1
            ∧ (∀ conn, tryGet pool j = Ok (Ok conn) →
                       Send i j ∈ (tryEthereumFetch rpc init ethereum).1))).
Proof.
  split.
  - intros Hnone. unfold tryEthereumFetch.
    by rewrite fetchOrThrow_run, Hnone.
  - intros pools Hsome.
    assert ((tryEthereumFetch rpc init ethereum).1
            = concat (fst <$> Array_from (capacity pools)
                                (runWithPoolOrThrow rpc init pools))) as ->.
    { unfold tryEthereumFetch. rewrite fetchOrThrow_run, Hsome. cbn zeta.
      unfold Result_runAndDoubleWrap. by destruct (consensus _). }
    split.
    + intros i Hi.
      eapply elem_of_concat_traces; [by apply Array_from_elem_of|].
      rewrite runWithPoolOrThrow_run.
      destruct (tryGet pools i) as [[pool|e]|e]; simpl; by left.
    + intros i pool j Hi Hpool Hj.
      assert (∀ ev, ev ∈ (runWithConnOrThrow rpc init pool i j).1 →
                ev ∈ concat (fst <$> Array_from (capacity pools)
                               (runWithPoolOrThrow rpc init pools))) as Hev.
      { intros ev Hin.
        eapply elem_of_concat_traces; [by apply Array_from_elem_of|].
        rewrite runWithPoolOrThrow_run, Hpool. simpl. right.
        eapply elem_of_concat_traces; [by apply Array_from_elem_of | done]. }
      split.
      * apply Hev. rewrite runWithConnOrThrow_run.
        destruct (tryGet pool j) as [[conn|e]|e]; simpl; by left.
      * intros conn Hconn. apply Hev.
        rewrite runWithConnOrThrow_run, Hconn. simpl. right. by left.
Qed.

(** C10: [tryEthereumFetch] always settles to a fulfilled promise of a
    [Result].  Whatever is thrown inside comes back as its [Err]: the
    missing directory entry, and the rejection of the last round (tie
    or nothing fulfilled); the rejections of connections and circuits
    are results of a round and stop there. *)
Theorem tryEthereumFetch_never_throws (ethereum : EthereumContext) :
  ∃ r, (tryEthereumFetch rpc init ethereum).2 = Fulfilled r
       ∧ match (fetchOrThrow rpc init ethereum).2 with
         | Fulfilled f => r = Ok f
         | Rejected e => r = Err (Catched e)
         end
       ∧ match brume ethereum !! chainId (chain ethereum) with
         | None => r = Err (Catched NoneError)
         | Some pools =>
             match consensus
                     (snd <$> Array_from (capacity pools)
                                (runWithPoolOrThrow rpc init pools)) with
             | Fulfilled f => r = Ok f
             | Rejected e => r = Err (Catched e)
             end
         end.
Proof.
  unfold tryEthereumFetch. rewrite fetchOrThrow_run.
  destruct (brume ethereum !! chainId (chain ethereum)) as [pools|]; cbn zeta.
  - unfold Result_runAndDoubleWrap.
    destruct (consensus _) as [f|e]; simpl; eauto.
  - simpl. eauto.
Qed.

End FetchTheorems.

(** ** The retry loop and its exclusion sets *)

Section RetryLoopFacts.

Import ContentScript.

(** The record of the heap is one that its sets can produce. *)
#[local] Abbreviation tracked h :=
  (∃ last, follows Track_init (steps h) (Track_of h last)).

#[local] Abbreviation keeps_track m :=
  (∀ h, tracked h → tracked (m h).2).

Lemma follows_app t tr1 t1 tr2 t2 :
  follows t tr1 t1 → follows t1 tr2 t2 → follows t (tr1 ++ tr2) t2.
Proof.
  revert t. induction tr1 as [|s tr1 IH]; intros t; simpl.
  - by intros ->.
  - destruct s as [[]|[] before a|a]; intros Hf1 Hf2;
      repeat (destruct Hf1 as [? Hf1]); split_and?; eauto.
Qed.

Lemma tracked_record_fetch h a :
  follows Track_init (steps h) (Track_of h (Some a)) →
  tracked (record (Fetch a) h).
Proof.
  intros Hh. exists None. simpl.
  eapply follows_app; [exact Hh|]. simpl. done.
Qed.

Lemma tracked_new_set which h : tracked h → tracked (new_set which h).
Proof.
  intros [last Hh]. exists None. destruct which; simpl;
    (eapply follows_app; [exact Hh|]); simpl; done.
Qed.

Lemma tracked_add which a h :
  tracked h → a ∉ tried which h →
  follows Track_init (steps (add which a h))
    (Track_of (add which a h)
       match which with AllTriedConns => Some a | AllTriedPools => None end).
Proof.
  intros [last Hh] Hfresh. destruct which; simpl in *;
    (eapply follows_app; [exact Hh|]); simpl; done.
Qed.

Lemma while_true_tracked {A} which (pool : Pool (Ref A)) words h :
  tracked h →
  match while_true which pool words h with
  | (Some (Ok candidate), h') =>
      follows Track_init (steps h')
        (Track_of h'
           match which with
           | AllTriedConns => Some (addr candidate)
           | AllTriedPools => None
           end)
  | (_, h') => tracked h'
  end.
Proof.
  revert h. induction words as [|word words IH]; intros h Hh; simpl; [done|].
  destruct (tryGetCryptoRandom pool word) as [candidate|e]; [|done].
  destruct (decide (addr candidate ∈ tried which (with_random words h)))
    as [Hin|Hfresh].
  - by apply IH.
  - by apply tracked_add.
Qed.

Lemma draw_untried_keeps_track {A} which (pool : Pool (Ref A)) :
  keeps_track (draw_untried which pool).
Proof.
  intros h Hh. unfold draw_untried.
  pose proof (while_true_tracked which pool (random h) h Hh) as Hw.
  destruct (while_true which pool (random h) h) as [[[c|e]|] h']; simpl; eauto.
Qed.

Lemma tryLoop_from_keeps_track {T}
    (looper : nat → Loop (Result T (Looped Exn))) remaining i errors :
  (∀ i, keeps_track (looper i)) →
  keeps_track (tryLoop_from looper remaining i errors).
Proof.
  intros Hlooper. revert i errors.
  induction remaining as [|remaining IH]; intros i errors h Hh; simpl; [done|].
  unfold Loop_bind. specialize (Hlooper i h Hh).
  destruct (looper i h) as [[[x|[e|e|e]]|] h1]; simpl in *; auto.
Qed.

Section WithTransport.

Context {Json : Type}.
Variable rpc : TorRpc Json.
Variable init : RpcRequestPreinit Json.

Lemma tryWithConn_keeps_track (conns : Pool (Ref RpcConnection)) i :
  keeps_track (tryWithConn rpc init conns i).
Proof.
  intros h Hh. unfold tryWithConn, Loop_bind, draw_untried.
  pose proof (while_true_tracked AllTriedConns conns (random h) h Hh) as Hw.
  destruct (while_true AllTriedConns conns (random h) h)
    as [[[conn|e]|] h1]; simpl; [|done|done].
  destruct (connection (deref conn)) as [url circuit|socket circuit]; simpl;
    by apply tracked_record_fetch.
Qed.

Lemma tryWithPool_keeps_track
    (pools : Pool (Ref (Pool (Ref RpcConnection)))) i :
  keeps_track (tryWithPool rpc init pools i).
Proof.
  intros h Hh. unfold tryWithPool, Loop_bind.
  pose proof (draw_untried_keeps_track AllTriedPools pools h Hh) as Hd.
  destruct (draw_untried AllTriedPools pools h) as [[[pool|e]|] h1];
    simpl in *; [|done|done].
  pose proof (tryLoop_from_keeps_track
                (tryWithConn rpc init (deref pool)) (capacity (deref pool)) 0 []
                (tryWithConn_keeps_track (deref pool))
                (new_set AllTriedConns h1)
                (tracked_new_set AllTriedConns h1 Hd)) as Hl.
  unfold tryLoop.
  destruct (tryLoop_from _ _ _ _ _) as [[r|] h2]; simpl in *; done.
Qed.

Lemma tryEthereumFetch_keeps_track (ethereum : EthereumContext) :
  keeps_track (tryEthereumFetch rpc init ethereum).
Proof.
  intros h Hh. unfold tryEthereumFetch.
  destruct (brume ethereum !! chainId (chain ethereum)) as [pools|]; simpl;
    [|done].
  unfold Loop_bind, Loop_do, tryLoop. simpl.
  apply tryLoop_from_keeps_track; [apply tryWithPool_keeps_track|].
  by apply tracked_new_set.
Qed.

End WithTransport.

Lemma follows_lifetimes which t tr t' current :
  follows t tr t' →
  NoDup current →
  (∀ x, x ∈ current → x ∈ now which t) →
  Forall NoDup (lifetimes which current tr).
Proof.
  revert t current. induction tr as [|s tr IH]; intros t current; simpl.
  - intros _ Hnd _. by constructor.
  - destruct s as [s|s before a|a].
    + intros Hf Hnd Hsub. destruct (decide (s = which)) as [<-|Hne].
      * constructor; [done|].
        destruct s; (eapply IH; [exact Hf | apply NoDup_nil_2 |]);
          by intros x ?%elem_of_nil.
      * destruct s, which; try done; (eapply IH; [exact Hf | done | done]).
    + intros Hf Hnd Hsub. destruct (decide (s = which)) as [<-|Hne].
      * destruct s; destruct Hf as (-> & Hfresh & Hf);
          (eapply IH; [exact Hf | |]).
        -- apply NoDup_app. split_and!; [done | | apply NoDup_singleton].
           intros x Hx Hx'%list_elem_of_singleton. subst x.
           by apply Hfresh, Hsub.
        -- intros x [Hx|Hx%list_elem_of_singleton]%elem_of_app; simpl;
             [apply Hsub in Hx|]; set_solver.
        -- apply NoDup_app. split_and!; [done | | apply NoDup_singleton].
           intros x Hx Hx'%list_elem_of_singleton. subst x.
           by apply Hfresh, Hsub.
        -- intros x [Hx|Hx%list_elem_of_singleton]%elem_of_app; simpl;
             [apply Hsub in Hx|]; set_solver.
      * destruct s, which; try done; destruct Hf as (_ & _ & Hf);
          (eapply IH; [exact Hf | done | done]).
    + intros [_ Hf] Hnd Hsub. eapply IH; [exact Hf | done |].
      by destruct which.
Qed.

Lemma follows_add_fresh t tr t' which before a :
  follows t tr t' → Add which before a ∈ tr → a ∉ before.
Proof.
  revert t. induction tr as [|s tr IH]; intros t Hf Hin.
  - by apply elem_of_nil in Hin.
  - apply elem_of_cons in Hin as [<-|Hin].
    + destruct which; simpl in Hf; tauto.
    + destruct s as [[]|[] before' a'|a']; simpl in Hf;
        repeat (destruct Hf as [? Hf]); eauto.
Qed.

(** ** The shape of the record of a call *)

Section Shape.

Import RetrySteps.

Context {Json : Type}.
Variable rpc : TorRpc Json.
Variable init : RpcRequestPreinit Json.

Lemma list_to_set_snoc (l : list positive) a :
  ({[a]} ∪ list_to_set l : gset positive) = list_to_set (l ++ [a]).
Proof.
  rewrite list_to_set_app_L. simpl. rewrite union_empty_r_L.
  apply union_comm_L.
Qed.

Lemma conn_steps_snoc before cs c :
  conn_steps before (cs ++ [c])
  = conn_steps before cs
    ++ [Add AllTriedConns (list_to_set (before ++ cs)) c; Fetch c].
Proof.
  revert before. induction cs as [|c0 cs IH]; intros before; simpl.
  - by rewrite app_nil_r.
  - rewrite IH. by rewrite <- app_assoc.
Qed.

Lemma pool_steps_snoc before attempts a :
  pool_steps before (attempts ++ [a])
  = pool_steps before attempts
    ++ Add AllTriedPools (list_to_set (before ++ pool_addresses attempts))
         (addr (attempt_pool a))
       :: NewSet AllTriedConns :: conn_steps [] (conn_addresses a).
Proof.
  revert before. induction attempts as [|a0 attempts IH]; intros before; simpl.
  - by rewrite !app_nil_r.
  - rewrite IH. do 2 f_equal. by rewrite <- !app_assoc.
Qed.

Lemma call_steps_fetch done p cs c :
  call_steps (done ++ [{| attempt_pool := p; attempt_conns := cs ++ [c] |}])
  = call_steps (done ++ [{| attempt_pool := p; attempt_conns := cs |}])
    ++ [Add AllTriedConns (list_to_set (addr <$> cs)) (addr c);
        Fetch (addr c)].
Proof.
  unfold call_steps. rewrite !pool_steps_snoc. unfold conn_addresses. simpl.
  rewrite fmap_app. simpl. rewrite conn_steps_snoc. simpl.
  by rewrite <- app_assoc.
Qed.

Lemma call_steps_pool attempts p :
  call_steps (attempts ++ [{| attempt_pool := p; attempt_conns := [] |}])
  = call_steps attempts
    ++ [Add AllTriedPools (list_to_set (pool_addresses attempts)) (addr p);
        NewSet AllTriedConns].
Proof. unfold call_steps. by rewrite pool_steps_snoc. Qed.

Lemma fetched_conn_steps before cs : fetched (conn_steps before cs) = cs.
Proof.
  revert before. induction cs as [|c cs IH]; intros before; simpl; [done|].
  by rewrite IH.
Qed.

Lemma pools_tried_conn_steps before cs : pools_tried (conn_steps before cs) = [].
Proof.
  revert before. induction cs as [|c cs IH]; intros before; simpl; [done|].
  by rewrite IH.
Qed.

Lemma fetched_app tr tr' : fetched (tr ++ tr') = fetched tr ++ fetched tr'.
Proof.
  induction tr as [|[s|s before a|a] tr IH]; simpl; [done | done | done |].
  by rewrite IH.
Qed.

Lemma pools_tried_app tr tr' :
  pools_tried (tr ++ tr') = pools_tried tr ++ pools_tried tr'.
Proof.
  induction tr as [|[s|[] before a|a] tr IH]; simpl; try done.
  by rewrite IH.
Qed.

Lemma fetched_call_steps attempts :
  fetched (call_steps attempts) = concat (conn_addresses <$> attempts).
Proof.
  unfold call_steps. simpl. generalize (@nil positive).
  induction attempts as [|a attempts IH]; intros before; simpl; [done|].
  by rewrite fetched_app, fetched_conn_steps, IH.
Qed.

Lemma pools_tried_call_steps attempts :
  pools_tried (call_steps attempts) = pool_addresses attempts.
Proof.
  unfold call_steps. simpl. generalize (@nil positive).
  induction attempts as [|a attempts IH]; intros before; simpl; [done|].
  by rewrite pools_tried_app, pools_tried_conn_steps, IH.
Qed.

(** In a record that sets can produce, an [add] to [allTriedConns] is
    made on the set of the connections added since it was created. *)
Lemma follows_conns_add t tr t' current pre before a post :
  follows t tr t' →
  conns_now t = list_to_set current →
  tr = pre ++ Add AllTriedConns before a :: post →
  before = list_to_set (conns_kept current pre).
Proof.
  revert t current pre.
  induction tr as [|s tr IH]; intros t current pre Hf Hnow Htr.
  { by destruct pre. }
  destruct pre as [|s' pre]; simpl in Htr.
  { injection Htr as -> _. simpl in Hf. destruct Hf as (-> & _). done. }
  injection Htr as <- Htr.
  destruct s as [[]|[] before' a'|a']; simpl in Hf; simpl.
  - eapply IH; [exact Hf | done | done].
  - eapply IH; [exact Hf | done | done].
  - destruct Hf as (_ & _ & Hf). eapply IH; [exact Hf | done | done].
  - destruct Hf as (_ & _ & Hf). eapply IH; [exact Hf | | done].
    simpl. rewrite Hnow. apply list_to_set_snoc.
  - destruct Hf as (_ & Hf). eapply IH; [exact Hf | done | done].
Qed.

(** What one [while (true)] block does to the heap. *)
Lemma while_true_outcome {A} which (pool : Pool (Ref A)) words h :
  match while_true which pool words h with
  | (Some (Ok candidate), h') =>
      drawn pool candidate
      ∧ (addr candidate ∉ tried which h)
      ∧ steps h' = steps h ++ [Add which (tried which h) (addr candidate)]
      ∧ tried which h' = {[addr candidate]} ∪ tried which h
      ∧ ∀ other, other ≠ which → tried other h' = tried other h
  | (_, h') => steps h' = steps h ∧ ∀ s, tried s h' = tried s h
  end.
Proof.
  revert h. induction words as [|word words IH]; intros h; simpl.
  { split; [done|]. by intros []. }
  destruct (tryGetCryptoRandom pool word) as [candidate|e] eqn:Hdraw.
  - assert (∀ s, tried s (with_random words h) = tried s h) as Hsame
      by (by intros []).
    destruct (decide (addr candidate ∈ tried which (with_random words h)))
      as [Hin|Hfresh].
    + specialize (IH (with_random words h)).
      destruct (while_true which pool words (with_random words h))
        as [[[c|e]|] h']; rewrite ?Hsame in IH; simpl in IH; [done | |].
      * destruct IH as [Hsteps Htried]. split; [done|].
        intros s. by rewrite Htried.
      * destruct IH as [Hsteps Htried]. split; [done|].
        intros s. by rewrite Htried.
    + rewrite Hsame in Hfresh. split_and!.
      * by exists word.
      * done.
      * by destruct which.
      * by destruct which.
      * intros other Hne. by destruct which, other.
  - split; [done|]. by intros [].
Qed.

(** An outcome of the looper that ends a [tryLoop] with a value, and a
    property of the heap that every other outcome keeps. *)
Lemma tryLoop_from_outcome {T} (answer : T → Heap → Prop) (kept : Heap → Prop)
    (looper : nat → Loop (Result T (Looped Exn))) remaining i errors h :
  (∀ i h, kept h →
          match looper i h with
          | (Some (Ok x), h') => answer x h'
          | (_, h') => kept h'
          end) →
  kept h →
  match tryLoop_from looper remaining i errors h with
  | (Some (Ok x), h') => answer x h'
  | (_, h') => kept h'
  end.
Proof.
  intros Hlooper. revert i errors h.
  induction remaining as [|remaining IH]; intros i errors h Hh; simpl; [done|].
  unfold Loop_bind. specialize (Hlooper i h Hh).
  destruct (looper i h) as [[[x|[e|e|e]]|] h1]; simpl; try done;
    by apply IH.
Qed.

Lemma tryWithConn_outcome done p i h :
  (∃ cs, inside rpc init done p cs h) →
  match tryWithConn rpc init (deref p) i h with
  | (Some (Ok f), h') => answered rpc init done p f h'
  | (_, h') => ∃ cs, inside rpc init done p cs h'
  end.
Proof.
  unfold inside, answered.
  intros (cs & Hsteps & Hpools & Hconns & Hnd & Hdrawn & Hfailed).
  unfold tryWithConn, Loop_bind, draw_untried.
  pose proof (while_true_outcome AllTriedConns (deref p) (random h) h) as Hw.
  destruct (while_true AllTriedConns (deref p) (random h) h)
    as [[[conn|e]|] h1]; simpl.
  - destruct Hw as (Hconn & Hfresh & Hsteps1 & Hconns1 & Hother).
    simpl in Hfresh, Hsteps1, Hconns1.
    specialize (Hother AllTriedPools ltac:(done)). simpl in Hother.
    rewrite Hconns in Hfresh, Hsteps1, Hconns1.
    assert (addr conn ∉ addr <$> cs) as Hnew
      by (by rewrite elem_of_list_to_set in Hfresh).
    assert (NoDup (addr <$> cs ++ [conn])) as Hnd1.
    { rewrite fmap_app. apply NoDup_app. split_and!; [done | |].
      - intros x Hx Hx'%list_elem_of_singleton. by subst x.
      - apply NoDup_singleton. }
    assert (Forall (drawn (deref p)) (cs ++ [conn])) as Hdrawn1.
    { apply Forall_app. split; [done|]. by constructor. }
    assert (steps (record (Fetch (addr conn)) h1)
            = call_steps (done ++ [{| attempt_pool := p;
                                      attempt_conns := cs ++ [conn] |}]))
      as Hsteps2.
    { simpl. rewrite Hsteps1, Hsteps, call_steps_fetch.
      by rewrite <- app_assoc. }
    assert (∀ result : Result (RpcResponse Json) Exn,
              ServiceWorker.exchange rpc init (deref conn) = result →
              match mapErrSync Retry (mapSync Fetched_rewrap result) with
              | Ok f =>
                  answered rpc init done p f (record (Fetch (addr conn)) h1)
              | Err _ =>
                  ∃ cs, inside rpc init done p cs
                          (record (Fetch (addr conn)) h1)
              end) as Hresult.
    unfold inside, answered.
    { intros [response|e] Hx; simpl.
      - by exists cs, conn, response.
      - exists (cs ++ [conn]). split_and!; [done | | | done | done |].
        + simpl. by rewrite Hother.
        + simpl. rewrite Hconns1, fmap_app. apply list_to_set_snoc.
        + apply Forall_app. split; [done|]. constructor; [|done].
          by exists e. }
    unfold ServiceWorker.exchange in Hresult.
    destruct (connection (deref conn)) as [url circuit|socket circuit]; simpl.
    + specialize (Hresult _ eq_refl).
      by destruct (mapErrSync Retry (mapSync Fetched_rewrap _)).
    + specialize (Hresult _ eq_refl).
      by destruct (mapErrSync Retry (mapSync Fetched_rewrap _)).
  - destruct Hw as [Hsteps1 Htried]. exists cs.
    pose proof (Htried AllTriedPools) as Hp.
    pose proof (Htried AllTriedConns) as Hc. simpl in Hp, Hc.
    by rewrite Hsteps1, Hp, Hc.
  - destruct Hw as [Hsteps1 Htried]. exists cs.
    pose proof (Htried AllTriedPools) as Hp.
    pose proof (Htried AllTriedConns) as Hc. simpl in Hp, Hc.
    by rewrite Hsteps1, Hp, Hc.
Qed.

Variable pools : Pool (Ref (Pool (Ref RpcConnection))).

Lemma tryWithPool_outcome i h :
  between rpc init pools h →
  match tryWithPool rpc init pools i h with
  | (Some (Ok f), h') => ended rpc init pools f h'
  | (_, h') => between rpc init pools h'
  end.
Proof.
  unfold between, ended.
  intros (done & (Hsteps & Hnd & Hdrawn) & Hpools & Hfailed).
  unfold tryWithPool, Loop_bind, draw_untried.
  pose proof (while_true_outcome AllTriedPools pools (random h) h) as Hw.
  destruct (while_true AllTriedPools pools (random h) h)
    as [[[p|e]|] h1]; simpl.
  - destruct Hw as (Hpool & Hfresh & Hsteps1 & Hpools1 & _).
    simpl in Hfresh, Hsteps1, Hpools1.
    rewrite Hpools in Hfresh, Hsteps1, Hpools1.
    assert (∀ cs, pool_addresses
                    (done ++ [{| attempt_pool := p; attempt_conns := cs |}])
                  = pool_addresses done ++ [addr p]) as Haddr.
    { intros cs. unfold pool_addresses. by rewrite fmap_app. }
    assert (NoDup (pool_addresses done ++ [addr p])) as Hnd1.
    { apply NoDup_app. split_and!; [done | | apply NoDup_singleton].
      intros x Hx Hx'%list_elem_of_singleton. subst x.
      apply Hfresh. by apply elem_of_list_to_set. }
    assert (∀ cs, NoDup (addr <$> cs) → Forall (drawn (deref p)) cs →
                  Forall (attempt_drawn pools)
                    (done ++ [{| attempt_pool := p; attempt_conns := cs |}]))
      as Hdrawn1.
    { intros cs Hn Hd. apply Forall_app. split; [done|].
      by constructor. }
    assert (inside rpc init done p [] (new_set AllTriedConns h1)) as Hstart.
    { unfold inside. split_and!; try done.
      - simpl. rewrite Hsteps1, Hsteps, call_steps_pool.
        by rewrite <- app_assoc.
      - simpl. rewrite Hpools1. apply list_to_set_snoc.
      - apply NoDup_nil_2. }
    pose proof (tryLoop_from_outcome
                  (λ f h', answered rpc init done p f h')
                  (λ h', ∃ cs, inside rpc init done p cs h')
                  (tryWithConn rpc init (deref p)) (capacity (deref p)) 0 []
                  (new_set AllTriedConns h1)
                  (tryWithConn_outcome done p)
                  (ex_intro _ [] Hstart)) as Hloop.
    unfold tryLoop.
    destruct (tryLoop_from (tryWithConn rpc init (deref p))
                (capacity (deref p)) 0 [] (new_set AllTriedConns h1))
      as [[[f|e]|] h2]; simpl.
    + destruct Hloop as (cs & conn & response & Hs & Hn & Hd & Hf & Hx & ->).
      exists done, p, cs, conn, response.
      split_and!; [|done | done | done | done].
      unfold made_of. rewrite Haddr. split_and!; [done | done |].
      by apply Hdrawn1.
    + destruct Hloop as (cs & Hs & Hp & Hc & Hn & Hd & Hf).
      exists (done ++ [{| attempt_pool := p; attempt_conns := cs |}]).
      unfold made_of. rewrite Haddr. split_and!; [done | done | | done |].
      * by apply Hdrawn1.
      * apply Forall_app. split; [done|]. by constructor.
    + destruct Hloop as (cs & Hs & Hp & Hc & Hn & Hd & Hf).
      exists (done ++ [{| attempt_pool := p; attempt_conns := cs |}]).
      unfold made_of. rewrite Haddr. split_and!; [done | done | | done |].
      * by apply Hdrawn1.
      * apply Forall_app. split; [done|]. by constructor.
  - destruct Hw as [Hsteps1 Htried]. exists done.
    pose proof (Htried AllTriedPools) as Hp. simpl in Hp.
    unfold made_of. by rewrite Hsteps1, Hp.
  - destruct Hw as [Hsteps1 Htried]. exists done.
    pose proof (Htried AllTriedPools) as Hp. simpl in Hp.
    unfold made_of. by rewrite Hsteps1, Hp.
Qed.

(** The record of a call on a directory entry, whatever the random
    words: either the call has an answer, given by the last connection
    of the last attempt after every other connection failed, or every
    connection of every attempt failed. *)
Lemma tryEthereumFetch_outcome (ethereum : EthereumContext) words :
  brume ethereum !! chainId (chain ethereum) = Some pools →
  match tryEthereumFetch rpc init ethereum (Heap_init words) with
  | (Some (Ok f), h') => ended rpc init pools f h'
  | (_, h') => between rpc init pools h'
  end.
Proof.
  intros Hdir. unfold tryEthereumFetch. rewrite Hdir. simpl.
  unfold Loop_bind, Loop_do, tryLoop. simpl.
  apply (tryLoop_from_outcome (λ f h', ended rpc init pools f h')
           (λ h', between rpc init pools h')).
  - apply tryWithPool_outcome.
  - exists []. unfold made_of. split_and!; try done. apply NoDup_nil_2.
Qed.

Lemma record_made_of (ethereum : EthereumContext) words :
  brume ethereum !! chainId (chain ethereum) = Some pools →
  ∃ attempts,
    record_of_call rpc init ethereum words = call_steps attempts
    ∧ NoDup (pool_addresses attempts)
    ∧ Forall (attempt_drawn pools) attempts.
Proof.
  intros Hdir. unfold record_of_call.
  pose proof (tryEthereumFetch_outcome ethereum words Hdir) as Hrun.
  destruct (tryEthereumFetch rpc init ethereum (Heap_init words))
    as [[[f|e]|] h']; simpl.
  - destruct Hrun as (done & p & cs & conn & response & Hmade & _).
    by eexists.
  - destruct Hrun as (attempts & Hmade & _). by exists attempts.
  - destruct Hrun as (attempts & Hmade & _). by exists attempts.
Qed.

(** Connections of attempts on pools at addresses that differ are at
    addresses that differ, when no connection is in two pools. *)
Lemma attempts_conns_NoDup attempts :
  pools_share_nothing pools →
  NoDup (pool_addresses attempts) →
  Forall (attempt_drawn pools) attempts →
  NoDup (concat (conn_addresses <$> attempts)).
Proof.
  intros Hshare. induction attempts as [|a attempts IH]; csimpl.
  { intros _ _. apply NoDup_nil_2. }
  intros [Hnot Hnd]%NoDup_cons [(Hp & Hcs & Hnd_a) Hdrawn]%Forall_cons.
  apply NoDup_app. split_and!; [done | | by apply IH].
  intros x Hx Hx'. apply Hnot.
  apply list_elem_of_In, in_concat in Hx' as (l & Hl & Hx').
  apply list_elem_of_In in Hl, Hx'.
  apply list_elem_of_fmap in Hl as (a' & -> & Ha').
  unfold conn_addresses in Hx, Hx'.
  apply list_elem_of_fmap in Hx as (c & -> & Hc).
  apply list_elem_of_fmap in Hx' as (c' & Heq & Hc').
  rewrite Forall_forall in Hdrawn.
  destruct (Hdrawn a' Ha') as (Hp' & Hcs' & _).
  rewrite Forall_forall in Hcs, Hcs'.
  rewrite (Hshare (attempt_pool a) (attempt_pool a') c c'
             Hp Hp' (Hcs c Hc) (Hcs' c' Hc') Heq).
  unfold pool_addresses. apply list_elem_of_fmap. by exists a'.
Qed.

(** In the record of attempts, an [add] to [allTriedPools] is made on
    the set of all the pools added before it. *)
Lemma pool_steps_add before0 attempts pre before a post :
  pool_steps before0 attempts = pre ++ Add AllTriedPools before a :: post →
  before = list_to_set (before0 ++ pools_tried pre).
Proof.
  revert before0 pre.
  induction attempts as [|a0 attempts IH]; intros before0 pre; simpl.
  { by destruct pre. }
  destruct pre as [|s pre]; simpl.
  { intros [= <- _ _]. by rewrite app_nil_r. }
  intros [= <- Hrest]. destruct pre as [|s pre]; simpl in Hrest; [done|].
  injection Hrest as <- Hrest. simpl.
  apply app_eq_inv in Hrest as [(k & Hconns & Hk)|(k & -> & Hk)].
  - destruct k as [|s k]; simpl in Hk.
    + symmetry in Hk. apply (IH _ []) in Hk as ->.
      rewrite app_nil_r in Hconns. rewrite <- Hconns, pools_tried_conn_steps.
      simpl. by rewrite app_nil_r.
    + exfalso. injection Hk as <- _.
      assert (pools_tried (conn_steps [] (conn_addresses a0)) = []) as Hnone
        by apply pools_tried_conn_steps.
      rewrite Hconns, pools_tried_app in Hnone. simpl in Hnone.
      by destruct (pools_tried pre).
  - apply IH in Hk as ->.
    rewrite pools_tried_app, pools_tried_conn_steps. simpl.
    by rewrite <- app_assoc.
Qed.

End Shape.

(** C8: one call of the [tryLoop] variant of [tryEthereumFetch],
    whatever words the random source gives and however far the call
    gets.  Without a directory entry nothing is recorded.  With one,
    the record is the one of a list of attempts: [allTriedPools] is
    created once, before anything else; each pool is added to the set
    of all the pools added before it in the call, which did not hold
    it; [allTriedConns] is created once for each pool, right after the
    pool is added; each connection is added to the set of the
    connections added since, which did not hold it, and is then sent
    the request.  So no pool is selected twice in the call, no
    connection is selected twice for a pool, and no connection is
    selected twice in the call when no connection is in two pools.
    A set never loses an address: every [add] is made on the set of
    all that was added since the set was created, and adds an address
    that the set did not hold. *)
Theorem retry_loop_never_repeats {Json : Type}
    (rpc : TorRpc Json) (init : RpcRequestPreinit Json)
    (ethereum : EthereumContext) (words : list nat) :
  (brume ethereum !! chainId (chain ethereum) = None →
   RetrySteps.record_of_call rpc init ethereum words = [])
  ∧ (∀ pools,
       brume ethereum !! chainId (chain ethereum) = Some pools →
       (∃ attempts,
          RetrySteps.record_of_call rpc init ethereum words
          = RetrySteps.call_steps attempts
          ∧ NoDup (RetrySteps.pool_addresses attempts)
          ∧ Forall (RetrySteps.attempt_drawn pools) attempts)
       ∧ (RetrySteps.pools_share_nothing pools →
          NoDup (RetrySteps.fetched
                   (RetrySteps.record_of_call rpc init ethereum words))))
  ∧ NoDup (RetrySteps.pools_tried
             (RetrySteps.record_of_call rpc init ethereum words))
  ∧ (∀ pre before a post,
       RetrySteps.record_of_call rpc init ethereum words
       = pre ++ Add AllTriedPools before a :: post →
       before = list_to_set (RetrySteps.pools_tried pre) ∧ a ∉ before)
  ∧ (∀ pre before a post,
       RetrySteps.record_of_call rpc init ethereum words
       = pre ++ Add AllTriedConns before a :: post →
       before = list_to_set (RetrySteps.conns_kept [] pre) ∧ a ∉ before)
  ∧ (∃ last,
       follows Track_init
         (steps (tryEthereumFetch rpc init ethereum (Heap_init words)).2)
         (Track_of (tryEthereumFetch rpc init ethereum (Heap_init words)).2
            last))
  ∧ (∀ which,
       Forall NoDup
         (lifetimes which []
            (steps (tryEthereumFetch rpc init ethereum (Heap_init words)).2)))
  ∧ (∀ which before a,
       Add which before a
         ∈ steps (tryEthereumFetch rpc init ethereum (Heap_init words)).2 →
       a ∉ before).
Proof.
  assert (tracked (tryEthereumFetch rpc init ethereum (Heap_init words)).2)
    as [last Hf].
  { apply tryEthereumFetch_keeps_track. by exists None. }
  assert (brume ethereum !! chainId (chain ethereum) = None →
          RetrySteps.record_of_call rpc init ethereum words = []) as Hnone.
  { intros Hdir. unfold RetrySteps.record_of_call, tryEthereumFetch.
    by rewrite Hdir. }
  assert (∀ pools,
            brume ethereum !! chainId (chain ethereum) = Some pools →
            ∃ attempts,
              RetrySteps.record_of_call rpc init ethereum words
              = RetrySteps.call_steps attempts
              ∧ NoDup (RetrySteps.pool_addresses attempts)
              ∧ Forall (RetrySteps.attempt_drawn pools) attempts) as Hsome.
  { intros pools Hdir. by apply record_made_of. }
  split_and!.
  - done.
  - intros pools Hdir. split; [by apply Hsome|].
    intros Hshare. destruct (Hsome pools Hdir) as (attempts & -> & Hnd & Hdr).
    rewrite fetched_call_steps. by eapply attempts_conns_NoDup.
  - destruct (brume ethereum !! chainId (chain ethereum)) as [pools|] eqn:Hdir.
    + destruct (Hsome pools eq_refl) as (attempts & -> & Hnd & _).
      by rewrite pools_tried_call_steps.
    + rewrite Hnone by done. apply NoDup_nil_2.
  - intros pre before a post Hrecord. split.
    + destruct (brume ethereum !! chainId (chain ethereum))
        as [pools|] eqn:Hdir.
      * destruct (Hsome pools eq_refl) as (attempts & Hshape & _).
        rewrite Hshape in Hrecord. unfold RetrySteps.call_steps in Hrecord.
        destruct pre as [|s pre]; [done|]. injection Hrecord as <- Hrecord.
        by apply pool_steps_add in Hrecord.
      * rewrite Hnone in Hrecord by done. by destruct pre.
    + eapply follows_add_fresh; [exact Hf|].
      unfold RetrySteps.record_of_call in Hrecord. rewrite Hrecord.
      apply elem_of_app. right. by left.
  - intros pre before a post Hrecord.
    unfold RetrySteps.record_of_call in Hrecord. split.
    + by eapply (follows_conns_add _ _ _ []); [exact Hf | |].
    + eapply follows_add_fresh; [exact Hf|]. rewrite Hrecord.
      apply elem_of_app. right. by left.
  - by exists last.
  - intros which. eapply follows_lifetimes; [exact Hf | apply NoDup_nil_2 |].
    by intros x ?%elem_of_nil.
  - intros which before a. by eapply follows_add_fresh.
Qed.

End RetryLoopFacts.

(** ** The properties on concrete runs *)

Section Runs.

Import Scenario.

#[local] Ltac count_votes :=
  simpl; unfold raw_of, JSON_stringify, Stringify_text; simpl;
  repeat case_decide; simplify_eq; try lia; try done.

Example scenario_fetch_run :
  ServiceWorker.tryEthereumFetch rpc init ethereum
  = ([GetPool 0; GetConn 0 0; Send 0 0; GetConn 0 1; Send 0 1;
      GetPool 1; GetConn 1 0; Send 1 0; GetConn 1 1; Send 1 1],
     Fulfilled (Ok (Data P1))).
Proof. vm_compute. reflexivity. Qed.

Example scenario_retry_run :
  let run := ContentScript.tryEthereumFetch rpc init ethereum_refs
               (ContentScript.Heap_init [0; 0; 0; 1; 0; 1; 1; 1; 0]) in
  run.1 = Some (Ok (Data P1))
  ∧ ContentScript.lifetimes ContentScript.AllTriedPools []
      (ContentScript.steps run.2) = [[]; [10; 20]]%positive
  ∧ ContentScript.lifetimes ContentScript.AllTriedConns []
      (ContentScript.steps run.2) = [[]; [11; 12]; [22; 21]]%positive.
Proof. vm_compute. by split_and!. Qed.

Lemma consensus_strict_majority_witness :
  ∃ f, consensus [Fulfilled (Data "a"); Fulfilled (Data "b");
                  Fulfilled (Data "a"); Rejected Panic;
                  Fulfilled (Fail "b"); Fulfilled (Data "a")]
       = Fulfilled f
       ∧ Fulfilled f ∈ [Fulfilled (Data "a"); Fulfilled (Data "b");
                        Fulfilled (Data "a"); Rejected Panic;
                        Fulfilled (Fail "b"); Fulfilled (Data "a")]
       ∧ raw_of f = "a".
Proof.
  apply (proj2 consensus_strict_majority _ "a" "b").
  - done.
  - reflexivity.
  - reflexivity.
  - intros k Ha Hb. count_votes.
Defined.

Lemma consensus_tie_is_ambiguous_witness :
  consensus [Fulfilled (Data "a"); Fulfilled (Data "b");
             Fulfilled (Data "b"); Fulfilled (Data "a");
             Fulfilled (Data "b"); Fulfilled (Data "a")]
  = Rejected could_not_choose_truth
  ∧ verdict (consensus [Fulfilled (Data "a"); Fulfilled (Data "b");
                        Fulfilled (Data "b"); Fulfilled (Data "a");
                        Fulfilled (Data "b"); Fulfilled (Data "a")])
    = AmbiguousConsensus
  ∧ ∀ f, consensus [Fulfilled (Data "a"); Fulfilled (Data "b");
                    Fulfilled (Data "b"); Fulfilled (Data "a");
                    Fulfilled (Data "b"); Fulfilled (Data "a")]
         ≠ Fulfilled f.
Proof.
  apply (consensus_tie_is_ambiguous _ "a" "b").
  - done.
  - vm_compute. lia.
  - reflexivity.
  - intros k. count_votes.
Defined.

Lemma consensus_discards_rejections_witness :
  Fulfilled (Data "a")
  ∈ [Rejected Panic; Fulfilled (Data "a"); Rejected (Error "timeout")].
Proof.
  apply (proj2 (proj2 (proj2 (proj2 (proj2 consensus_discards_rejections))))).
  reflexivity.
Defined.

Lemma consensus_single_payload_witness :
  ∃ f, consensus [Rejected Panic; Fulfilled (Data "a");
                  Rejected (Error "timeout"); Fulfilled (Data "a")]
       = Fulfilled f
       ∧ Fulfilled f ∈ [Rejected Panic; Fulfilled (Data "a");
                        Rejected (Error "timeout"); Fulfilled (Data "a")]
       ∧ raw_of f = "a".
Proof.
  apply consensus_single_payload.
  - exists (Data "a"). right. by left.
  - intros f Hf. repeat (apply elem_of_cons in Hf as [Hf|Hf]; simplify_eq);
      [done | done | by apply elem_of_nil in Hf].
Defined.

Lemma consensus_no_responses_witness :
  consensus (Json := string) [Rejected Panic; Rejected (Error "timeout")]
  = Rejected (AggregateError (reasons (A := Fetched string)
                                [Rejected Panic; Rejected (Error "timeout")]))
  ∧ verdict (consensus (Json := string)
               [Rejected Panic; Rejected (Error "timeout")])
    = NoResponses.
Proof.
  apply consensus_no_responses.
  intros r Hr. repeat (apply elem_of_cons in Hr as [Hr|Hr]; [by eexists|]).
  by apply elem_of_nil in Hr.
Defined.

Lemma two_circuits_scenario_witness :
  (ServiceWorker.runWithPoolOrThrow rpc init
     (Pool_of_list [circuit_A; circuit_B]) 0).2 = Fulfilled (Data P1)
  ∧ (ServiceWorker.runWithPoolOrThrow rpc init
       (Pool_of_list [circuit_A; circuit_B]) 1).2
    = Rejected could_not_choose_truth
  ∧ (ServiceWorker.tryEthereumFetch rpc init ethereum).2
    = Fulfilled (Ok (Data P1)).
Proof.
  apply (two_circuits_scenario rpc init ethereum
           (Pool_of_list [circuit_A; circuit_B]) circuit_A circuit_B
           (conn_at "a0") (conn_at "a1") (conn_at "b0") (conn_at "b1") P1 P2);
    try reflexivity.
  vm_compute. intros [=].
Defined.

Lemma fetch_fans_out_over_full_capacity_witness :
  Send 1 1 ∈ (ServiceWorker.tryEthereumFetch rpc init ethereum).1
  ∧ ServiceWorker.tryEthereumFetch rpc init
      {| ServiceWorker.chain := {| chainId := 5 |};
         ServiceWorker.brume := ServiceWorker.brume ethereum |}
    = ([], Fulfilled (Err (Catched NoneError))).
Proof.
  split.
  - apply (proj2 (fetch_fans_out_over_full_capacity rpc init ethereum)
             (Pool_of_list [circuit_A; circuit_B]) eq_refl)
      with (pool := circuit_B) (conn := conn_at "b1");
      [simpl; lia | reflexivity | simpl; lia | reflexivity].
  - apply (proj1 (fetch_fans_out_over_full_capacity rpc init _)).
    reflexivity.
Defined.

Lemma retry_loop_never_repeats_witness :
  NoDup (RetrySteps.fetched
           (RetrySteps.record_of_call rpc init ethereum_refs
              [0; 0; 0; 1; 0; 1; 1; 1; 0])).
Proof.
  apply (proj2 (proj1 (proj2 (retry_loop_never_repeats rpc init ethereum_refs
                                [0; 0; 0; 1; 0; 1; 1; 1; 0]))
                  (Pool_of_list
                     [ref_circuit 10 [ref_conn 11 "x0"; ref_conn 12 "x1"];
                      ref_circuit 20 [ref_conn 21 "a0"; ref_conn 22 "x2"]])
                  eq_refl)).
  assert (∀ {A} (items : list (ContentScript.Ref A)) x,
            RetrySteps.drawn (Pool_of_list items) x → x ∈ items) as Hdrawn.
  { intros A items x [word Hword]. simpl in Hword.
    destruct (items !! _) as [item|] eqn:Hitem; [|done].
    injection Hword as <-. by eapply list_elem_of_lookup_2. }
  intros pool pool' conn conn' Hpool%Hdrawn Hpool'%Hdrawn Hconn Hconn' Haddr.
  repeat (apply elem_of_cons in Hpool as [->|Hpool]);
    [| |by apply elem_of_nil in Hpool];
    (repeat (apply elem_of_cons in Hpool' as [->|Hpool']);
       [| |by apply elem_of_nil in Hpool']);
    try done;
    apply Hdrawn in Hconn, Hconn';
    repeat (apply elem_of_cons in Hconn as [->|Hconn]);
    try (by apply elem_of_nil in Hconn);
    repeat (apply elem_of_cons in Hconn' as [->|Hconn']);
    try (by apply elem_of_nil in Hconn'); done.
Defined.

Lemma consensus_order_independent_witness :
  verdict (consensus [Fulfilled (Data "a"); Fulfilled (Data "b");
                      Fulfilled (Fail "a")])
  = verdict (consensus [Fulfilled (Data "b"); Fulfilled (Data "a");
                        Fulfilled (Fail "a")]).
Proof.
  apply consensus_order_independent. apply perm_swap.
Defined.

End Runs.

(** * Further properties *)

(** ** Modhash *)

Section ModhashFacts.

Import Modhash.

Lemma loop_sum units length a :
  length ≠ 0%Z → (0 ≤ a < Z.abs length)%Z →
  loop units length (Num a)
  = Num ((a + Z.of_nat (sum_list units)) `mod` Z.abs length).
Proof.
  intros Hlen. revert a. induction units as [|unit units IH]; intros a Ha; simpl.
  - rewrite Z.add_0_r. by rewrite Z.mod_small.
  - rewrite decide_False by done.
    rewrite <- Z.rem_abs_r by done.
    rewrite Z.rem_mod_nonneg by lia.
    rewrite IH by (apply Z.mod_pos_bound; lia).
    f_equal. rewrite Zplus_mod_idemp_l. f_equal. lia.
Qed.

(** X1: Modhash.from is the sum of the code units of the seed, reduced
    modulo the length; so it is an index below the length, whatever
    the seed. *)
Theorem Modhash_from_sum seed length :
  length ≠ 0%Z →
  ∃ n, from seed length = Num n
       ∧ n = (Z.of_nat (sum_list seed) `mod` Z.abs length)%Z
       ∧ (0 ≤ n < Z.abs length)%Z.
Proof.
  intros Hlen. exists (Z.of_nat (sum_list seed) `mod` Z.abs length)%Z.
  split_and!.
  - unfold from. rewrite loop_sum by (done || lia). by rewrite Z.add_0_l.
  - done.
  - apply Z.mod_pos_bound. lia.
  - apply Z.mod_pos_bound. lia.
Qed.

(** X2: the hash does not see the order of the characters, and the hash of
    a concatenation is the sum of the two hashes reduced again. *)
Theorem Modhash_from_compose length :
  length ≠ 0%Z →
  (∀ seed seed', seed ≡ₚ seed' → from seed length = from seed' length)
  ∧ (∀ seed1 seed2,
       from (seed1 ++ seed2) length
       = js_rem (js_add (from seed1 length) (from seed2 length)) (Num length)).
Proof.
  intros Hlen. split.
  - intros seed seed' Hperm. unfold from.
    rewrite !loop_sum by (done || lia). by rewrite Hperm.
  - intros seed1 seed2. unfold from.
    rewrite !loop_sum by (done || lia). simpl.
    rewrite decide_False by done. f_equal.
    rewrite <- Z.rem_abs_r by done.
    rewrite !Z.add_0_l.
    pose proof (Z.mod_pos_bound (Z.of_nat (sum_list seed1)) (Z.abs length)).
    pose proof (Z.mod_pos_bound (Z.of_nat (sum_list seed2)) (Z.abs length)).
    rewrite Z.rem_mod_nonneg by lia.
    rewrite <- Zplus_mod. f_equal. rewrite sum_list_with_app. simpl. lia.
Qed.

(** X3: with a zero length the empty seed still hashes to 0, and every
    other seed hashes to NaN. *)
Theorem Modhash_from_zero_length seed :
  from [] 0 = Num 0 ∧ (seed ≠ [] → from seed 0 = NaN).
Proof.
  split; [done|]. destruct seed as [|unit seed]; [done|]. intros _.
  unfold from. simpl. clear unit. induction seed as [|unit seed IH]; done.
Qed.

End ModhashFacts.

(** ** Ledger *)

Section LedgerFacts.

Import Ledger.

Variable device : list Apdu → Apdu → Result (list Z) Exn.
Variable Paths_from : string → Result (list Z) Exn.
Variable Bytes_toAscii : list Z → string.
Variable Rlp_read : list Z → Result RlpPrimitive Exn.
Variable Rlp_write : RlpPrimitive → list Z.

Lemma remaining_at msg o :
  remaining {| bytes := msg; offset := o |} = length msg - o.
Proof. done. Qed.

Lemma readOrThrow_at msg o n :
  n ≤ length msg - o →
  readOrThrow {| bytes := msg; offset := o |} (Z.of_nat n)
  = Ok (take n (drop o msg), {| bytes := msg; offset := o + n |}).
Proof.
  intros Hn. unfold readOrThrow. rewrite remaining_at. simpl.
  rewrite decide_False by lia. rewrite decide_False by lia.
  by rewrite Nat2Z.id.
Qed.

Lemma readUint8OrThrow_cons b rest :
  readUint8OrThrow (Cursor_new (b :: rest))
  = Ok (b, {| bytes := b :: rest; offset := 1 |}).
Proof. done. Qed.

Lemma take_take_next {A} (l : list A) o n k :
  take n (drop o l) ++ take k (drop (o + n) l) = take (n + k) (drop o l).
Proof. by rewrite <- drop_drop, take_take_drop. Qed.

Lemma writeOrThrow_fill msg o data :
  o + length data ≤ length msg →
  writeOrThrow {| bytes := msg; offset := o |} data
  = Ok {| bytes := take o msg ++ data ++ drop (o + length data) msg;
          offset := o + length data |}.
Proof.
  intros Hfit. unfold writeOrThrow. rewrite remaining_at. simpl.
  by rewrite decide_False by lia.
Qed.

(** The loop of [signPersonalMessageOrThrow], started anywhere in the
    message with fuel for what remains. *)
Lemma signPersonalMessage_while_run fuel msg o response sent :
  o ≤ length msg → length msg - o ≤ fuel →
  ∃ res reqs,
    signPersonalMessage_while device fuel {| bytes := msg; offset := o |}
      response sent = (Some res, sent ++ reqs)
    ∧ Forall (λ a, cla a = 0xe0%Z ∧ ins a = 0x08%Z ∧ p1 a = 0x80%Z
                   ∧ p2 a = 0%Z ∧ 0 < length (fragment a) ≤ 150) reqs
    ∧ (∃ k, concat (fragment <$> reqs) = take k (drop o msg))
    ∧ (∀ r, res = Fulfilled r → concat (fragment <$> reqs) = drop o msg).
Proof.
  revert o response sent.
  induction fuel as [|fuel IH]; intros o response sent Ho Hfuel.
  - exists (Fulfilled response), []. simpl. rewrite remaining_at.
    rewrite decide_True by lia. unfold Usb_return. rewrite app_nil_r.
    split_and!; [done | constructor | by exists 0 |].
    intros _ _. rewrite drop_ge by lia. done.
  - simpl. rewrite remaining_at.
    destruct (decide (length msg - o = 0)) as [Hz|Hnz].
    + exists (Fulfilled response), []. unfold Usb_return. rewrite app_nil_r.
      split_and!; [done | constructor | by exists 0 |].
      intros _ _. rewrite drop_ge by lia. done.
    + set (n := Nat.min 150 (length msg - o)).
      replace (Z.min 150 (Z.of_nat (length msg - o))) with (Z.of_nat n) by lia.
      unfold Usb_bind at 1. unfold orThrow.
      rewrite readOrThrow_at by lia.
      unfold Usb_bind at 1. unfold requestOrThrow.
      assert (length (take n (drop o msg)) = n) as Hlen.
      { rewrite length_take, length_drop. lia. }
      destruct (device sent _) as [response'|e].
      * destruct (IH (o + n) response' (sent ++ [{| cla := 224; ins := 8;
                       p1 := 128; p2 := 0; fragment := take n (drop o msg) |}]))
          as (res & reqs & Hrun & Hall & [k Hk] & Hfull); [lia | lia |].
        exists res, ({| cla := 224; ins := 8; p1 := 128; p2 := 0;
                        fragment := take n (drop o msg) |} :: reqs).
        rewrite Hrun. split_and!.
        -- by rewrite <- app_assoc.
        -- constructor; [simpl; rewrite Hlen; lia | done].
        -- exists (n + k). csimpl. rewrite Hk. apply take_take_next.
        -- intros r Hr. csimpl. rewrite (Hfull r Hr).
           rewrite <- drop_drop. apply take_drop.
      * exists (Rejected e), [{| cla := 224; ins := 8; p1 := 128; p2 := 0;
                                 fragment := take n (drop o msg) |}].
        split_and!; [done | | | done].
        -- constructor; [simpl; rewrite Hlen; lia | constructor].
        -- exists n. csimpl. by rewrite app_nil_r.
Qed.

Lemma writeOrThrow_append pre data n :
  length data ≤ n →
  writeOrThrow {| bytes := pre ++ replicate n 0%Z; offset := length pre |} data
  = Ok {| bytes := (pre ++ data) ++ replicate (n - length data) 0%Z;
          offset := length (pre ++ data) |}.
Proof.
  intros Hfit. rewrite writeOrThrow_fill
    by (rewrite length_app, length_replicate; lia).
  f_equal. f_equal; [|by rewrite length_app].
  rewrite take_app_length, <- app_assoc. do 2 f_equal.
  rewrite drop_app_add', drop_replicate; done.
Qed.

(** What [signPersonalMessageOrThrow] sends and when it returns. *)
Lemma signPersonalMessageOrThrow_run path paths message :
  Paths_from path = Ok paths →
  length paths + 4 ≤ 150 →
  ∃ res first rest,
    signPersonalMessageOrThrow device Paths_from path message []
    = (Some res, first :: rest)
    ∧ (cla first = 0xe0%Z ∧ ins first = 0x08%Z ∧ p1 first = 0%Z ∧ p2 first = 0%Z)
    ∧ fragment first
      = paths ++ uint32_bytes (Z.of_nat (length message))
        ++ take (146 - length paths) message
    ∧ Forall (λ a, cla a = 0xe0%Z ∧ ins a = 0x08%Z ∧ p1 a = 0x80%Z
                   ∧ p2 a = 0%Z ∧ 0 < length (fragment a) ≤ 150) rest
    ∧ (∃ k, payload (length paths + 4) (first :: rest) = take k message)
    ∧ (∀ signature, res = Fulfilled signature →
                    payload (length paths + 4) (first :: rest) = message).
Proof.
  intros Hpaths Hhead. unfold signPersonalMessageOrThrow.
  unfold Usb_bind at 1. rewrite Hpaths. cbn [orThrow]. cbv zeta.
  set (n := Nat.min (146 - length paths) (length message)).
  assert (length (take n message) = n) as Hchunk by (rewrite length_take; lia).
  assert (take n message = take (146 - length paths) message) as Hn.
  { unfold n. destruct (decide (146 - length paths ≤ length message)).
    - by rewrite Nat.min_l by done.
    - rewrite Nat.min_r by lia. rewrite !take_ge; [done | lia | lia]. }
  replace (Z.min (150 - (Z.of_nat (length paths) + 4))
             (Z.of_nat (remaining (Cursor_new message))))
    with (Z.of_nat n) by (unfold remaining, Cursor_new; simpl; lia).
  replace (Z.to_nat (Z.of_nat (length paths) + 4 + Z.of_nat n))
    with (length paths + (4 + n)) by lia.
  assert (readOrThrow (Cursor_new message) (Z.of_nat n)
          = Ok (take n message, {| bytes := message; offset := 0 + n |})) as Hread.
  { unfold Cursor_new. rewrite readOrThrow_at by lia. by rewrite drop_0. }
  assert (writeOrThrow (Cursor_new (replicate (length paths + (4 + n)) 0%Z)) paths
          = Ok {| bytes := paths ++ replicate (4 + n) 0%Z;
                  offset := length paths |}) as Hw1.
  { pose proof (writeOrThrow_append [] paths (length paths + (4 + n))
                  ltac:(lia)) as Hw.
    cbn [app length] in Hw. unfold Cursor_new. rewrite Hw.
    by replace (length paths + (4 + n) - length paths) with (4 + n) by lia. }
  assert (writeUint32OrThrow
            {| bytes := paths ++ replicate (4 + n) 0%Z; offset := length paths |}
            (Z.of_nat (length message))
          = Ok {| bytes := (paths ++ uint32_bytes (Z.of_nat (length message)))
                           ++ replicate n 0%Z;
                  offset := length (paths ++ uint32_bytes
                                      (Z.of_nat (length message))) |}) as Hw2.
  { unfold writeUint32OrThrow. rewrite writeOrThrow_append by (simpl; lia).
    by replace (4 + n - length (uint32_bytes (Z.of_nat (length message))))
      with n by (simpl; lia). }
  assert (writeOrThrow
            {| bytes := (paths ++ uint32_bytes (Z.of_nat (length message)))
                        ++ replicate n 0%Z;
               offset := length (paths ++ uint32_bytes
                                   (Z.of_nat (length message))) |}
            (take n message)
          = Ok {| bytes := paths ++ uint32_bytes (Z.of_nat (length message))
                           ++ take n message;
                  offset := length ((paths ++ uint32_bytes
                                       (Z.of_nat (length message)))
                                    ++ take n message) |}) as Hw3.
  { rewrite writeOrThrow_append by lia. rewrite Hchunk, Nat.sub_diag. simpl.
    by rewrite app_nil_r, <- app_assoc. }
  unfold Usb_bind at 1. rewrite Hread. cbn [orThrow].
  unfold Usb_bind at 1. rewrite Hw1. cbn [orThrow].
  unfold Usb_bind at 1. rewrite Hw2. cbn [orThrow].
  unfold Usb_bind at 1. rewrite Hw3. cbn [orThrow bytes].
  set (first := {| cla := 224; ins := 8; p1 := 0; p2 := 0;
                   fragment := paths ++ uint32_bytes (Z.of_nat (length message))
                               ++ take n message |}).
  unfold Usb_bind at 1. unfold requestOrThrow at 1. simpl app.
  assert (drop (length paths + 4) (fragment first) = take n message) as Hdrop.
  { simpl. by rewrite drop_app_add'. }
  destruct (device [] first) as [response|e].
  - destruct (signPersonalMessage_while_run (length message) message (0 + n)
                response [first]) as (lres & reqs & Hrun & Hall & [k Hk] & Hfull);
      [lia | lia |].
    unfold Usb_bind at 1. rewrite Hrun.
    assert (∃ res,
      match lres with
      | Fulfilled a =>
          (usb ' (v, cursor) <- orThrow (readUint8OrThrow (Cursor_new a));
           usb ' (r, cursor0) <- orThrow (readOrThrow cursor 32);
           usb ' (s, _) <- orThrow (readOrThrow cursor0 32);
           Usb_return {| sig_v := v - 27; sig_r := r; sig_s := s |})
            ([first] ++ reqs)
      | Rejected e => (Some (Rejected e), [first] ++ reqs)
      end = (Some res, first :: reqs)
      ∧ (∀ signature, res = Fulfilled signature → ∃ a, lres = Fulfilled a))
      as (res & -> & Hres).
    { destruct lres as [a|e]; [|by exists (Rejected e)].
      unfold Usb_bind, orThrow, Usb_return.
      destruct (readUint8OrThrow _) as [[v c]|e]; [|by exists (Rejected e)].
      destruct (readOrThrow c 32) as [[r c']|e]; [|by exists (Rejected e)].
      destruct (readOrThrow c' 32) as [[s c'']|e]; [|by exists (Rejected e)].
      eexists. split; [done|]. intros _ _. by exists a. }
    exists res, first, reqs. split_and!; try done.
    + simpl. by rewrite Hn.
    + exists (n + k). unfold payload. rewrite Hdrop, Hk.
      pose proof (take_take_next message 0 n k) as Htake.
      by rewrite !drop_0 in Htake.
    + intros signature Hsig. destruct (Hres _ Hsig) as [a Ha].
      unfold payload. rewrite Hdrop, (Hfull a Ha). simpl. apply take_drop.
  - exists (Rejected e), first, []. split_and!; try done.
    + simpl. by rewrite Hn.
    + exists n. unfold payload. rewrite Hdrop. csimpl. by rewrite app_nil_r.
Qed.

(** X4: every command of [signPersonalMessageOrThrow] carries at most 150
    bytes; the first one opens the message ([p1 = 0x00]) with the
    path, the length of the message on four bytes and its first bytes,
    the others continue it ([p1 = 0x80]); the loop always ends. *)
Theorem signPersonalMessage_framing path paths message :
  Paths_from path = Ok paths →
  length paths + 4 ≤ 150 →
  ∃ res first rest,
    signPersonalMessageOrThrow device Paths_from path message []
    = (Some res, first :: rest)
    ∧ p1 first = 0x00%Z
    ∧ fragment first
      = paths ++ uint32_bytes (Z.of_nat (length message))
        ++ take (146 - length paths) message
    ∧ Forall (λ a, p1 a = 0x80%Z ∧ 0 < length (fragment a)) rest
    ∧ Forall (λ a, cla a = 0xe0%Z ∧ ins a = 0x08%Z ∧ p2 a = 0x00%Z
                   ∧ length (fragment a) ≤ 150) (first :: rest).
Proof.
  intros Hpaths Hhead.
  destruct (signPersonalMessageOrThrow_run path paths message Hpaths Hhead)
    as (res & first & rest & Hrun & (Hcla & Hins & Hp1 & Hp2) & Hfirst
        & Hrest & _).
  exists res, first, rest. split_and!; [done | done | done | |].
  - eapply Forall_impl; [exact Hrest|]. simpl. clear. intros a. tauto.
  - constructor.
    + split_and!; [done | done | done |]. rewrite Hfirst.
      rewrite !length_app, length_take. simpl. lia.
    + eapply Forall_impl; [exact Hrest|]. simpl. clear. intros a. tauto.
Qed.

(** X5: the bytes that [signPersonalMessageOrThrow] has handed to the
    device are always a beginning of the message, in order and without
    a gap; when it returns a signature they are the whole message. *)
Theorem signPersonalMessage_reassembles path paths message :
  Paths_from path = Ok paths →
  length paths + 4 ≤ 150 →
  ∃ res sent,
    signPersonalMessageOrThrow device Paths_from path message [] = (Some res, sent)
    ∧ (∃ k, payload (length paths + 4) sent = take k message)
    ∧ (∀ signature, res = Fulfilled signature →
                    payload (length paths + 4) sent = message).
Proof.
  intros Hpaths Hhead.
  destruct (signPersonalMessageOrThrow_run path paths message Hpaths Hhead)
    as (res & first & rest & Hrun & _ & _ & _ & Hprefix & Hfull).
  by exists res, (first :: rest).
Qed.

Lemma concat_nil_nonempty (reqs : list Apdu) :
  Forall (λ a, 0 < length (fragment a)) reqs →
  concat (fragment <$> reqs) = [] → reqs = [].
Proof.
  intros Hall Hnil. destruct reqs as [|a reqs]; [done|].
  apply Forall_cons in Hall as [Ha _]. csimpl in Hnil.
  apply app_eq_nil in Hnil as [Hnil _]. rewrite Hnil in Ha. simpl in Ha. lia.
Qed.

(** The loop of [signTransactionOrThrow], started anywhere in the
    transaction with fuel for what remains. *)
Lemma signTransaction_while_run fuel unprotected msg o response sent :
  o ≤ length msg → length msg - o ≤ fuel →
  ∃ res reqs,
    signTransaction_while device fuel unprotected
      {| bytes := msg; offset := o |} response sent = (Some res, sent ++ reqs)
    ∧ Forall (λ a, cla a = 0xe0%Z ∧ ins a = 0x04%Z ∧ p1 a = 0x80%Z
                   ∧ p2 a = 0%Z ∧ 0 < length (fragment a)) reqs
    ∧ (∃ k, concat (fragment <$> reqs) = take k (drop o msg))
    ∧ (∀ r, res = Fulfilled r → concat (fragment <$> reqs) = drop o msg)
    ∧ (∀ pre a post,
         reqs = pre ++ a :: post → post ≠ [] →
         length (fragment a) ≤ 150
         ∧ ∀ u, unprotected = Some u →
                o + length (concat (fragment <$> (pre ++ [a]))) < length u).
Proof.
  revert o response sent.
  induction fuel as [|fuel IH]; intros o response sent Ho Hfuel.
  - exists (Fulfilled response), []. simpl. rewrite remaining_at.
    rewrite decide_True by lia. unfold Usb_return. rewrite app_nil_r.
    split_and!; [done | constructor | by exists 0 | |].
    + intros _ _. rewrite drop_ge by lia. done.
    + intros pre a post Heq. by destruct pre.
  - simpl. rewrite remaining_at.
    destruct (decide (length msg - o = 0)) as [Hz|Hnz].
    + exists (Fulfilled response), []. unfold Usb_return. rewrite app_nil_r.
      split_and!; [done | constructor | by exists 0 | |].
      * intros _ _. rewrite drop_ge by lia. done.
      * intros pre a post Heq. by destruct pre.
    + set (body := protect unprotected {| bytes := msg; offset := o |}
                     (Z.min 150 (Z.of_nat (length msg - o)))).
      assert (∃ n, body = Z.of_nat n ∧ 0 < n ≤ length msg - o
                   ∧ (n < length msg - o →
                      n ≤ 150 ∧ ∀ u, unprotected = Some u → o + n < length u))
        as (n & -> & Hn & Htweak).
      { unfold body, protect. destruct unprotected as [u|].
        - rewrite remaining_at. simpl. case_decide.
          + exists (length msg - o). split_and!; [done | lia | lia | lia].
          + exists (Nat.min 150 (length msg - o)).
            split_and!; [lia | lia | lia |].
            intros _. split; [lia|]. intros u' [= <-]. lia.
        - exists (Nat.min 150 (length msg - o)).
          split_and!; [lia | lia | lia |]. intros _. split; [lia | done]. }
      unfold Usb_bind at 1. unfold orThrow.
      rewrite readOrThrow_at by lia.
      unfold Usb_bind at 1. unfold requestOrThrow.
      assert (length (take n (drop o msg)) = n) as Hlen.
      { rewrite length_take, length_drop. lia. }
      set (req := {| cla := 224; ins := 4; p1 := 128; p2 := 0;
                     fragment := take n (drop o msg) |}).
      destruct (device sent req) as [response'|e].
      * destruct (IH (o + n) response' (sent ++ [req]))
          as (res & reqs & Hrun & Hall & [k Hk] & Hfull & Hbound); [lia | lia |].
        exists res, (req :: reqs). rewrite Hrun. split_and!.
        -- by rewrite <- app_assoc.
        -- constructor; [simpl; rewrite Hlen; lia | done].
        -- exists (n + k). csimpl. rewrite Hk. apply take_take_next.
        -- intros r Hr. csimpl. rewrite (Hfull r Hr).
           rewrite <- drop_drop. apply take_drop.
        -- intros pre a post Heq Hpost.
           assert (n < length msg - o) as Hlt.
           { destruct (decide (n < length msg - o)) as [|Hge]; [done|].
             exfalso. assert (reqs = []) as ->.
             { apply concat_nil_nonempty.
               - eapply Forall_impl; [exact Hall|]. simpl. clear. intros a. tauto.
               - rewrite Hk. rewrite drop_ge by lia. by rewrite take_nil. }
             destruct pre as [|? [|? ?]]; simpl in Heq; simplify_eq; done. }
           destruct (Htweak Hlt) as [H150 Hu].
           destruct pre as [|a0 pre]; simpl in Heq; simplify_eq.
           ++ split; [simpl; lia|]. intros u Hsome. csimpl.
              rewrite app_nil_r, Hlen. by apply Hu.
           ++ destruct (Hbound pre a post eq_refl Hpost) as [Ha Hau].
              split; [done|]. intros u Hsome. specialize (Hau u Hsome).
              csimpl. rewrite length_app, Hlen. lia.
      * exists (Rejected e), [req].
        split_and!; [done | | | done |].
        -- constructor; [simpl; rewrite Hlen; lia | constructor].
        -- exists n. csimpl. by rewrite app_nil_r.
        -- intros pre a post Heq Hpost.
           destruct pre as [|? [|? ?]]; simpl in Heq; simplify_eq; done.
Qed.

(** What [signTransactionOrThrow] sends and when it returns. *)
Lemma signTransactionOrThrow_run path paths slice unprotected :
  Paths_from path = Ok paths →
  length paths ≤ 150 →
  readLegacyUnprotectedOrThrow Rlp_read Rlp_write slice = Ok unprotected →
  ∃ res first rest,
    signTransactionOrThrow device Paths_from Rlp_read Rlp_write path slice []
    = (Some res, first :: rest)
    ∧ (cla first = 0xe0%Z ∧ ins first = 0x04%Z ∧ p1 first = 0%Z ∧ p2 first = 0%Z)
    ∧ (∃ n, fragment first = paths ++ take n slice)
    ∧ Forall (λ a, cla a = 0xe0%Z ∧ ins a = 0x04%Z ∧ p1 a = 0x80%Z
                   ∧ p2 a = 0%Z ∧ 0 < length (fragment a)) rest
    ∧ (∃ k, payload (length paths) (first :: rest) = take k slice)
    ∧ (∀ signature, res = Fulfilled signature →
                    payload (length paths) (first :: rest) = slice)
    ∧ (∀ pre a post,
         first :: rest = pre ++ a :: post → post ≠ [] →
         length (fragment a) ≤ 150
         ∧ ∀ u, unprotected = Some u →
                length (payload (length paths) (pre ++ [a])) < length u).
Proof.
  intros Hpaths Hhead Hlegacy. unfold signTransactionOrThrow.
  unfold Usb_bind at 1. rewrite Hpaths. cbn [orThrow]. cbv zeta.
  unfold Usb_bind at 1. rewrite Hlegacy. cbn [orThrow].
  set (body := protect unprotected (Cursor_new slice)
                 (Z.min (150 - Z.of_nat (length paths))
                    (Z.of_nat (remaining (Cursor_new slice))))).
  assert (∃ n, body = Z.of_nat n ∧ n ≤ length slice
               ∧ (n < length slice →
                  length paths + n ≤ 150
                  ∧ ∀ u, unprotected = Some u → n < length u))
    as (n & -> & Hn & Htweak).
  { unfold body, protect, remaining, Cursor_new. simpl.
    rewrite Nat.sub_0_r. destruct unprotected as [u|].
    - case_decide.
      + exists (length slice). split_and!; [done | lia | lia].
      + exists (Nat.min (150 - length paths) (length slice)).
        split_and!; [lia | lia |].
        intros _. split; [lia|]. intros u' [= <-]. lia.
    - exists (Nat.min (150 - length paths) (length slice)).
      split_and!; [lia | lia |]. intros _. split; [lia | done]. }
  assert (length (take n slice) = n) as Hchunk by (rewrite length_take; lia).
  replace (Z.to_nat (Z.of_nat (length paths) + Z.of_nat n))
    with (length paths + n) by lia.
  assert (readOrThrow (Cursor_new slice) (Z.of_nat n)
          = Ok (take n slice, {| bytes := slice; offset := 0 + n |})) as Hread.
  { unfold Cursor_new. rewrite readOrThrow_at by lia. by rewrite drop_0. }
  assert (writeOrThrow (Cursor_new (replicate (length paths + n) 0%Z)) paths
          = Ok {| bytes := paths ++ replicate n 0%Z;
                  offset := length paths |}) as Hw1.
  { pose proof (writeOrThrow_append [] paths (length paths + n)
                  ltac:(lia)) as Hw.
    cbn [app length] in Hw. unfold Cursor_new. rewrite Hw.
    by replace (length paths + n - length paths) with n by lia. }
  assert (writeOrThrow
            {| bytes := paths ++ replicate n 0%Z; offset := length paths |}
            (take n slice)
          = Ok {| bytes := paths ++ take n slice;
                  offset := length (paths ++ take n slice) |}) as Hw2.
  { rewrite writeOrThrow_append by lia. rewrite Hchunk, Nat.sub_diag. simpl.
    by rewrite app_nil_r. }
  unfold Usb_bind at 1. rewrite Hread. cbn [orThrow].
  unfold Usb_bind at 1. rewrite Hw1. cbn [orThrow].
  unfold Usb_bind at 1. rewrite Hw2. cbn [orThrow bytes].
  set (first := {| cla := 224; ins := 4; p1 := 0; p2 := 0;
                   fragment := paths ++ take n slice |}).
  unfold Usb_bind at 1. unfold requestOrThrow at 1. simpl app.
  assert (drop (length paths) (paths ++ take n slice) = take n slice) as Hdrop
    by (by rewrite drop_app_length).
  destruct (device [] first) as [response|e].
  - destruct (signTransaction_while_run (length slice) unprotected slice (0 + n)
                response [first])
      as (lres & reqs & Hrun & Hall & [k Hk] & Hfull & Hbound); [lia | lia |].
    unfold Usb_bind at 1. rewrite Hrun.
    assert (∃ res,
      match lres with
      | Fulfilled a =>
          (usb ' (v, cursor) <- orThrow (readUint8OrThrow (Cursor_new a));
           usb ' (r, cursor0) <- orThrow (readOrThrow cursor 32);
           usb ' (s, _) <- orThrow (readOrThrow cursor0 32);
           Usb_return {| sig_v := v; sig_r := r; sig_s := s |})
            ([first] ++ reqs)
      | Rejected e => (Some (Rejected e), [first] ++ reqs)
      end = (Some res, first :: reqs)
      ∧ (∀ signature, res = Fulfilled signature → ∃ a, lres = Fulfilled a))
      as (res & -> & Hres).
    { destruct lres as [a|e]; [|by exists (Rejected e)].
      unfold Usb_bind, orThrow, Usb_return.
      destruct (readUint8OrThrow _) as [[v c]|e]; [|by exists (Rejected e)].
      destruct (readOrThrow c 32) as [[r c']|e]; [|by exists (Rejected e)].
      destruct (readOrThrow c' 32) as [[s c'']|e]; [|by exists (Rejected e)].
      eexists. split; [done|]. intros _ _. by exists a. }
    exists res, first, reqs. split_and!; try done.
    + by exists n.
    + exists (n + k). unfold payload. cbn [fragment first]. rewrite Hdrop, Hk.
      pose proof (take_take_next slice 0 n k) as Htake.
      by rewrite !drop_0 in Htake.
    + intros signature Hsig. destruct (Hres _ Hsig) as [a Ha].
      unfold payload. cbn [fragment first]. rewrite Hdrop, (Hfull a Ha).
      simpl. apply take_drop.
    + intros pre a post Heq Hpost.
      assert (n < length slice) as Hlt.
      { destruct (decide (n < length slice)) as [|Hge]; [done|].
        exfalso. assert (reqs = []) as ->.
        { apply concat_nil_nonempty.
          - eapply Forall_impl; [exact Hall|]. simpl. clear. intros a. tauto.
          - rewrite Hk. rewrite drop_ge by lia. by rewrite take_nil. }
        destruct pre as [|? [|? ?]]; simpl in Heq; simplify_eq; done. }
      destruct (Htweak Hlt) as [H150 Hu].
      destruct pre as [|a0 pre]; simpl in Heq; simplify_eq.
      * split; [simpl; rewrite length_app, Hchunk; lia|].
        intros u Hsome. unfold payload. cbn [app fragment]. rewrite Hdrop.
        csimpl. rewrite app_nil_r, Hchunk. by apply Hu.
      * destruct (Hbound pre a post eq_refl Hpost) as [Ha Hau].
        split; [done|]. intros u Hsome. specialize (Hau u Hsome).
        unfold payload. cbn [app fragment]. rewrite Hdrop, length_app, Hchunk.
        lia.
  - exists (Rejected e), first, []. split_and!; try done.
    + by exists n.
    + exists n. unfold payload. cbn [fragment first]. rewrite Hdrop. csimpl.
      by rewrite app_nil_r.
    + intros pre a post Heq Hpost.
      destruct pre as [|? [|? ?]]; simpl in Heq; simplify_eq; done.
Qed.

(** X6: the bytes that [signTransactionOrThrow] has handed to the device
    are always a beginning of the serialised transaction, in order and
    without a gap; when it returns a signature they are the whole
    transaction.  The first command has [p1 = 0x00] and starts with the
    path, the others have [p1 = 0x80]; the loop always ends. *)
Theorem signTransaction_reassembles path paths slice unprotected :
  Paths_from path = Ok paths →
  length paths ≤ 150 →
  readLegacyUnprotectedOrThrow Rlp_read Rlp_write slice = Ok unprotected →
  ∃ res first rest,
    signTransactionOrThrow device Paths_from Rlp_read Rlp_write path slice []
    = (Some res, first :: rest)
    ∧ p1 first = 0x00%Z
    ∧ take (length paths) (fragment first) = paths
    ∧ Forall (λ a, p1 a = 0x80%Z) rest
    ∧ (∃ k, payload (length paths) (first :: rest) = take k slice)
    ∧ (∀ signature, res = Fulfilled signature →
                    payload (length paths) (first :: rest) = slice).
Proof.
  intros Hpaths Hhead Hlegacy.
  destruct (signTransactionOrThrow_run path paths slice unprotected
              Hpaths Hhead Hlegacy)
    as (res & first & rest & Hrun & (_ & _ & Hp1 & _) & [n Hfirst] & Hrest
        & Hprefix & Hfull & _).
  exists res, first, rest. split_and!; try done.
  - rewrite Hfirst. by rewrite take_app_length.
  - eapply Forall_impl; [exact Hrest|]. simpl. clear. intros a. tauto.
Qed.

(** X7: no command of [signTransactionOrThrow] but the last one ends at or
    after the end of the unprotected part of a replay-protected
    transaction, and every command but the last one carries at most
    150 bytes. *)
Theorem signTransaction_keeps_marker_whole path paths slice unprotected :
  Paths_from path = Ok paths →
  length paths ≤ 150 →
  readLegacyUnprotectedOrThrow Rlp_read Rlp_write slice = Ok unprotected →
  ∀ pre a post,
    (signTransactionOrThrow device Paths_from Rlp_read Rlp_write path slice []).2
    = pre ++ a :: post →
    post ≠ [] →
    length (fragment a) ≤ 150
    ∧ ∀ u, unprotected = Some u →
           length (payload (length paths) (pre ++ [a])) < length u.
Proof.
  intros Hpaths Hhead Hlegacy pre a post.
  destruct (signTransactionOrThrow_run path paths slice unprotected
              Hpaths Hhead Hlegacy)
    as (res & first & rest & -> & _ & _ & _ & _ & _ & Hbound).
  simpl. apply Hbound.
Qed.

Lemma readUint8OrThrow_inv msg o b c :
  readUint8OrThrow {| bytes := msg; offset := o |} = Ok (b, c) →
  drop o msg = b :: drop (o + 1) msg ∧ c = {| bytes := msg; offset := o + 1 |}.
Proof.
  unfold readUint8OrThrow. simpl.
  destruct (msg !! o) as [b'|] eqn:Hb; [|done]. intros [= <- <-].
  split; [|done]. rewrite Nat.add_1_r. by apply drop_S.
Qed.

Lemma readOrThrow_inv msg o n chunk c :
  readOrThrow {| bytes := msg; offset := o |} n = Ok (chunk, c) →
  (0 ≤ n)%Z
  ∧ length chunk = Z.to_nat n
  ∧ drop o msg = chunk ++ drop (o + Z.to_nat n) msg
  ∧ c = {| bytes := msg; offset := o + Z.to_nat n |}.
Proof.
  unfold readOrThrow. rewrite remaining_at. simpl.
  destruct (decide (n < 0)%Z); [done|].
  destruct (decide (Z.of_nat (length msg - o) < n)%Z); [done|].
  intros [= <- <-]. split_and!; [lia | | | done].
  - rewrite length_take, length_drop. lia.
  - rewrite <- drop_drop. by rewrite take_drop.
Qed.

Lemma readUint8OrThrow_at msg o b rest :
  drop o msg = b :: rest →
  readUint8OrThrow {| bytes := msg; offset := o |}
  = Ok (b, {| bytes := msg; offset := o + 1 |}).
Proof.
  intros Hdrop. unfold readUint8OrThrow. simpl.
  assert (msg !! o = Some b) as ->; [|done].
  rewrite <- (Nat.add_0_r o), <- lookup_drop, Hdrop. done.
Qed.

Lemma readOrThrow_app msg o chunk rest :
  drop o msg = chunk ++ rest →
  readOrThrow {| bytes := msg; offset := o |} (Z.of_nat (length chunk))
  = Ok (chunk, {| bytes := msg; offset := o + length chunk |}).
Proof.
  intros Hdrop.
  assert (length chunk ≤ length msg - o) as Hlen.
  { rewrite <- length_drop, Hdrop, length_app. lia. }
  rewrite readOrThrow_at by done. by rewrite Hdrop, take_app_length.
Qed.

(** X8: the answer to the address request is read as: one byte for the
    length of the public key, the key, one byte for the length of the
    address, the address, and 32 bytes of chain code.  An answer of
    that shape is returned as it is, whatever follows it. *)
Theorem getAddress_reads_answer path paths response pk addr cc extra :
  Paths_from path = Ok paths →
  device [] {| cla := 0xe0; ins := 0x02; p1 := 0x00; p2 := 0x01;
               fragment := paths |} = Ok response →
  response = Z.of_nat (length pk) :: pk
             ++ Z.of_nat (length addr) :: addr ++ cc ++ extra →
  length cc = 32 →
  getAddressOrThrow device Paths_from Bytes_toAscii path []
  = (Some (Fulfilled {| uncompressedPublicKey := pk;
                        address := "0x" +:+ Bytes_toAscii addr;
                        chaincode := cc |}),
     [{| cla := 0xe0; ins := 0x02; p1 := 0x00; p2 := 0x01;
         fragment := paths |}]).
Proof.
  intros Hpaths Hdevice Hshape Hcc. unfold getAddressOrThrow.
  unfold Usb_bind at 1. rewrite Hpaths. cbn [orThrow].
  unfold Usb_bind at 1. unfold requestOrThrow at 1. rewrite Hdevice.
  simpl app. unfold Cursor_new.
  assert (drop 0 response = Z.of_nat (length pk) :: pk
            ++ Z.of_nat (length addr) :: addr ++ cc ++ extra) as H0
    by (by rewrite drop_0).
  assert (drop (0 + 1) response
          = pk ++ Z.of_nat (length addr) :: addr ++ cc ++ extra) as H1
    by (by rewrite Hshape).
  assert (drop (0 + 1 + length pk) response
          = Z.of_nat (length addr) :: addr ++ cc ++ extra) as H2.
  { rewrite <- drop_drop, H1. by rewrite drop_app_length. }
  assert (drop (0 + 1 + length pk + 1) response = addr ++ cc ++ extra) as H3.
  { rewrite <- drop_drop, H2. done. }
  assert (drop (0 + 1 + length pk + 1 + length addr) response = cc ++ extra)
    as H4.
  { rewrite <- drop_drop, H3. by rewrite drop_app_length. }
  unfold Usb_bind at 1. rewrite (readUint8OrThrow_at _ _ _ _ H0). cbn [orThrow].
  unfold Usb_bind at 1. rewrite (readOrThrow_app _ _ _ _ H1). cbn [orThrow].
  unfold Usb_bind at 1. rewrite (readUint8OrThrow_at _ _ _ _ H2). cbn [orThrow].
  unfold Usb_bind at 1. rewrite (readOrThrow_app _ _ _ _ H3). cbn [orThrow].
  unfold Usb_bind at 1. change 32%Z with (Z.of_nat 32). rewrite <- Hcc.
  rewrite (readOrThrow_app _ _ _ _ H4). cbn [orThrow]. done.
Qed.

(** X9: when [getAddressOrThrow] or [verifyAndGetAddressOrThrow] returns,
    exactly one command was sent (with [p1 = 0x00] and [p1 = 0x01]),
    the device answered it, and the answer holds the returned key,
    address and 32 bytes of chain code behind their length bytes:
    nothing is returned from a shorter answer. *)
Theorem getAddress_returns_whole_fields path :
  ∀ verify result sent,
    (if verify : bool
     then verifyAndGetAddressOrThrow device Paths_from Bytes_toAscii path []
     else getAddressOrThrow device Paths_from Bytes_toAscii path [])
    = (Some (Fulfilled result), sent) →
    ∃ paths response addr extra,
      Paths_from path = Ok paths
      ∧ sent = [{| cla := 0xe0; ins := 0x02;
                   p1 := if verify then 0x01 else 0x00; p2 := 0x01;
                   fragment := paths |}]
      ∧ device [] {| cla := 0xe0; ins := 0x02;
                     p1 := if verify then 0x01 else 0x00; p2 := 0x01;
                     fragment := paths |} = Ok response
      ∧ response
        = Z.of_nat (length (uncompressedPublicKey result))
          :: uncompressedPublicKey result
          ++ Z.of_nat (length addr) :: addr ++ chaincode result ++ extra
      ∧ address result = "0x" +:+ Bytes_toAscii addr
      ∧ length (chaincode result) = 32.
Proof.
  intros verify result sent.
  assert (∀ p1v,
    (usb ' paths <- orThrow (Paths_from path);
     usb ' response <- requestOrThrow device
       {| cla := 224; ins := 2; p1 := p1v; p2 := 1; fragment := paths |};
     usb ' (uncompressedPublicKeyLength, cursor) <-
       orThrow (readUint8OrThrow (Cursor_new response));
     usb ' (uncompressedPublicKey, cursor0) <-
       orThrow (readOrThrow cursor uncompressedPublicKeyLength);
     usb ' (addressLength, cursor1) <- orThrow (readUint8OrThrow cursor0);
     usb ' (addressBytes, cursor2) <- orThrow (readOrThrow cursor1 addressLength);
     usb ' (chaincode, _) <- orThrow (readOrThrow cursor2 32);
     Usb_return {| uncompressedPublicKey := uncompressedPublicKey;
                   address := "0x" +:+ Bytes_toAscii addressBytes;
                   chaincode := chaincode |}) [] = (Some (Fulfilled result), sent) →
    ∃ paths response addr extra,
      Paths_from path = Ok paths
      ∧ sent = [{| cla := 224; ins := 2; p1 := p1v; p2 := 1; fragment := paths |}]
      ∧ device [] {| cla := 224; ins := 2; p1 := p1v; p2 := 1;
                     fragment := paths |} = Ok response
      ∧ response
        = Z.of_nat (length (uncompressedPublicKey result))
          :: uncompressedPublicKey result
          ++ Z.of_nat (length addr) :: addr ++ chaincode result ++ extra
      ∧ address result = "0x" +:+ Bytes_toAscii addr
      ∧ length (chaincode result) = 32) as Hboth.
  { intros p1v. unfold Usb_bind at 1.
    destruct (Paths_from path) as [paths|e]; cbn [orThrow]; [|done].
    unfold Usb_bind at 1. unfold requestOrThrow at 1. simpl app.
    destruct (device [] _) as [response|e] eqn:Hdevice; [|done].
    unfold Cursor_new. unfold Usb_bind at 1.
    destruct (readUint8OrThrow _) as [[b0 c0]|e] eqn:R0; cbn [orThrow]; [|done].
    apply readUint8OrThrow_inv in R0 as [D0 ->].
    unfold Usb_bind at 1.
    destruct (readOrThrow _ b0) as [[pk c1]|e] eqn:R1; cbn [orThrow]; [|done].
    apply readOrThrow_inv in R1 as (Hb0 & Lpk & D1 & ->).
    unfold Usb_bind at 1.
    destruct (readUint8OrThrow _) as [[b1 c2]|e] eqn:R2; cbn [orThrow]; [|done].
    apply readUint8OrThrow_inv in R2 as [D2 ->].
    unfold Usb_bind at 1.
    destruct (readOrThrow _ b1) as [[addr c3]|e] eqn:R3; cbn [orThrow]; [|done].
    apply readOrThrow_inv in R3 as (Hb1 & Laddr & D3 & ->).
    unfold Usb_bind at 1.
    destruct (readOrThrow _ 32) as [[cc c4]|e] eqn:R4; cbn [orThrow]; [|done].
    apply readOrThrow_inv in R4 as (_ & Lcc & D4 & ->).
    unfold Usb_return. intros [= <- <-].
    exists paths, response, addr,
      (drop (0 + 1 + Z.to_nat b0 + 1 + Z.to_nat b1 + Z.to_nat 32) response).
    split_and!; [done | done | done | | done | simpl; by rewrite Lcc].
    cbn [uncompressedPublicKey chaincode]. rewrite Lpk, Laddr, !Z2Nat.id by done.
    rewrite <- D4, <- D3, <- D2, <- D1, <- D0. by rewrite drop_0. }
  destruct verify; apply Hboth.
Qed.

(** X10: [signEIP712HashedMessageOrThrow], for a domain and a message of 32
    bytes, sends one command that carries the path, the domain and the
    message.  From an answer [v], [r], [s] with [r] and [s] of 32 bytes
    it returns [v - 27], [r] and [s]; from an answer of fewer than 65
    bytes it throws. *)
Theorem signEIP712_one_command path paths domain message :
  Paths_from path = Ok paths →
  length domain = 32 →
  length message = 32 →
  ∃ res,
    signEIP712HashedMessageOrThrow device Paths_from path domain message []
    = (Some res, [{| cla := 0xe0; ins := 0x0c; p1 := 0x00; p2 := 0x00;
                     fragment := paths ++ domain ++ message |}])
    ∧ ∀ response,
        device [] {| cla := 0xe0; ins := 0x0c; p1 := 0x00; p2 := 0x00;
                     fragment := paths ++ domain ++ message |} = Ok response →
        (∀ v r s extra,
           response = v :: r ++ s ++ extra → length r = 32 → length s = 32 →
           res = Fulfilled {| sig_v := v - 27; sig_r := r; sig_s := s |})
        ∧ (length response < 65 → ∃ e, res = Rejected e).
Proof.
  intros Hpaths Hdomain Hmessage. unfold signEIP712HashedMessageOrThrow.
  unfold Usb_bind at 1. rewrite Hpaths. cbn [orThrow].
  assert (writeOrThrow (Cursor_new (replicate (length paths + 32 + 32) 0%Z)) paths
          = Ok {| bytes := paths ++ replicate 64 0%Z;
                  offset := length paths |}) as Hw1.
  { pose proof (writeOrThrow_append [] paths (length paths + 32 + 32)
                  ltac:(lia)) as Hw.
    cbn [app length] in Hw. unfold Cursor_new. rewrite Hw.
    by replace (length paths + 32 + 32 - length paths) with 64 by lia. }
  assert (writeOrThrow
            {| bytes := paths ++ replicate 64 0%Z; offset := length paths |}
            domain
          = Ok {| bytes := (paths ++ domain) ++ replicate 32 0%Z;
                  offset := length (paths ++ domain) |}) as Hw2.
  { rewrite writeOrThrow_append by lia. by rewrite Hdomain. }
  assert (writeOrThrow
            {| bytes := (paths ++ domain) ++ replicate 32 0%Z;
               offset := length (paths ++ domain) |} message
          = Ok {| bytes := paths ++ domain ++ message;
                  offset := length ((paths ++ domain) ++ message) |}) as Hw3.
  { rewrite writeOrThrow_append by lia. rewrite Hmessage. simpl.
    by rewrite app_nil_r, <- app_assoc. }
  unfold Usb_bind at 1. rewrite Hw1. cbn [orThrow].
  unfold Usb_bind at 1. rewrite Hw2. cbn [orThrow].
  unfold Usb_bind at 1. rewrite Hw3. cbn [orThrow bytes].
  unfold Usb_bind at 1. unfold requestOrThrow at 1. simpl app.
  destruct (device [] _) as [response|e] eqn:Hdevice.
  - unfold Cursor_new. unfold Usb_bind at 1.
    destruct (readUint8OrThrow _) as [[v0 c0]|e] eqn:R0; cbn [orThrow].
    + pose proof R0 as R0'. apply readUint8OrThrow_inv in R0' as [D0 ->].
      unfold Usb_bind at 1.
      destruct (readOrThrow {| bytes := response; offset := 0 + 1 |} 32)
        as [[r0 c1]|e] eqn:R1; cbn [orThrow].
      * pose proof R1 as R1'. apply readOrThrow_inv in R1' as (_ & Lr & D1 & ->).
        unfold Usb_bind at 1.
        destruct (readOrThrow
                    {| bytes := response; offset := 0 + 1 + Z.to_nat 32 |} 32)
          as [[s0 c2]|e] eqn:R2; cbn [orThrow].
        -- apply readOrThrow_inv in R2 as (_ & Ls & D2 & ->).
           eexists. split; [done|]. intros ? [= <-]. split.
           ++ intros v r s extra Hshape Hr Hs. unfold Usb_return.
              subst response. rewrite drop_0 in D0.
              assert (v = v0) as -> by (simpl in D0; congruence).
              assert (drop (0 + 1 + Z.to_nat 32) (v0 :: r ++ s ++ extra)
                      = s ++ extra) as D2'.
              { replace (0 + 1 + Z.to_nat 32) with (S (length r)) by lia.
                simpl. apply drop_app_length. }
              rewrite D2' in D1, D2. cbn [Nat.add drop] in D1.
              apply app_inj_1 in D1 as [-> _]; [|lia].
              apply app_inj_1 in D2 as [-> _]; [|lia]. done.
           ++ intros Hshort. exfalso.
              assert (length (drop 0 response) = length response) as Hlen
                by (by rewrite drop_0).
              rewrite D0 in Hlen. simpl in Hlen.
              assert (length (drop (0 + 1) response) = length response - 1)
                as Hlen1 by (rewrite length_drop; lia).
              rewrite D1, length_app, D2, length_app, Lr, Ls in Hlen1.
              simpl in Hlen1. lia.
        -- eexists. split; [done|]. intros ? [= <-]. split.
           ++ intros v r s extra Hshape Hr Hs. exfalso.
              subst response.
              assert (drop (0 + 1 + Z.to_nat 32) (v :: r ++ s ++ extra)
                      = s ++ extra) as D2.
              { replace (0 + 1 + Z.to_nat 32) with (S (length r)) by lia.
                simpl. apply drop_app_length. }
              pose proof (readOrThrow_app _ _ _ _ D2) as R2'.
              rewrite Hs in R2'. change (Z.of_nat 32) with 32%Z in R2'.
              congruence.
           ++ intros _. by eexists.
      * eexists. split; [done|]. intros ? [= <-]. split.
        -- intros v r s extra Hshape Hr Hs. exfalso.
           assert (drop (0 + 1) response = r ++ s ++ extra) as D1
             by (by rewrite Hshape).
           pose proof (readOrThrow_app _ _ _ _ D1) as R1'.
           rewrite Hr in R1'. change (Z.of_nat 32) with 32%Z in R1'.
           congruence.
        -- intros _. by eexists.
    + eexists. split; [done|]. intros ? [= <-]. split.
      * intros v r s extra Hshape Hr Hs. exfalso.
        assert (drop 0 response = v :: r ++ s ++ extra) as D0
          by (by rewrite drop_0).
        by rewrite (readUint8OrThrow_at _ _ _ _ D0) in R0.
      * intros _. by eexists.
  - eexists. split; [done|]. intros ? [=].
Qed.

End LedgerFacts.

(** ** More on the tally and the vote *)

Section ConsensusMore.

Context {Json : Type} `{Stringify Json}.

Implicit Types results : list (Settled (Fetched Json)).

Lemma JsMap_set_keys_eq {V W} (m1 : JsMap.t V) (m2 : JsMap.t W) k v w :
  m1.*1 = m2.*1 → (JsMap.set m1 k v).*1 = (JsMap.set m2 k w).*1.
Proof.
  revert m2. induction m1 as [|[k1 v1] m1 IH]; intros [|[k2 v2] m2] Hkeys;
    csimpl in *; try done.
  injection Hkeys as -> Hkeys.
  destruct (decide (k = k2)); csimpl; f_equal; [done | by apply IH].
Qed.

Lemma JsMap_set_increment (m : JsMap.t nat) k :
  sum_list (JsMap.set m k (default 0 (JsMap.get m k) + 1)).*2
  = sum_list m.*2 + 1.
Proof.
  induction m as [|[k' n] m IH]; csimpl; [done|].
  destruct (decide (k = k')) as [->|Hne]; csimpl; [lia|].
  rewrite IH. lia.
Qed.

(** X11: after the loop the counts add up to the number of fulfilled
    results, no vote lost and none counted twice, and the two maps hold
    the same keys in the same order. *)
Theorem tally_counts_each_fulfilled_once results :
  sum_list (counters (tally results)).*2 = length (fulfilleds results)
  ∧ (counters (tally results)).*1 = (fetcheds (tally results)).*1.
Proof.
  induction results as [|r results [IHsum IHkeys]] using rev_ind; [done|].
  rewrite tally_snoc, fulfilleds_app, length_app.
  destruct r as [v|e]; simpl.
  - split; [rewrite JsMap_set_increment; lia|].
    by apply JsMap_set_keys_eq.
  - split; [lia | done].
Qed.

Lemma votes_two_le k k' results :
  k ≠ k' → votes k results + votes k' results ≤ length (fulfilleds results).
Proof.
  intros Hne. induction results as [|[v|e] results IH]; simpl; [lia | | done].
  repeat case_decide; simplify_eq; lia.
Qed.

(** X12: a serialisation that more than half of the fulfilled results have
    is the one accepted, whatever the other results are. *)
Theorem consensus_majority_wins results k :
  length (fulfilleds results) < 2 * votes k results →
  ∃ f, consensus results = Fulfilled f ∧ Fulfilled f ∈ results ∧ raw_of f = k.
Proof.
  intros Hmajority. apply unique_max_accepts; [lia|].
  intros k' Hne. pose proof (votes_two_le k k' results ltac:(done)). lia.
Qed.

(** X13: which value is handed back.  When the fulfilled results all have
    one serialisation, the round returns the first of them
    ([Promise.any]); when they have several, it returns the last one
    that has the winning serialisation ([fetcheds.get], after every
    later result overwrote the entry).  So of a [Data] and a [Fail]
    with the same content, which count as one vote, either may come
    back. *)
Theorem consensus_returns_first_or_last results f :
  consensus results = Fulfilled f →
  ((∀ g, g ∈ fulfilleds results → raw_of g = raw_of f)
   ∧ head (fulfilleds results) = Some f)
  ∨ ((∃ g, g ∈ fulfilleds results ∧ raw_of g ≠ raw_of f)
     ∧ last (filter (λ g, raw_of g = raw_of f) (fulfilleds results)) = Some f).
Proof.
  unfold consensus.
  destruct (decide (JsMap.size (counters (tally results)) < 2)) as [Hsize|Hsize].
  - unfold Promise_any. rewrite first_fulfilled_head.
    destruct (fulfilleds results) as [|f0 fs] eqn:Hfs; simpl; [done|].
    intros [= ->]. left. split; [|done]. intros g Hg.
    apply (counters_small results); [done | |].
    + apply votes_pos. exists g. by rewrite Hfs.
    + apply votes_pos. exists f. rewrite Hfs. split; [by left | done].
  - pose proof (Array_sort_perm by_occurence
                  (Maps_entries (counters (tally results)))) as Hperm.
    assert (NoDup (key <$> Array_sort by_occurence
                     (Maps_entries (counters (tally results))))) as Hnd.
    { rewrite Hperm, entries_keys. apply tally_NoDup. }
    assert (∀ e, e ∈ Array_sort by_occurence
                   (Maps_entries (counters (tally results))) →
                 0 < votes (key e) results) as Hin.
    { intros e. rewrite Hperm. intros [Hv Hpos]%entries_elem_of. lia. }
    destruct (Array_sort by_occurence (Maps_entries (counters (tally results))))
      as [|s0 [|s1 rest]]; simpl; [done | done |].
    destruct (decide (value s0 = value s1)); [done|].
    rewrite tally_fetcheds.
    destruct (last (filter (λ g, raw_of g = key s0) (fulfilleds results)))
      as [f0|] eqn:Hlast; [|done].
    intros [= ->]. right.
    assert (raw_of f = key s0) as Hraw.
    { apply last_Some_elem_of, list_elem_of_filter in Hlast. tauto. }
    rewrite Hraw. split; [|done].
    rewrite !fmap_cons in Hnd. apply NoDup_cons in Hnd as [Hnot _].
    apply not_elem_of_cons in Hnot as [Hne _].
    destruct (proj1 (votes_pos (key s1) results)) as (g & Hg & Hrawg).
    { apply Hin. right. by left. }
    exists g. split; [done | congruence].
Qed.

Lemma consensus_accepts_a_result results f :
  consensus results = Fulfilled f → Fulfilled f ∈ results.
Proof.
  intros Hc.
  destruct (consensus_cases results)
    as [[_ Hr]|[(f' & Hr & Hf & _)|(_ & _ & _ & _ & _ & _ & Hr)]];
    rewrite Hr in Hc; simplify_eq.
  by apply fulfilleds_elem_of.
Qed.

Lemma same_payload_accepts results k :
  (∃ f, Fulfilled f ∈ results) →
  (∀ f, Fulfilled f ∈ results → raw_of f = k) →
  ∃ f, consensus results = Fulfilled f ∧ Fulfilled f ∈ results ∧ raw_of f = k.
Proof.
  intros [f0 Hf0] Hall.
  assert (0 < votes k results) as Hpos.
  { apply votes_pos. exists f0. split; [by apply fulfilleds_elem_of | auto]. }
  apply unique_max_accepts; [done|].
  intros k' Hne. destruct (decide (votes k' results = 0)) as [->|Hk]; [done|].
  assert (0 < votes k' results) as (f & Hf & Hraw)%votes_pos by lia.
  apply fulfilleds_elem_of, Hall in Hf. congruence.
Qed.

End ConsensusMore.

Section FetchMore.

Context {Json : Type} `{Stringify Json}.
Variable rpc : TorRpc Json.
Variable init : RpcRequestPreinit Json.

Import ServiceWorker.

Lemma Array_from_snd_elem_of {A} (f : nat → Async A) n r :
  r ∈ snd <$> Array_from n f → ∃ i, i < n ∧ (f i).2 = r.
Proof.
  unfold Array_from. rewrite <- list_fmap_compose.
  intros (i & -> & Hi)%list_elem_of_fmap. apply elem_of_seq in Hi.
  exists i. split; [lia | done].
Qed.

Lemma tryEthereumFetch_Ok_inv (ethereum : EthereumContext) f :
  (tryEthereumFetch rpc init ethereum).2 = Fulfilled (Ok f) →
  ∃ pools i pool j conn response,
    brume ethereum !! chainId (chain ethereum) = Some pools
    ∧ i < capacity pools ∧ tryGet pools i = Ok (Ok pool)
    ∧ j < capacity pool ∧ tryGet pool j = Ok (Ok conn)
    ∧ exchange rpc init conn = Ok response
    ∧ f = Fetched_rewrap response.
Proof.
  unfold tryEthereumFetch. rewrite fetchOrThrow_run.
  destruct (brume ethereum !! chainId (chain ethereum)) as [pools|];
    cbn zeta; [|done].
  unfold Result_runAndDoubleWrap.
  destruct (consensus _) as [f'|e] eqn:Hc; simpl; [|done].
  intros [= ->].
  apply consensus_accepts_a_result, Array_from_snd_elem_of in Hc
    as (i & Hi & Hpool).
  rewrite runWithPoolOrThrow_run in Hpool.
  destruct (tryGet pools i) as [[pool|e]|e] eqn:Hslot; simpl in Hpool;
    [|done|done].
  apply consensus_accepts_a_result, Array_from_snd_elem_of in Hpool
    as (j & Hj & Hconn).
  rewrite runWithConnOrThrow_run in Hconn.
  destruct (tryGet pool j) as [[conn|e]|e] eqn:Hslot'; simpl in Hconn;
    [|done|done].
  destruct (exchange rpc init conn) as [response|e] eqn:Hx; [|done].
  injection Hconn as <-.
  by exists pools, i, pool, j, conn, response.
Qed.

(** X14: what the fetch returns was sent by a node: an accepted value is
    the response of some connection of some circuit of the directory,
    as [Fetched.rewrap] wraps it, and the run has the sending of the
    request on that connection. *)
Theorem fetch_returns_a_response (ethereum : EthereumContext) f :
  (tryEthereumFetch rpc init ethereum).2 = Fulfilled (Ok f) →
  ∃ pools i pool j conn response,
    brume ethereum !! chainId (chain ethereum) = Some pools
    ∧ i < capacity pools ∧ tryGet pools i = Ok (Ok pool)
    ∧ j < capacity pool ∧ tryGet pool j = Ok (Ok conn)
    ∧ exchange rpc init conn = Ok response
    ∧ f = Fetched_rewrap response
    ∧ Send i j ∈ (tryEthereumFetch rpc init ethereum).1.
Proof.
  intros (pools & i & pool & j & conn & response & Hdir & Hi & Hpool & Hj
          & Hconn & Hx & Hf)%tryEthereumFetch_Ok_inv.
  exists pools, i, pool, j, conn, response.
  split_and!; [done | done | done | done | done | done | done |].
  assert ((tryEthereumFetch rpc init ethereum).1
          = concat (fst <$> Array_from (capacity pools)
                              (runWithPoolOrThrow rpc init pools))) as ->.
  { unfold tryEthereumFetch. rewrite fetchOrThrow_run, Hdir. cbn zeta.
    unfold Result_runAndDoubleWrap. by destruct (consensus _). }
  eapply elem_of_concat_traces; [by apply Array_from_elem_of|].
  rewrite runWithPoolOrThrow_run, Hpool. simpl. right.
  eapply elem_of_concat_traces; [by apply Array_from_elem_of|].
  rewrite runWithConnOrThrow_run, Hconn. simpl. right. by left.
Qed.

Lemma Array_from_snd_elem_of_2 {A} (f : nat → Async A) n i :
  i < n → (f i).2 ∈ snd <$> Array_from n f.
Proof.
  intros Hi. unfold Array_from. rewrite <- list_fmap_compose.
  apply list_elem_of_fmap. exists i. split; [done|].
  apply elem_of_seq. lia.
Qed.

(** X15: when the nodes that answer all give the same content, the fetch
    returns that content, however many connections and circuits fail:
    one answer is enough. *)
Theorem fetch_agreeing_nodes (ethereum : EthereumContext) pools k :
  brume ethereum !! chainId (chain ethereum) = Some pools →
  (∀ i pool j conn response,
     i < capacity pools → tryGet pools i = Ok (Ok pool) →
     j < capacity pool → tryGet pool j = Ok (Ok conn) →
     exchange rpc init conn = Ok response →
     raw_of (Fetched_rewrap response) = k) →
  (∃ i pool j conn response,
     i < capacity pools ∧ tryGet pools i = Ok (Ok pool)
     ∧ j < capacity pool ∧ tryGet pool j = Ok (Ok conn)
     ∧ exchange rpc init conn = Ok response) →
  ∃ f, (tryEthereumFetch rpc init ethereum).2 = Fulfilled (Ok f)
       ∧ raw_of f = k.
Proof.
  intros Hdir Hagree (i0 & pool0 & j0 & conn0 & response0 & Hi0 & Hpool0 & Hj0
                      & Hconn0 & Hx0).
  assert (∀ i pool f,
            i < capacity pools → tryGet pools i = Ok (Ok pool) →
            Fulfilled f
            ∈ snd <$> Array_from (capacity pool)
                        (runWithConnOrThrow rpc init pool i) →
            raw_of f = k) as Hinner.
  { intros i pool f Hi Hpool (j & Hj & Hrun)%Array_from_snd_elem_of.
    rewrite runWithConnOrThrow_run in Hrun.
    destruct (tryGet pool j) as [[conn|e]|e] eqn:Hconn; simpl in Hrun;
      [|done|done].
    destruct (exchange rpc init conn) as [response|e] eqn:Hx; [|done].
    injection Hrun as <-. by eapply Hagree. }
  assert (∀ i f, i < capacity pools →
                 (runWithPoolOrThrow rpc init pools i).2 = Fulfilled f →
                 raw_of f = k) as Houter.
  { intros i f Hi. rewrite runWithPoolOrThrow_run.
    destruct (tryGet pools i) as [[pool|e]|e] eqn:Hpool; simpl; [|done|done].
    intros Hc%consensus_accepts_a_result. by eapply Hinner. }
  assert (∃ f, (runWithPoolOrThrow rpc init pools i0).2 = Fulfilled f)
    as [f0 Hf0].
  { rewrite runWithPoolOrThrow_run, Hpool0. simpl.
    destruct (same_payload_accepts
                (snd <$> Array_from (capacity pool0)
                           (runWithConnOrThrow rpc init pool0 i0)) k)
      as (f & Hc & _).
    - exists (Fetched_rewrap response0).
      pose proof (Array_from_snd_elem_of_2
                    (runWithConnOrThrow rpc init pool0 i0)
                    (capacity pool0) j0 Hj0) as Hin.
      rewrite runWithConnOrThrow_run, Hconn0 in Hin. simpl in Hin.
      by rewrite Hx0 in Hin.
    - intros f Hf. by eapply Hinner.
    - by exists f. }
  unfold tryEthereumFetch. rewrite fetchOrThrow_run, Hdir. cbn zeta.
  unfold Result_runAndDoubleWrap.
  destruct (same_payload_accepts
              (snd <$> Array_from (capacity pools)
                         (runWithPoolOrThrow rpc init pools)) k)
    as (f & Hc & _ & Hraw).
  - exists f0. rewrite <- Hf0. by apply Array_from_snd_elem_of_2.
  - intros f (i & Hi & Hrun)%Array_from_snd_elem_of. by eapply Houter.
  - exists f. simpl. by rewrite Hc.
Qed.

(** X16: a circuit whose pool is empty is a failed circuit; when the
    directory has no circuit, or only slots that fail and circuits with
    an empty pool, the fetch returns an [Err] that wraps the
    [AggregateError] of [Promise.any], and no request is sent. *)
Theorem fetch_without_connections (ethereum : EthereumContext) pools :
  brume ethereum !! chainId (chain ethereum) = Some pools →
  (∀ i pool, i < capacity pools → tryGet pools i = Ok (Ok pool) →
             capacity pool = 0) →
  (∃ errors, (tryEthereumFetch rpc init ethereum).2
             = Fulfilled (Err (Catched (AggregateError errors))))
  ∧ ∀ i j, Send i j ∉ (tryEthereumFetch rpc init ethereum).1.
Proof.
  intros Hdir Hempty.
  assert (∀ i, i < capacity pools →
               (∃ e, (runWithPoolOrThrow rpc init pools i).2 = Rejected e)
               ∧ (runWithPoolOrThrow rpc init pools i).1 = [GetPool i])
    as Hpool.
  { intros i Hi. rewrite runWithPoolOrThrow_run.
    destruct (tryGet pools i) as [[pool|e]|e] eqn:Hslot; simpl; eauto.
    rewrite (Hempty i pool Hi Hslot). unfold Array_from. simpl. eauto. }
  unfold tryEthereumFetch. rewrite fetchOrThrow_run, Hdir. cbn zeta.
  rewrite none_fulfilled_rejects.
  - split; [by eexists|]. simpl. intros i j Hin.
    apply list_elem_of_In, in_concat in Hin as (tr & Htr & Hin).
    apply list_elem_of_In in Htr, Hin.
    unfold Array_from in Htr. rewrite <- list_fmap_compose in Htr.
    apply list_elem_of_fmap in Htr as (i' & -> & Hi').
    apply elem_of_seq in Hi'. simpl in Hin.
    destruct (Hpool i' ltac:(lia)) as [_ Htrace]. rewrite Htrace in Hin.
    apply list_elem_of_singleton in Hin. done.
  - destruct (fulfilleds _) as [|f fs] eqn:Hfs; [done|]. exfalso.
    assert (f ∈ fulfilleds
              (snd <$> Array_from (capacity pools)
                         (runWithPoolOrThrow rpc init pools))) as Hf
      by (rewrite Hfs; by left).
    apply fulfilleds_elem_of, Array_from_snd_elem_of in Hf as (i & Hi & Hf).
    destruct (Hpool i Hi) as [[e He] _]. congruence.
Qed.

End FetchMore.

(** ** More on the retry loop *)

Section RetryMore.

Import ContentScript RetrySteps.

(** A [tryLoop] of [remaining] iterations lets a measure of the heap
    grow by at most [remaining] times what one iteration can add. *)
Lemma tryLoop_from_bounded {T} (measure : Heap → nat) d
    (looper : nat → Loop (Result T (Looped Exn))) remaining i errors h :
  (∀ i h, measure (looper i h).2 ≤ measure h + d) →
  measure (tryLoop_from looper remaining i errors h).2
  ≤ measure h + remaining * d.
Proof.
  intros Hlooper. revert i errors h.
  induction remaining as [|remaining IH]; intros i errors h; simpl; [lia|].
  unfold Loop_bind. specialize (Hlooper i h).
  destruct (looper i h) as [[[x|[e|e|e]]|] h1]; simpl in *; try lia.
  - specialize (IH (S i) (errors ++ [e]) h1). lia.
  - specialize (IH (S i) (errors ++ [e]) h1). lia.
Qed.

(** The [while (true)] block adds one address to its set when it
    leaves with a candidate, which a draw returned, and records nothing
    else. *)
Lemma while_true_adds {A} which (pool : Pool (Ref A)) words h :
  match (while_true which pool words h).1 with
  | Some (Ok candidate) =>
      (∃ word, tryGetCryptoRandom pool word = Ok candidate)
      ∧ ∃ before,
          steps (while_true which pool words h).2
          = steps h ++ [Add which before (addr candidate)]
  | _ => steps (while_true which pool words h).2 = steps h
  end.
Proof.
  revert h. induction words as [|word words IH]; intros h; simpl; [done|].
  destruct (tryGetCryptoRandom pool word) as [candidate|e] eqn:Hdraw; [|done].
  destruct (decide (addr candidate ∈ tried which (with_random words h))).
  - apply (IH (with_random words h)).
  - simpl. split; [by exists word|]. destruct which; simpl; by eexists.
Qed.

Section WithTransport.

Context {Json : Type}.
Variable rpc : TorRpc Json.
Variable init : RpcRequestPreinit Json.

Lemma tryWithConn_fetches (conns : Pool (Ref RpcConnection)) i h :
  length (fetched (steps (tryWithConn rpc init conns i h).2))
  ≤ length (fetched (steps h)) + 1
  ∧ pools_tried (steps (tryWithConn rpc init conns i h).2)
    = pools_tried (steps h).
Proof.
  unfold tryWithConn, Loop_bind, draw_untried.
  pose proof (while_true_adds AllTriedConns conns (random h) h) as Hw.
  destruct (while_true AllTriedConns conns (random h) h)
    as [[[conn|e]|] h1]; simpl in *.
  - destruct Hw as [_ [before Hw]].
    destruct (connection (deref conn)); simpl;
      rewrite Hw, !fetched_app, !pools_tried_app, !length_app; simpl;
      rewrite ?app_nil_r; (split; [lia | done]).
  - rewrite Hw. split; [lia | done].
  - rewrite Hw. split; [lia | done].
Qed.

Lemma tryWithPool_steps (pools : Pool (Ref (Pool (Ref RpcConnection)))) c i h :
  (∀ word pool, tryGetCryptoRandom pools word = Ok pool →
                capacity (deref pool) ≤ c) →
  length (fetched (steps (tryWithPool rpc init pools i h).2))
  ≤ length (fetched (steps h)) + c
  ∧ length (pools_tried (steps (tryWithPool rpc init pools i h).2))
    ≤ length (pools_tried (steps h)) + 1.
Proof.
  intros Hcap. unfold tryWithPool, Loop_bind, draw_untried.
  pose proof (while_true_adds AllTriedPools pools (random h) h) as Hw.
  destruct (while_true AllTriedPools pools (random h) h)
    as [[[pool|e]|] h1]; simpl in *.
  - destruct Hw as [[word Hdraw] [before Hw]].
    pose proof (tryLoop_from_bounded (λ h, length (fetched (steps h))) 1
                  (tryWithConn rpc init (deref pool)) (capacity (deref pool))
                  0 [] (new_set AllTriedConns h1)
                  (λ i h, proj1 (tryWithConn_fetches (deref pool) i h)))
      as Hfetch.
    pose proof (tryLoop_from_bounded (λ h, length (pools_tried (steps h))) 0
                  (tryWithConn rpc init (deref pool)) (capacity (deref pool))
                  0 [] (new_set AllTriedConns h1)) as Hpools.
    unfold tryLoop.
    destruct (tryLoop_from _ _ _ _ _) as [[r|] h2]; simpl in *;
      rewrite Hw, !fetched_app, !pools_tried_app, !length_app in *;
      simpl in *; specialize (Hcap word pool Hdraw);
      (split; [nia|]); apply Nat.le_trans with
        (length (pools_tried (steps h)) + 1 + 0 + capacity (deref pool) * 0);
      try lia; apply Hpools; intros i' h';
      rewrite (proj2 (tryWithConn_fetches (deref pool) i' h')); lia.
  - rewrite Hw. lia.
  - rewrite Hw. lia.
Qed.

(** X17: one call tries at most as many pools as the directory entry has
    capacity, and sends at most that number of requests times the
    largest capacity of a pool it can draw. *)
Theorem retry_loop_is_bounded (ethereum : EthereumContext) pools c words :
  brume ethereum !! chainId (chain ethereum) = Some pools →
  (∀ word pool, tryGetCryptoRandom pools word = Ok pool →
                capacity (deref pool) ≤ c) →
  length (pools_tried
            (steps (tryEthereumFetch rpc init ethereum (Heap_init words)).2))
  ≤ capacity pools
  ∧ length (fetched
              (steps (tryEthereumFetch rpc init ethereum (Heap_init words)).2))
    ≤ capacity pools * c.
Proof.
  intros Hdir Hcap. unfold tryEthereumFetch. rewrite Hdir. simpl.
  unfold Loop_bind, Loop_do, tryLoop. simpl. split.
  - pose proof (tryLoop_from_bounded (λ h, length (pools_tried (steps h))) 1
             (tryWithPool rpc init pools) (capacity pools) 0 []
             (new_set AllTriedPools (Heap_init words))) as Hbound.
    simpl in Hbound. rewrite Nat.mul_1_r in Hbound. apply Hbound.
    intros i h. by apply tryWithPool_steps with (c := c).
  - pose proof (tryLoop_from_bounded (λ h, length (fetched (steps h))) c
             (tryWithPool rpc init pools) (capacity pools) 0 []
             (new_set AllTriedPools (Heap_init words))) as Hbound.
    simpl in Hbound. apply Hbound.
    intros i h. by apply tryWithPool_steps.
Qed.

(** X18: when a call returns a value, it stopped at the first answer.
    Its record is the one of a list of attempts whose last connection
    was sent the last request and gave the response that is returned;
    every connection that was sent a request before it, in this
    attempt and in the ones before, failed; nothing was done after
    the answer. *)
Theorem retry_returns_last_answer (ethereum : EthereumContext) words f h' :
  tryEthereumFetch rpc init ethereum (Heap_init words) = (Some (Ok f), h') →
  ∃ pools done p cs conn response,
    brume ethereum !! chainId (chain ethereum) = Some pools
    ∧ steps h'
      = call_steps
          (done ++ [{| attempt_pool := p; attempt_conns := cs ++ [conn] |}])
    ∧ (∃ earlier,
         steps h' = earlier ++ [Fetch (addr conn)]
         ∧ fetched earlier
           = concat (conn_addresses <$> done) ++ (addr <$> cs))
    ∧ NoDup (pool_addresses done ++ [addr p])
    ∧ Forall (attempt_drawn pools)
        (done ++ [{| attempt_pool := p; attempt_conns := cs ++ [conn] |}])
    ∧ Forall (λ a, Forall (failed rpc init) (attempt_conns a)) done
    ∧ Forall (failed rpc init) cs
    ∧ ServiceWorker.exchange rpc init (deref conn) = Ok response
    ∧ f = Fetched_rewrap response.
Proof.
  intros Hrun.
  destruct (brume ethereum !! chainId (chain ethereum)) as [pools|] eqn:Hdir.
  - pose proof (tryEthereumFetch_outcome rpc init pools ethereum words Hdir)
      as Hend.
    rewrite Hrun in Hend.
    destruct Hend as (done & p & cs & conn & response & (Hsteps & Hnd & Hdrawn)
                      & Hdone & Hcs & Hx & ->).
    exists pools, done, p, cs, conn, response.
    split_and!; [done | done | | | done | done | done | done | done].
    + exists (call_steps
                (done ++ [{| attempt_pool := p; attempt_conns := cs |}])
              ++ [Add AllTriedConns (list_to_set (addr <$> cs)) (addr conn)]).
      split.
      * rewrite Hsteps, call_steps_fetch. by rewrite <- app_assoc.
      * rewrite fetched_app, fetched_call_steps. simpl.
        rewrite app_nil_r, fmap_app, concat_app. simpl.
        by rewrite app_nil_r.
    + unfold pool_addresses in *. by rewrite fmap_app in Hnd.
  - unfold tryEthereumFetch in Hrun. by rewrite Hdir in Hrun.
Qed.

Lemma while_true_spins {A} which (pool : Pool (Ref A)) candidate words h :
  (∀ word, tryGetCryptoRandom pool word = Ok candidate) →
  addr candidate ∈ tried which h →
  (while_true which pool words h).1 = None.
Proof.
  intros Hdraw. revert h.
  induction words as [|word words IH]; intros h Hin; simpl; [done|].
  rewrite Hdraw. rewrite decide_True by (by destruct which).
  apply IH. by destruct which.
Qed.

Lemma tryWithConn_spins (conns : Pool (Ref RpcConnection)) conn i h :
  (∀ word, tryGetCryptoRandom conns word = Ok conn) →
  addr conn ∈ allTriedConns h →
  (tryWithConn rpc init conns i h).1 = None.
Proof.
  intros Hdraw Hin. unfold tryWithConn, Loop_bind, draw_untried.
  pose proof (while_true_spins AllTriedConns conns conn (random h) h Hdraw Hin)
    as Hs.
  destruct (while_true AllTriedConns conns (random h) h) as [o h1].
  simpl in Hs. by subst o.
Qed.

(** X19: when the random draw of a pool of capacity two or more can only
    give one connection and that connection fails, the call is still
    inside [while (true)] however many random words it is given: the
    second iteration draws the excluded connection again and again. *)
Theorem retry_spins_on_repeated_draw (ethereum : EthereumContext)
    pools pool conn e words :
  brume ethereum !! chainId (chain ethereum) = Some pools →
  1 ≤ capacity pools →
  (∀ word, tryGetCryptoRandom pools word = Ok pool) →
  2 ≤ capacity (deref pool) →
  (∀ word, tryGetCryptoRandom (deref pool) word = Ok conn) →
  ServiceWorker.exchange rpc init (deref conn) = Err e →
  (tryEthereumFetch rpc init ethereum (Heap_init words)).1 = None.
Proof.
  intros Hdir Hcap Hpool Hcap' Hconn Hfail.
  unfold tryEthereumFetch. rewrite Hdir. simpl.
  unfold Loop_bind, Loop_do, tryLoop. simpl.
  destruct (capacity pools) as [|n]; [lia|]. simpl.
  unfold Loop_bind, tryWithPool at 1, Loop_bind, draw_untried. simpl.
  destruct words as [|word words]; simpl; [done|].
  rewrite Hpool. rewrite decide_False by set_solver. simpl.
  unfold tryLoop. destruct (capacity (deref pool)) as [|[|m]]; [lia | lia |].
  simpl. unfold Loop_bind, tryWithConn at 1, Loop_bind, draw_untried. simpl.
  destruct words as [|word' words]; simpl; [done|].
  rewrite Hconn. rewrite decide_False by set_solver. simpl.
  unfold ServiceWorker.exchange in Hfail.
  destruct (connection (deref conn)) as [url circuit|socket circuit];
    rewrite Hfail; simpl;
    match goal with
    | |- context [tryWithConn rpc init (deref pool) 1 ?h] =>
        pose proof (tryWithConn_spins (deref pool) conn 1 h Hconn
                      ltac:(simpl; set_solver)) as Hs;
        destruct (tryWithConn rpc init (deref pool) 1 h) as [o h1]
    end; simpl in Hs; by subst o.
Qed.

End WithTransport.

End RetryMore.

(** ** Name resolution *)

Section EnsFacts.

Import BgEns.

Context {Json : Type} `{Cubane Json}.
Variable fetch : RpcRequestPreinit Json → Result (Fetched Json) Exn.

(** X20: a reverse lookup returns a name exactly when the record of the
    address holds this name and the lookup of the name gives an address
    that is the looked-up address up to letter case. *)
Theorem Reverse_tryFetch_confirms_forward address name :
  Reverse_tryFetch fetch address = Ok (DataAs (Some name))
  ↔ Reverse_tryFetchUnchecked fetch address = Ok (DataAs (Some name))
    ∧ ∃ address2,
        Lookup_tryFetch fetch name = Ok (DataAs address2)
        ∧ toLowerCase address = toLowerCase address2.
Proof.
  unfold Reverse_tryFetch.
  destruct (Reverse_tryFetchUnchecked fetch address) as [[[n|]|e]|e];
    simpl.
  - split.
    + destruct (Lookup_tryFetch fetch n) as [[a2|e]|e] eqn:Hl; simpl;
        [|done|done].
      destruct (decide (toLowerCase address ≠ toLowerCase a2)) as [Hne|Heq];
        [done|].
      intros [= ->]. split; [done|]. exists a2. split; [done|].
      by apply dec_stable.
    + intros [[= ->] (a2 & -> & Heq)]. simpl.
      by rewrite decide_False by (intros Hne; by apply Hne).
  - split; [done | by intros [? _]].
  - split; [done | by intros [? _]].
  - split; [done | by intros [? _]].
Qed.

End EnsFacts.

Section EnsOverConsensus.

Import BgEns ServiceWorker.

Context {Json : Type} `{Stringify Json} `{Cubane Json}.
Variable rpc : TorRpc Json.
Variable ethereum : EthereumContext.

(** X21: the address that a lookup returns was decoded from the result that
    a connection of the chain's directory gave to the call of [addr]
    on the resolver that the registry named for the name. *)
Theorem Lookup_address_was_answered name address :
  Lookup_tryFetch (fetch_with rpc ethereum) name = Ok (DataAs address) →
  ∃ namehash signature data resolver pools i pool j conn inner,
    Ens_tryNamehash name = Ok namehash
    ∧ Resolver_tryFetch (fetch_with rpc ethereum) namehash
      = Ok (DataAs resolver)
    ∧ FunctionSignature_tryParse "addr(bytes32)" = Ok signature
    ∧ Abi_tryEncode signature namehash = Ok data
    ∧ brume ethereum !! chainId (chain ethereum) = Some pools
    ∧ i < capacity pools ∧ tryGet pools i = Ok (Ok pool)
    ∧ j < capacity pool ∧ tryGet pool j = Ok (Ok conn)
    ∧ exchange rpc (eth_call resolver data) conn = Ok (RpcOk inner)
    ∧ Abi_tryDecode_address inner = Ok address.
Proof.
  unfold Lookup_tryFetch.
  destruct (Ens_tryNamehash name) as [namehash|e]; simpl; [|done].
  destruct (Resolver_tryFetch _ namehash) as [[resolver|e]|e] eqn:Hres;
    simpl; [|done|done].
  destruct (FunctionSignature_tryParse "addr(bytes32)") as [signature|e];
    simpl; [|done].
  destruct (Abi_tryEncode signature namehash) as [data|e] eqn:Henc; simpl;
    [|done].
  unfold fetch_with at 1.
  destruct (tryEthereumFetch rpc (eth_call resolver data) ethereum).2
    as [[[inner|e]|e]|e] eqn:Hfetch; simpl; [|done|done|done].
  destruct (Abi_tryDecode_address inner) as [a|e] eqn:Hdec; simpl; [|done].
  intros [= ->].
  apply tryEthereumFetch_Ok_inv
    in Hfetch as (pools & i & pool & j & conn & response & Hf).
  destruct Hf as (Hdir & Hi & Hpool & Hj & Hconn & Hx & Hr).
  destruct response as [result|error]; simpl in Hr; [|done].
  injection Hr as <-.
  by exists namehash, signature, data, resolver, pools, i, pool, j, conn, inner.
Qed.

End EnsOverConsensus.

(** ** The fetch over sessions *)

Section SessionsFacts.

Import ContentScript Sessions.

Context {Json : Type}.
Variable brumes_tryGet : nat → Result Brume Exn.
Variable EthereumSocket_request :
  WebSocket → RpcRequestPreinit Json → Result (RpcResponse Json) Exn.
Variable FetchError_from : Exn → Exn.
Variable max : nat.

(** Iterations that ask for a retry are passed over, their errors
    kept in order. *)
Lemma tryLoop_from_retries {T} (attempt : nat → Result T (Looped Exn))
    errs remaining i errors h :
  (∀ j e, errs !! j = Some e → attempt (i + j) = Err (Retry e)) →
  tryLoop_from (λ i, Loop_return (attempt i)) (length errs + remaining)
    i errors h
  = tryLoop_from (λ i, Loop_return (attempt i)) remaining
      (i + length errs) (errors ++ errs) h.
Proof.
  revert i errors. induction errs as [|e errs IH]; intros i errors Hretry.
  - simpl. by rewrite Nat.add_0_r, app_nil_r.
  - cbn [length Nat.add tryLoop_from]. unfold Loop_bind at 1.
    unfold Loop_return at 1.
    pose proof (Hretry 0 e eq_refl) as H0. rewrite Nat.add_0_r in H0.
    rewrite H0. rewrite IH.
    + f_equal; [lia | by rewrite <- app_assoc].
    + intros j e' Hj. replace (S i + j) with (i + S j) by lia.
      by apply Hretry.
Qed.

(** X22: sessions are asked in the order of their index.  Past the sessions
    that could not be got or whose request failed, the first session
    whose socket answers gives the result; a session that has no socket
    for the chain ends the fetch with the error of the missing value,
    whatever the next sessions hold; and when [max] sessions in a row
    ask for a retry the fetch fails with their errors. *)
Theorem sessions_are_asked_in_order chainId request errs h :
  (∀ j e, errs !! j = Some e →
     attempt brumes_tryGet EthereumSocket_request chainId request j
     = Err (Retry e)) →
  (length errs < max →
   ∀ brume socket response,
     brumes_tryGet (length errs) = Ok brume →
     chains brume !! chainId = Some socket →
     EthereumSocket_request socket request = Ok response →
     (tryFetch brumes_tryGet EthereumSocket_request FetchError_from max
        chainId request h).1
     = Some (Ok (Fetched_rewrap response)))
  ∧ (length errs < max →
     ∀ brume,
       brumes_tryGet (length errs) = Ok brume →
       chains brume !! chainId = None →
       (tryFetch brumes_tryGet EthereumSocket_request FetchError_from max
          chainId request h).1
       = Some (Err (FetchError_from NoneError)))
  ∧ (length errs = max →
     (tryFetch brumes_tryGet EthereumSocket_request FetchError_from max
        chainId request h).1
     = Some (Err (FetchError_from (TooManyRetriesError errs)))).
Proof.
  intros Hretry. unfold tryFetch, tryLoop. split_and!.
  - intros Hlt brume socket response Hget Hsocket Hresp.
    replace max with (length errs + S (max - S (length errs))) by lia.
    rewrite tryLoop_from_retries by done.
    cbn [tryLoop_from]. unfold Loop_bind, Loop_return, attempt. simpl.
    by rewrite Hget; simpl; rewrite Hsocket; simpl; rewrite Hresp.
  - intros Hlt brume Hget Hsocket.
    replace max with (length errs + S (max - S (length errs))) by lia.
    rewrite tryLoop_from_retries by done.
    cbn [tryLoop_from]. unfold Loop_bind, Loop_return, attempt. simpl.
    by rewrite Hget; simpl; rewrite Hsocket.
  - intros <-.
    replace (length errs) with (length errs + 0) at 1 by lia.
    by rewrite tryLoop_from_retries.
Qed.

End SessionsFacts.

(** ** What a page says of itself *)

Section OriginFacts.

Import Origin.

Context {Json Blob : Type}.
Variable tryFetchAsBlob : string → Result Blob Exn.
Variable tryFetchAsJson : string → Result Json Exn.
Variable Blobs_tryReadAsDataUrl : Blob → Result string Exn.
Variable property : Json → string → option Json.
Variable truthy : Json → bool.

Lemma metas_loop_run metas (o : PreOriginData Json) :
  origin (metas_loop metas o) = origin o
  ∧ icon (metas_loop metas o) = icon o
  ∧ title (metas_loop metas o) = default (title o) (last (meta_titles metas)).
Proof.
  revert o. induction metas as [|meta metas IH]; intros o; [done|].
  unfold meta_titles. simpl. rewrite filter_cons.
  destruct (decide (meta_name meta = "application-name")) as [Hname|Hname].
  - destruct (IH (with_title (Text (meta_content meta)) o))
      as (-> & -> & ->).
    split_and!; [done | done |]. csimpl. rewrite last_cons.
    unfold meta_titles. by destruct (last _).
  - apply IH.
Qed.

Lemma read_manifest_run manifest (o o' : PreOriginData Json) :
  read_manifest property truthy manifest o = Fulfilled o' →
  ∃ name short_name,
    property manifest "name" = Some name
    ∧ property manifest "short_name" = Some short_name
    ∧ origin o' = origin o ∧ icon o' = icon o
    ∧ title o'
      = default (title o)
          (last ((if truthy name then [Value name] else [])
                 ++ (if truthy short_name then [Value short_name] else []))).
Proof.
  unfold read_manifest.
  destruct (property manifest "name") as [name|]; [|done].
  destruct (property manifest "short_name") as [short_name|]; [|done].
  destruct (property manifest "description") as [description|]; [|done].
  intros [= <-]. exists name, short_name.
  by destruct (truthy name), (truthy short_name), (truthy description).
Qed.

Lemma links_loop_run links (o : PreOriginData Json) requests o' :
  links_loop tryFetchAsBlob tryFetchAsJson Blobs_tryReadAsDataUrl
    property truthy links o = (requests, Fulfilled o') →
  requests = omap request_of links
  ∧ origin o' = origin o
  ∧ icon o'
    = match last (omap (loaded_icon tryFetchAsBlob Blobs_tryReadAsDataUrl)
                    links) with
      | Some data => Some data
      | None => icon o
      end
  ∧ title o'
    = default (title o)
        (last (concat (titles_of tryFetchAsJson property truthy <$> links))).
Proof.
  revert o requests.
  induction links as [|link links IH]; intros o requests; simpl.
  { by intros [= <- <-]. }
  unfold request_of, loaded_icon, titles_of.
  destruct (is_icon link) eqn:Hicon.
  - assert (∀ o0,
              (let '(requests0, r) :=
                 links_loop tryFetchAsBlob tryFetchAsJson
                   Blobs_tryReadAsDataUrl property truthy links o0 in
               (AsBlob (href link) :: requests0, r))
              = (requests, Fulfilled o') →
              ∃ requests0,
                links_loop tryFetchAsBlob tryFetchAsJson
                  Blobs_tryReadAsDataUrl property truthy links o0
                = (requests0, Fulfilled o')
                ∧ requests = AsBlob (href link) :: requests0) as Hstep.
    { intros o0. destruct (links_loop _ _ _ _ _ links o0) as [requests0 r].
      intros [= <- ->]. by exists requests0. }
    destruct (tryFetchAsBlob (href link)) as [blob|e].
    + destruct (Blobs_tryReadAsDataUrl blob) as [data|e].
      * intros (requests0 & Hrest & ->)%Hstep.
        apply IH in Hrest as (-> & -> & -> & ->).
        split_and!; [done | done | | done].
        rewrite last_cons. by destruct (last _).
      * intros (requests0 & Hrest & ->)%Hstep.
        by apply IH in Hrest as (-> & -> & -> & ->).
    + intros (requests0 & Hrest & ->)%Hstep.
      by apply IH in Hrest as (-> & -> & -> & ->).
  - destruct (decide (rel link = "manifest")) as [Hrel|Hrel];
      [|by intros ?%IH].
    assert (∀ o0,
              (let '(requests0, r) :=
                 links_loop tryFetchAsBlob tryFetchAsJson
                   Blobs_tryReadAsDataUrl property truthy links o0 in
               (AsJson (href link) :: requests0, r))
              = (requests, Fulfilled o') →
              ∃ requests0,
                links_loop tryFetchAsBlob tryFetchAsJson
                  Blobs_tryReadAsDataUrl property truthy links o0
                = (requests0, Fulfilled o')
                ∧ requests = AsJson (href link) :: requests0) as Hstep.
    { intros o0. destruct (links_loop _ _ _ _ _ links o0) as [requests0 r].
      intros [= <- ->]. by exists requests0. }
    destruct (tryFetchAsJson (href link)) as [manifest|e].
    + destruct (read_manifest property truthy manifest o) as [o1|e] eqn:Hread;
        [|done].
      apply read_manifest_run in Hread
        as (name & short_name & -> & -> & Horigin & Hicon' & Htitle).
      intros (requests0 & Hrest & ->)%Hstep.
      apply IH in Hrest as (-> & -> & -> & ->).
      rewrite Horigin, Hicon', Htitle. split_and!; [done | done | done |].
      fold (titles_of tryFetchAsJson property truthy).
      change (list_fmap _ _ ?f links) with (f <$> links).
      match goal with
      | |- context [last (?own ++ concat _)] => generalize own
      end.
      intros own. rewrite last_app. by destruct (last (concat _)).
    + intros (requests0 & Hrest & ->)%Hstep.
      by apply IH in Hrest as (-> & -> & -> & ->).
Qed.

Lemma favicon_run (o : PreOriginData Json) :
  origin (favicon tryFetchAsBlob Blobs_tryReadAsDataUrl o) = origin o
  ∧ title (favicon tryFetchAsBlob Blobs_tryReadAsDataUrl o) = title o
  ∧ icon (favicon tryFetchAsBlob Blobs_tryReadAsDataUrl o)
    = match loaded_icon tryFetchAsBlob Blobs_tryReadAsDataUrl
              {| rel := "icon"; href := "/favicon.ico" |} with
      | Some data => Some data
      | None => icon o
      end.
Proof.
  unfold favicon, loaded_icon.
  replace (is_icon {| rel := "icon"; href := "/favicon.ico" |}) with true
    by reflexivity.
  cbn [href].
  by destruct (tryFetchAsBlob "/favicon.ico") as [blob|];
    [destruct (Blobs_tryReadAsDataUrl blob)|].
Qed.

(** X23: every link that names an icon is fetched, in the order of the
    document, and the icon kept is the one of the last such link that
    could be fetched and read.  [/favicon.ico] is asked for, after all
    the links, exactly when no link gave an icon or the last one gave
    an empty one; the origin is the one of the location. *)
Theorem getOrigin_keeps_last_icon location_origin document_title metas links
    requests o :
  getOrigin tryFetchAsBlob tryFetchAsJson Blobs_tryReadAsDataUrl property
    truthy location_origin document_title metas links
  = (requests, Fulfilled o) →
  origin o = location_origin
  ∧ let fallback :=
      loaded_icon tryFetchAsBlob Blobs_tryReadAsDataUrl
        {| rel := "icon"; href := "/favicon.ico" |} in
    match last (omap (loaded_icon tryFetchAsBlob Blobs_tryReadAsDataUrl)
                  links) with
    | Some data =>
        if decide (data = "")
        then requests = omap request_of links ++ [AsBlob "/favicon.ico"]
             ∧ icon o = Some (default "" fallback)
        else requests = omap request_of links ∧ icon o = Some data
    | None =>
        requests = omap request_of links ++ [AsBlob "/favicon.ico"]
        ∧ icon o = fallback
    end.
Proof.
  unfold getOrigin.
  destruct (links_loop _ _ _ _ _ links _) as [requests0 [o1|e]] eqn:Hlinks;
    [|done].
  apply links_loop_run in Hlinks as (-> & Horigin & Hicon & _).
  destruct (metas_loop_run metas
              {| origin := location_origin; title := Text document_title;
                 icon := None; description := None |})
    as (Horigin' & Hicon' & _).
  rewrite Horigin' in Horigin. rewrite Hicon' in Hicon. simpl in *.
  destruct (favicon_run o1) as (Horigin2 & _ & Hicon2).
  rewrite Horigin, Hicon in *. unfold no_icon. rewrite Hicon.
  destruct (last _) as [data|].
  - destruct (decide (data = "")) as [->|Hdata].
    + rewrite bool_decide_eq_true_2 by done. intros [= <- <-].
      split; [done|]. split; [done|]. rewrite Hicon2.
      by destruct (loaded_icon _ _ _).
    + rewrite bool_decide_eq_false_2 by done. by intros [= <- <-].
  - intros [= <- <-]. split; [done|]. split; [done|]. rewrite Hicon2.
    by destruct (loaded_icon _ _ _).
Qed.

(** X24: the title is the last one proposed, in this order: the title of
    the document, the content of each [meta] named application-name,
    then for each manifest that could be fetched, in the order of the
    links, its name and its short name when they are truthy. *)
Theorem getOrigin_keeps_last_title location_origin document_title metas links
    requests o :
  getOrigin tryFetchAsBlob tryFetchAsJson Blobs_tryReadAsDataUrl property
    truthy location_origin document_title metas links
  = (requests, Fulfilled o) →
  title o
  = default (Text document_title)
      (last (meta_titles metas
             ++ concat (titles_of tryFetchAsJson property truthy <$> links))).
Proof.
  unfold getOrigin.
  destruct (links_loop _ _ _ _ _ links _) as [requests0 [o1|e]] eqn:Hlinks;
    [|done].
  apply links_loop_run in Hlinks as (_ & _ & _ & Htitle).
  destruct (metas_loop_run metas
              {| origin := location_origin; title := Text document_title;
                 icon := None; description := None |})
    as (_ & _ & Htitle').
  rewrite Htitle' in Htitle. simpl in Htitle.
  destruct (favicon_run o1) as (_ & Htitle2 & _).
  intros Hrun.
  assert (title o = title o1) as ->
    by (destruct (no_icon o1); by simplify_eq).
  rewrite Htitle, last_app.
  by destruct (last (concat _)), (last (meta_titles metas)).
Qed.

Lemma read_manifest_rejects manifest (o : PreOriginData Json) :
  (∀ e, read_manifest property truthy manifest o = Rejected e → e = TypeError)
  ∧ ((∃ e, read_manifest property truthy manifest o = Rejected e)
     ↔ property manifest "name" = None
       ∨ property manifest "short_name" = None
       ∨ property manifest "description" = None).
Proof.
  unfold read_manifest.
  destruct (property manifest "name") as [name|];
    [|split; [by intros e [= <-] | split; eauto]].
  destruct (property manifest "short_name") as [short_name|];
    [|split; [by intros e [= <-] | split; eauto]].
  destruct (property manifest "description") as [description|];
    [|split; [by intros e [= <-] | split; eauto]].
  split; [done|]. split; [by intros [e ?] | by intros [?|[?|?]]].
Qed.

Lemma links_loop_rejects links (o : PreOriginData Json) :
  (∀ requests e,
     links_loop tryFetchAsBlob tryFetchAsJson Blobs_tryReadAsDataUrl
       property truthy links o = (requests, Rejected e) →
     e = TypeError ∧ Exists (null_manifest tryFetchAsJson property) links)
  ∧ (Exists (null_manifest tryFetchAsJson property) links →
     ∃ requests,
       links_loop tryFetchAsBlob tryFetchAsJson Blobs_tryReadAsDataUrl
         property truthy links o = (requests, Rejected TypeError)).
Proof.
  revert o. induction links as [|link links IH]; intros o.
  { split; [done | by intros ?%Exists_nil]. }
  assert (∀ o0 request,
            (∀ requests e,
               (let '(requests0, r) :=
                  links_loop tryFetchAsBlob tryFetchAsJson
                    Blobs_tryReadAsDataUrl property truthy links o0 in
                (request :: requests0, r)) = (requests, Rejected e) →
               e = TypeError
               ∧ Exists (null_manifest tryFetchAsJson property) links)
            ∧ (Exists (null_manifest tryFetchAsJson property) links →
               ∃ requests,
                 (let '(requests0, r) :=
                    links_loop tryFetchAsBlob tryFetchAsJson
                      Blobs_tryReadAsDataUrl property truthy links o0 in
                  (request :: requests0, r))
                 = (requests, Rejected TypeError))) as Hstep.
  { intros o0 request. destruct (IH o0) as [Hfrom Hto]. split.
    - intros requests e.
      destruct (links_loop _ _ _ _ _ links o0) as [requests0 r].
      intros [= <- ->]. by eapply Hfrom.
    - intros [requests0 ->]%Hto. by eexists. }
  cbn [links_loop]. destruct (is_icon link) eqn:Hicon.
  - assert (¬ null_manifest tryFetchAsJson property link) as Hnot.
    { intros [Hrel _]. unfold is_icon in Hicon. rewrite Hrel in Hicon.
      by vm_compute in Hicon. }
    assert (∀ o0,
              (∀ requests e,
                 (let '(requests0, r) :=
                    links_loop tryFetchAsBlob tryFetchAsJson
                      Blobs_tryReadAsDataUrl property truthy links o0 in
                  (AsBlob (href link) :: requests0, r))
                 = (requests, Rejected e) →
                 e = TypeError
                 ∧ Exists (null_manifest tryFetchAsJson property)
                     (link :: links))
              ∧ (Exists (null_manifest tryFetchAsJson property)
                   (link :: links) →
                 ∃ requests,
                   (let '(requests0, r) :=
                      links_loop tryFetchAsBlob tryFetchAsJson
                        Blobs_tryReadAsDataUrl property truthy links o0 in
                    (AsBlob (href link) :: requests0, r))
                   = (requests, Rejected TypeError))) as Hicon_step.
    { intros o0. destruct (Hstep o0 (AsBlob (href link))) as [Hfrom Hto].
      split.
      - intros requests e [-> Hex]%Hfrom. split; [done | by right].
      - intros [Hhead|Htail]%Exists_cons; [done | by apply Hto]. }
    destruct (tryFetchAsBlob (href link)) as [blob|e0]; [|apply Hicon_step].
    destruct (Blobs_tryReadAsDataUrl blob) as [data|e0]; apply Hicon_step.
  - destruct (decide (rel link = "manifest")) as [Hrel|Hrel].
    + destruct (tryFetchAsJson (href link)) as [manifest|e0] eqn:Hfetch.
      * destruct (read_manifest_rejects manifest o) as [Htype Hnull].
        destruct (read_manifest property truthy manifest o) as [o1|e1]
          eqn:Hread.
        -- destruct (Hstep o1 (AsJson (href link))) as [Hfrom Hto]. split.
           ++ intros requests e [-> Hex]%Hfrom. split; [done | by right].
           ++ intros [Hhead|Htail]%Exists_cons; [|by apply Hto].
              destruct Hhead as (_ & manifest' & Hfetch' & Hbad).
              assert (manifest' = manifest) as -> by congruence.
              by apply Hnull in Hbad as [e ?].
        -- split.
           ++ intros requests e [= <- <-]. split; [by apply Htype|].
              left. split; [done|]. exists manifest. split; [done|].
              apply Hnull. by eexists.
           ++ intros _. rewrite (Htype e1 eq_refl). by eexists.
      * destruct (Hstep o (AsJson (href link))) as [Hfrom Hto]. split.
        -- intros requests e [-> Hex]%Hfrom. split; [done | by right].
        -- intros [Hhead|Htail]%Exists_cons; [|by apply Hto].
           destruct Hhead as (_ & manifest' & Hfetch' & _). congruence.
    + destruct (IH o) as [Hfrom Hto]. split.
      * intros requests e [-> Hex]%Hfrom. split; [done | by right].
      * intros [[Hhead _]|Htail]%Exists_cons; [done | by apply Hto].
Qed.

(** X25: the call always ends, and it throws exactly when some link names
    a manifest that could be fetched and is [null] or [undefined]; it
    then throws the [TypeError] of the property access.  A link that
    cannot be fetched or read never makes it throw. *)
Theorem getOrigin_throws_on_null_manifest location_origin document_title
    metas links :
  (∀ requests e,
     getOrigin tryFetchAsBlob tryFetchAsJson Blobs_tryReadAsDataUrl property
       truthy location_origin document_title metas links
     = (requests, Rejected e) →
     e = TypeError)
  ∧ ((∃ requests,
        getOrigin tryFetchAsBlob tryFetchAsJson Blobs_tryReadAsDataUrl
          property truthy location_origin document_title metas links
        = (requests, Rejected TypeError))
     ↔ Exists (null_manifest tryFetchAsJson property) links).
Proof.
  unfold getOrigin.
  destruct (links_loop_rejects links
              (metas_loop metas
                 {| origin := location_origin; title := Text document_title;
                    icon := None; description := None |}))
    as [Hfrom Hto].
  destruct (links_loop _ _ _ _ _ links _) as [requests0 [o1|e1]].
  - split; [by destruct (no_icon o1)|]. split.
    + intros [requests Hrun]. by destruct (no_icon o1).
    + intros [requests [=]]%Hto.
  - destruct (Hfrom requests0 e1 eq_refl) as [-> Hex]. split.
    + by intros requests e [= _ <-].
    + split; [done | by eexists].
Qed.

End OriginFacts.

(** ** The further properties on the worked examples *)

Section MoreRuns.

Import Scenario.

Lemma Modhash_from_sum_witness :
  ∃ n, Modhash.from [104; 105] 256 = Modhash.Num n
       ∧ n = (Z.of_nat (sum_list [104%nat; 105%nat]) `mod` Z.abs 256)%Z
       ∧ (0 ≤ n < Z.abs 256)%Z.
Proof. apply (Modhash_from_sum [104; 105] 256). lia. Defined.

Lemma Modhash_from_compose_witness :
  (∀ seed seed', seed ≡ₚ seed' → Modhash.from seed 7 = Modhash.from seed' 7)
  ∧ (∀ seed1 seed2,
       Modhash.from (seed1 ++ seed2) 7
       = Modhash.js_rem
           (Modhash.js_add (Modhash.from seed1 7) (Modhash.from seed2 7))
           (Modhash.Num 7)).
Proof. apply (Modhash_from_compose 7). lia. Defined.

Lemma Modhash_from_zero_length_witness :
  Modhash.from [104; 105] 0 = Modhash.NaN.
Proof. apply (proj2 (Modhash_from_zero_length [104; 105])). done. Defined.

Lemma signPersonalMessage_framing_witness :
  ∃ res first rest,
    Ledger.signPersonalMessageOrThrow Examples.device Examples.Paths_from
      "44'/60'/0'/0/0" Examples.message []
    = (Some res, first :: rest)
    ∧ Ledger.p1 first = 0x00%Z
    ∧ Ledger.fragment first
      = Examples.path_bytes
        ++ Ledger.uint32_bytes (Z.of_nat (length Examples.message))
        ++ take (146 - length Examples.path_bytes) Examples.message
    ∧ Forall (λ a, Ledger.p1 a = 0x80%Z ∧ 0 < length (Ledger.fragment a)) rest
    ∧ Forall (λ a, Ledger.cla a = 0xe0%Z ∧ Ledger.ins a = 0x08%Z
                   ∧ Ledger.p2 a = 0x00%Z
                   ∧ length (Ledger.fragment a) ≤ 150) (first :: rest).
Proof.
  apply (signPersonalMessage_framing Examples.device Examples.Paths_from
           "44'/60'/0'/0/0" Examples.path_bytes Examples.message).
  - reflexivity.
  - vm_compute. lia.
Defined.

Lemma signPersonalMessage_reassembles_witness :
  ∃ res sent,
    Ledger.signPersonalMessageOrThrow Examples.device Examples.Paths_from
      "44'/60'/0'/0/0" Examples.message []
    = (Some res, sent)
    ∧ (∃ k, Ledger.payload (length Examples.path_bytes + 4) sent
            = take k Examples.message)
    ∧ (∀ signature, res = Fulfilled signature →
                    Ledger.payload (length Examples.path_bytes + 4) sent
                    = Examples.message).
Proof.
  apply (signPersonalMessage_reassembles Examples.device Examples.Paths_from
           "44'/60'/0'/0/0" Examples.path_bytes Examples.message).
  - reflexivity.
  - vm_compute. lia.
Defined.

Lemma signTransaction_reassembles_witness :
  ∃ res first rest,
    Ledger.signTransactionOrThrow Examples.device Examples.Paths_from
      Examples.Rlp_read Examples.Rlp_write "44'/60'/0'/0/0"
      Examples.transaction []
    = (Some res, first :: rest)
    ∧ Ledger.p1 first = 0x00%Z
    ∧ take (length Examples.path_bytes) (Ledger.fragment first)
      = Examples.path_bytes
    ∧ Forall (λ a, Ledger.p1 a = 0x80%Z) rest
    ∧ (∃ k, Ledger.payload (length Examples.path_bytes) (first :: rest)
            = take k Examples.transaction)
    ∧ (∀ signature, res = Fulfilled signature →
                    Ledger.payload (length Examples.path_bytes) (first :: rest)
                    = Examples.transaction).
Proof.
  apply (signTransaction_reassembles Examples.device Examples.Paths_from
           Examples.Rlp_read Examples.Rlp_write "44'/60'/0'/0/0"
           Examples.path_bytes Examples.transaction
           (Some (replicate 270 0xf8%Z))).
  - reflexivity.
  - vm_compute. lia.
  - reflexivity.
Defined.

Lemma signTransaction_keeps_marker_whole_witness :
  length (Ledger.fragment Examples.transaction_first) ≤ 150
  ∧ ∀ u, Some (replicate 270 0xf8%Z) = Some u →
         length (Ledger.payload (length Examples.path_bytes)
                   ([] ++ [Examples.transaction_first]))
         < length u.
Proof.
  apply (signTransaction_keeps_marker_whole Examples.device
           Examples.Paths_from Examples.Rlp_read Examples.Rlp_write
           "44'/60'/0'/0/0" Examples.path_bytes Examples.transaction
           (Some (replicate 270 0xf8%Z))
           ltac:(reflexivity) ltac:(vm_compute; lia) ltac:(reflexivity)
           [] Examples.transaction_first [Examples.transaction_second]).
  - vm_compute. reflexivity.
  - done.
Defined.

Lemma getAddress_reads_answer_witness :
  Ledger.getAddressOrThrow Examples.device Examples.Paths_from
    Examples.Bytes_toAscii "44'/60'/0'/0/0" []
  = (Some (Fulfilled
             {| Ledger.uncompressedPublicKey := Examples.public_key;
                Ledger.address :=
                  "0x" +:+ Examples.Bytes_toAscii Examples.address_bytes;
                Ledger.chaincode := Examples.chain_code |}),
     [{| Ledger.cla := 0xe0; Ledger.ins := 0x02; Ledger.p1 := 0x00;
         Ledger.p2 := 0x01; Ledger.fragment := Examples.path_bytes |}]).
Proof.
  apply (getAddress_reads_answer Examples.device Examples.Paths_from
           Examples.Bytes_toAscii "44'/60'/0'/0/0" Examples.path_bytes
           ((2 :: Examples.public_key) ++ (3 :: Examples.address_bytes)
              ++ Examples.chain_code)%Z
           Examples.public_key Examples.address_bytes Examples.chain_code []).
  - reflexivity.
  - reflexivity.
  - reflexivity.
  - reflexivity.
Defined.

Lemma getAddress_returns_whole_fields_witness :
  ∃ paths response addr extra,
    Examples.Paths_from "44'/60'/0'/0/0" = Ok paths
    ∧ [{| Ledger.cla := 0xe0; Ledger.ins := 0x02; Ledger.p1 := 0x01;
          Ledger.p2 := 0x01; Ledger.fragment := Examples.path_bytes |}]
      = [{| Ledger.cla := 0xe0; Ledger.ins := 0x02; Ledger.p1 := 0x01;
            Ledger.p2 := 0x01; Ledger.fragment := paths |}]
    ∧ Examples.device [] {| Ledger.cla := 0xe0; Ledger.ins := 0x02;
                            Ledger.p1 := 0x01; Ledger.p2 := 0x01;
                            Ledger.fragment := paths |} = Ok response
    ∧ response
      = Z.of_nat (length Examples.public_key) :: Examples.public_key
        ++ Z.of_nat (length addr) :: addr ++ Examples.chain_code ++ extra
    ∧ ("0x" +:+ Examples.Bytes_toAscii Examples.address_bytes)%string
      = "0x" +:+ Examples.Bytes_toAscii addr
    ∧ length Examples.chain_code = 32.
Proof.
  apply (getAddress_returns_whole_fields Examples.device Examples.Paths_from
           Examples.Bytes_toAscii "44'/60'/0'/0/0" true
           {| Ledger.uncompressedPublicKey := Examples.public_key;
              Ledger.address :=
                "0x" +:+ Examples.Bytes_toAscii Examples.address_bytes;
              Ledger.chaincode := Examples.chain_code |}
           [{| Ledger.cla := 0xe0; Ledger.ins := 0x02; Ledger.p1 := 0x01;
               Ledger.p2 := 0x01; Ledger.fragment := Examples.path_bytes |}]).
  vm_compute. reflexivity.
Defined.

Lemma signEIP712_one_command_witness :
  ∃ res,
    Ledger.signEIP712HashedMessageOrThrow Examples.device Examples.Paths_from
      "44'/60'/0'/0/0" (replicate 32 3%Z) (replicate 32 4%Z) []
    = (Some res,
       [{| Ledger.cla := 0xe0; Ledger.ins := 0x0c; Ledger.p1 := 0x00;
           Ledger.p2 := 0x00;
           Ledger.fragment :=
             Examples.path_bytes ++ replicate 32 3%Z ++ replicate 32 4%Z |}])
    ∧ ∀ response,
        Examples.device []
          {| Ledger.cla := 0xe0; Ledger.ins := 0x0c; Ledger.p1 := 0x00;
             Ledger.p2 := 0x00;
             Ledger.fragment :=
               Examples.path_bytes ++ replicate 32 3%Z ++ replicate 32 4%Z |}
        = Ok response →
        (∀ v r s extra,
           response = v :: r ++ s ++ extra → length r = 32 → length s = 32 →
           res = Fulfilled {| Ledger.sig_v := v - 27; Ledger.sig_r := r;
                              Ledger.sig_s := s |})
        ∧ (length response < 65 → ∃ e, res = Rejected e).
Proof.
  apply (signEIP712_one_command Examples.device Examples.Paths_from
           "44'/60'/0'/0/0" Examples.path_bytes
           (replicate 32 3%Z) (replicate 32 4%Z)).
  - reflexivity.
  - reflexivity.
  - reflexivity.
Defined.

Lemma consensus_majority_wins_witness :
  ∃ f, consensus [Fulfilled (Data "a"); Fulfilled (Data "b");
                  Rejected Panic; Fulfilled (Data "a")]
       = Fulfilled f
       ∧ Fulfilled f ∈ [Fulfilled (Data "a"); Fulfilled (Data "b");
                        Rejected Panic; Fulfilled (Data "a")]
       ∧ raw_of f = "a".
Proof.
  apply (consensus_majority_wins
           [Fulfilled (Data "a"); Fulfilled (Data "b");
            Rejected Panic; Fulfilled (Data "a")] "a").
  vm_compute. lia.
Defined.

Lemma consensus_returns_first_or_last_witness :
  ((∀ g, g ∈ fulfilleds [Fulfilled (Data "a"); Fulfilled (Fail "a");
                         Fulfilled (Data "b")] →
         raw_of g = raw_of (Fail "a"))
   ∧ head (fulfilleds [Fulfilled (Data "a"); Fulfilled (Fail "a");
                       Fulfilled (Data "b")])
     = Some (Fail "a"))
  ∨ ((∃ g, g ∈ fulfilleds [Fulfilled (Data "a"); Fulfilled (Fail "a");
                           Fulfilled (Data "b")]
           ∧ raw_of g ≠ raw_of (Fail "a"))
     ∧ last (filter (λ g, raw_of g = raw_of (Fail "a"))
               (fulfilleds [Fulfilled (Data "a"); Fulfilled (Fail "a");
                            Fulfilled (Data "b")]))
       = Some (Fail "a")).
Proof.
  apply (consensus_returns_first_or_last
           [Fulfilled (Data "a"); Fulfilled (Fail "a"); Fulfilled (Data "b")]
           (Fail "a")).
  vm_compute. reflexivity.
Defined.

Lemma fetch_agreeing_nodes_witness :
  ∃ f, (ServiceWorker.tryEthereumFetch Examples.rpc_flaky init ethereum).2
       = Fulfilled (Ok f)
       ∧ raw_of f = P1.
Proof.
  apply (fetch_agreeing_nodes Examples.rpc_flaky init ethereum
           (Pool_of_list [circuit_A; circuit_B]) P1).
  - reflexivity.
  - intros i pool j conn response _ _ _ _.
    unfold ServiceWorker.exchange.
    destruct (connection conn) as [url circuit|socket circuit]; simpl;
      [case_decide|]; intros Hx; by simplify_eq.
  - exists 0, circuit_A, 0, (conn_at "a0"), (RpcOk P1).
    split_and!; [simpl; lia | reflexivity | simpl; lia | reflexivity
                 | reflexivity].
Defined.

Lemma fetch_returns_a_response_witness :
  ∃ pools i pool j conn response,
    ServiceWorker.brume ethereum
      !! chainId (ServiceWorker.chain ethereum) = Some pools
    ∧ i < capacity pools ∧ tryGet pools i = Ok (Ok pool)
    ∧ j < capacity pool ∧ tryGet pool j = Ok (Ok conn)
    ∧ ServiceWorker.exchange rpc init conn = Ok response
    ∧ Data P1 = Fetched_rewrap response
    ∧ Send i j ∈ (ServiceWorker.tryEthereumFetch rpc init ethereum).1.
Proof.
  apply (fetch_returns_a_response rpc init ethereum (Data P1)).
  vm_compute. reflexivity.
Defined.

Lemma fetch_without_connections_witness :
  (∃ errors,
     (ServiceWorker.tryEthereumFetch rpc init Examples.ethereum_empty).2
     = Fulfilled (Err (Catched (AggregateError errors))))
  ∧ ∀ i j,
      Send i j
      ∉ (ServiceWorker.tryEthereumFetch rpc init Examples.ethereum_empty).1.
Proof.
  apply (fetch_without_connections rpc init Examples.ethereum_empty
           (Pool_of_list [Pool_of_list []; Pool_of_list []])).
  - reflexivity.
  - intros [|[|i]] pool Hi; simpl; intros Hslot; by simplify_eq.
Defined.

Lemma retry_loop_is_bounded_witness :
  length (RetrySteps.pools_tried
            (ContentScript.steps
               (ContentScript.tryEthereumFetch rpc init ethereum_refs
                  (ContentScript.Heap_init [0; 0; 0; 1; 0; 1; 1; 1; 0])).2))
  ≤ 2
  ∧ length (RetrySteps.fetched
              (ContentScript.steps
                 (ContentScript.tryEthereumFetch rpc init ethereum_refs
                    (ContentScript.Heap_init [0; 0; 0; 1; 0; 1; 1; 1; 0])).2))
    ≤ 2 * 2.
Proof.
  apply (retry_loop_is_bounded rpc init ethereum_refs
           (Pool_of_list
              [ref_circuit 10 [ref_conn 11 "x0"; ref_conn 12 "x1"];
               ref_circuit 20 [ref_conn 21 "a0"; ref_conn 22 "x2"]])
           2 [0; 0; 0; 1; 0; 1; 1; 1; 0]).
  - reflexivity.
  - intros word pool. unfold Pool_of_list. cbn [tryGetCryptoRandom].
    destruct (_ !! _) as [item|] eqn:Hitem; [|done]. intros Hdraw.
    apply list_elem_of_lookup_2 in Hitem. simplify_eq.
    repeat (apply elem_of_cons in Hitem as [->|Hitem]);
      [simpl; lia | simpl; lia | by apply elem_of_nil in Hitem].
Defined.

Lemma retry_returns_last_answer_witness :
  ∃ pools done p cs conn response,
    ContentScript.brume ethereum_refs
      !! chainId (ContentScript.chain ethereum_refs) = Some pools
    ∧ ContentScript.steps
        (ContentScript.tryEthereumFetch rpc init ethereum_refs
           (ContentScript.Heap_init [0; 0; 0; 1; 0; 1; 1; 1; 0])).2
      = RetrySteps.call_steps
          (done ++ [{| RetrySteps.attempt_pool := p;
                       RetrySteps.attempt_conns := cs ++ [conn] |}])
    ∧ (∃ earlier,
         ContentScript.steps
           (ContentScript.tryEthereumFetch rpc init ethereum_refs
              (ContentScript.Heap_init [0; 0; 0; 1; 0; 1; 1; 1; 0])).2
         = earlier ++ [ContentScript.Fetch (ContentScript.addr conn)]
         ∧ RetrySteps.fetched earlier
           = concat (RetrySteps.conn_addresses <$> done)
             ++ (ContentScript.addr <$> cs))
    ∧ NoDup (RetrySteps.pool_addresses done ++ [ContentScript.addr p])
    ∧ Forall (RetrySteps.attempt_drawn pools)
        (done ++ [{| RetrySteps.attempt_pool := p;
                     RetrySteps.attempt_conns := cs ++ [conn] |}])
    ∧ Forall (λ a, Forall (RetrySteps.failed rpc init)
                     (RetrySteps.attempt_conns a)) done
    ∧ Forall (RetrySteps.failed rpc init) cs
    ∧ ServiceWorker.exchange rpc init (ContentScript.deref conn) = Ok response
    ∧ Data P1 = Fetched_rewrap response.
Proof.
  apply (retry_returns_last_answer rpc init ethereum_refs
           [0; 0; 0; 1; 0; 1; 1; 1; 0] (Data P1)).
  vm_compute. reflexivity.
Defined.

Lemma retry_spins_on_repeated_draw_witness :
  (ContentScript.tryEthereumFetch rpc init Examples.ethereum_half_open
     (ContentScript.Heap_init [0; 1; 2; 3; 4; 5; 6; 7])).1
  = None.
Proof.
  apply (retry_spins_on_repeated_draw rpc init Examples.ethereum_half_open
           Examples.directory_half_open Examples.half_open Examples.lone_conn
           (Error "unreachable") [0; 1; 2; 3; 4; 5; 6; 7]).
  - reflexivity.
  - simpl. lia.
  - reflexivity.
  - simpl. lia.
  - reflexivity.
  - reflexivity.
Defined.

Lemma Reverse_tryFetch_confirms_forward_witness :
  BgEns.Reverse_tryFetchUnchecked
    (BgEns.fetch_with Examples.rpc_names ethereum) "0xAbC"
  = Ok (BgEns.DataAs (Some "alice.eth"))
  ∧ ∃ address2,
      BgEns.Lookup_tryFetch
        (BgEns.fetch_with Examples.rpc_names ethereum) "alice.eth"
      = Ok (BgEns.DataAs address2)
      ∧ BgEns.toLowerCase "0xAbC" = BgEns.toLowerCase address2.
Proof.
  apply (proj1 (Reverse_tryFetch_confirms_forward
                  (BgEns.fetch_with Examples.rpc_names ethereum)
                  "0xAbC" "alice.eth")).
  vm_compute. reflexivity.
Defined.

Lemma Lookup_address_was_answered_witness :
  ∃ namehash signature data resolver pools i pool j conn inner,
    BgEns.Ens_tryNamehash "alice.eth" = Ok namehash
    ∧ BgEns.Resolver_tryFetch
        (BgEns.fetch_with Examples.rpc_names ethereum) namehash
      = Ok (BgEns.DataAs resolver)
    ∧ BgEns.FunctionSignature_tryParse "addr(bytes32)" = Ok signature
    ∧ BgEns.Abi_tryEncode signature namehash = Ok data
    ∧ ServiceWorker.brume ethereum
        !! chainId (ServiceWorker.chain ethereum) = Some pools
    ∧ i < capacity pools ∧ tryGet pools i = Ok (Ok pool)
    ∧ j < capacity pool ∧ tryGet pool j = Ok (Ok conn)
    ∧ ServiceWorker.exchange Examples.rpc_names
        (BgEns.eth_call resolver data) conn = Ok (RpcOk inner)
    ∧ BgEns.Abi_tryDecode_address inner = Ok "0xabc"%string.
Proof.
  apply (Lookup_address_was_answered Examples.rpc_names ethereum
           "alice.eth" "0xabc").
  vm_compute. reflexivity.
Defined.

Lemma sessions_are_asked_in_order_witness :
  (Sessions.tryFetch Examples.brumes_tryGet Examples.EthereumSocket_request
     Examples.FetchError_from 3 1 init (ContentScript.Heap_init [])).1
  = Some (Ok (Fetched_rewrap (RpcOk "0x10")))
  ∧ (Sessions.tryFetch Examples.brumes_tryGet Examples.EthereumSocket_request
       Examples.FetchError_from 3 5 init (ContentScript.Heap_init [])).1
    = Some (Err (Examples.FetchError_from NoneError))
  ∧ (Sessions.tryFetch Examples.no_session Examples.EthereumSocket_request
       Examples.FetchError_from 2 1 init (ContentScript.Heap_init [])).1
    = Some (Err (Examples.FetchError_from
                   (TooManyRetriesError
                      [Error "no session"; Error "no session"]))).
Proof.
  split_and!.
  - apply (proj1 (sessions_are_asked_in_order Examples.brumes_tryGet
                    Examples.EthereumSocket_request Examples.FetchError_from
                    3 1 init [Error "no session"] (ContentScript.Heap_init [])
                    ltac:(by intros [|j] e [= <-]))
             ltac:(simpl; lia) Examples.session {| socket_url := "wss://node" |}
             (RpcOk "0x10"));
      reflexivity.
  - apply (proj1 (proj2 (sessions_are_asked_in_order Examples.brumes_tryGet
                    Examples.EthereumSocket_request Examples.FetchError_from
                    3 5 init [Error "no session"] (ContentScript.Heap_init [])
                    ltac:(by intros [|j] e [= <-])))
             ltac:(simpl; lia) Examples.session);
      reflexivity.
  - apply (proj2 (proj2 (sessions_are_asked_in_order Examples.no_session
                    Examples.EthereumSocket_request Examples.FetchError_from
                    2 1 init [Error "no session"; Error "no session"]
                    (ContentScript.Heap_init [])
                    ltac:(by intros [|[|j]] e [= <-])))).
    reflexivity.
Defined.

Lemma getOrigin_keeps_last_icon_witness :
  Origin.origin Examples.page_origin = "https://app.example"
  ∧ Examples.page_requests = omap Origin.request_of Examples.links
  ∧ Origin.icon Examples.page_origin = Some "data:png"%string.
Proof.
  exact (getOrigin_keeps_last_icon Examples.tryFetchAsBlob
           Examples.tryFetchAsJson Examples.Blobs_tryReadAsDataUrl
           Examples.property Examples.truthy "https://app.example" "Home"
           Examples.metas Examples.links Examples.page_requests
           Examples.page_origin eq_refl).
Defined.

Lemma getOrigin_keeps_last_title_witness :
  Origin.title Examples.page_origin
  = default (Origin.Text "Home")
      (last (Origin.meta_titles Examples.metas
             ++ concat (Origin.titles_of Examples.tryFetchAsJson
                          Examples.property Examples.truthy
                          <$> Examples.links))).
Proof.
  apply (getOrigin_keeps_last_title Examples.tryFetchAsBlob
           Examples.tryFetchAsJson Examples.Blobs_tryReadAsDataUrl
           Examples.property Examples.truthy "https://app.example" "Home"
           Examples.metas Examples.links Examples.page_requests
           Examples.page_origin).
  reflexivity.
Defined.

Lemma getOrigin_throws_on_null_manifest_witness :
  ∃ requests,
    Origin.getOrigin Examples.tryFetchAsBlob Examples.tryFetchAsJson
      Examples.Blobs_tryReadAsDataUrl Examples.property Examples.truthy
      "https://app.example" "Home" Examples.metas Examples.links_null
    = (requests, Rejected TypeError).
Proof.
  apply (proj2 (proj2 (getOrigin_throws_on_null_manifest
                         Examples.tryFetchAsBlob Examples.tryFetchAsJson
                         Examples.Blobs_tryReadAsDataUrl Examples.property
                         Examples.truthy "https://app.example" "Home"
                         Examples.metas Examples.links_null))).
  right. left. split; [reflexivity|]. exists Examples.JsNull.
  split; [reflexivity | by left].
Defined.

End MoreRuns.
